(** * InMemoryProvider: a transactional in-memory store with secondary indexes

    Shallow embedding of [src/InMemoryProvider.ts] (provider, transaction,
    store and index classes) and the properties of its specification.

    The JavaScript object graph is modelled by an explicit world: a heap of
    row dictionaries addressed by location (so that [_mergedData] and
    [_committedStoreData] can alias the provider's map, as they do in the
    source), a table of [InMemoryStore] objects, a table of
    [InMemoryTransaction] objects and the pending [setTimeout] callbacks. *)

From Stdlib Require Import ZArith String Ascii List Lia Permutation.
From stdpp Require Import base option list strings sorting.

Open Scope Z_scope.
Open Scope list_scope.

(** ** JavaScript values *)

#[local] Unset Elimination Schemes.
Inductive value :=
| VUndefined
| VNull
| VBool (b : bool)
| VNum (n : Z)
| VStr (s : string)
| VArr (items : list value)
| VObj (fields : list (string * value)).
#[local] Set Elimination Schemes.

(** [!!v]: everything is truthy but undefined, null, false, 0 and the empty
    string (numbers are integers here, there is no NaN). *)
Definition truthy (v : value) : bool :=
  match v with
  | VUndefined | VNull => false
  | VBool b => b
  | VNum n => negb (n =? 0)
  | VStr s => negb (String.eqb s "")
  | VArr _ | VObj _ => true
  end.

(** [v === undefined] *)
Definition is_undefined (v : value) : bool :=
  match v with VUndefined => true | _ => false end.

(** [_.compact]: drops the falsy elements. *)
Definition compact (l : list value) : list value := List.filter truthy l.

(** [_.flatten]: flattens one level; an element that is an array is spliced
    in, any other element is kept as it is. *)
Definition flatten1 (v : value) : list value :=
  match v with VArr items => items | _ => [v] end.

Definition flatten (l : list value) : list value := flat_map flatten1 l.

(** An optional argument read in a condition: [undefined] is falsy. *)
Definition flag (b : option bool) : bool := default false b.

(** [Array.prototype.slice(start, end)] on integer arguments: a negative
    index counts from the end, every index is clamped to the array. *)
Definition slice_index (len : nat) (i : Z) : nat :=
  if i <? 0 then Z.to_nat (Z.max (Z.of_nat len + i) 0)
  else Nat.min (Z.to_nat i) len.

Definition slice {A} (l : list A) (start : Z) (stop : option Z) : list A :=
  let len := length l in
  let k := slice_index len start in
  let final := match stop with None => len | Some e => slice_index len e end in
  take (final - k) (drop k l).

(** [Array.prototype.sort()] without comparator on an array of strings:
    ascending in the order of [<] on strings. *)
Definition sort (keys : list string) : list string := merge_sort String.le keys.

(** ** Thrown errors and promises *)

Inductive error := Error (message : string).

(** The outcome of a call that can throw ([_.attempt] around it yields the
    error, or nothing). *)
Inductive attempt (A : Type) :=
| Returned (a : A)
| Threw (e : error).
Arguments Returned {A} a.
Arguments Threw {A} e.

Definition abind {A B} (x : attempt A) (f : A → attempt B) : attempt B :=
  match x with Returned a => f a | Threw e => Threw e end.

Notation "x ← y ;;; z" := (abind y (λ x, z))
  (at level 20, y at level 100, z at level 200, only parsing).

(** [_.map(l, f)] where [f] can throw: the first throw ends the loop. *)
Fixpoint amap {A B} (f : A → attempt B) (l : list A) : attempt (list B) :=
  match l with
  | [] => Returned []
  | x :: l' => y ← f x ;;; ys ← amap f l' ;;; Returned (y :: ys)
  end.

Inductive rejection :=
| RejString (reason : string)
| RejError (e : error).

Inductive Promise (A : Type) :=
| Resolved (a : A)
| Rejected (r : rejection).
Arguments Resolved {A} a.
Arguments Rejected {A} r.

(** The rejection every operation of a closed transaction answers with. *)
Definition TransactionClosed : rejection := RejString "InMemoryTransaction already closed".

(** ** Dictionaries

    A [_.Dictionary<T>] is a plain object used as a map.  Its own properties
    are kept in insertion order, which is the order [_.each], [_.keys] and
    [_.assign] enumerate them in.  (An object enumerates the keys that are
    array indices before the others; the keys here are serialized keys and
    store names, taken not to be such.) *)

Abbreviation Dictionary A := (list (string * A)) (only parsing).

Section Dictionary.
Context {A : Type}.

(** [d[k]] as an own-property lookup. *)
Fixpoint dict_get (d : Dictionary A) (k : string) : option A :=
  match d with
  | [] => None
  | (k', v) :: d' => if String.eqb k' k then Some v else dict_get d' k
  end.

(** [d[k] = v]: an existing property keeps its place, a new one goes last. *)
Fixpoint dict_set (d : Dictionary A) (k : string) (v : A) : Dictionary A :=
  match d with
  | [] => [(k, v)]
  | (k', v') :: d' =>
      if String.eqb k' k then (k', v) :: d' else (k', v') :: dict_set d' k v
  end.

(** [delete d[k]] *)
Fixpoint dict_delete (d : Dictionary A) (k : string) : Dictionary A :=
  match d with
  | [] => []
  | (k', v') :: d' =>
      if String.eqb k' k then dict_delete d' k else (k', v') :: dict_delete d' k
  end.

(** [_.keys(d)] *)
Definition dict_keys (d : Dictionary A) : list string := map fst d.

(** the values [_.each(d, v => ...)] visits, in order *)
Definition dict_values (d : Dictionary A) : list A := map snd d.

(** [_.assign(target, src)] *)
Definition assign (target src : Dictionary A) : Dictionary A :=
  fold_left (λ acc kv, dict_set acc (fst kv) (snd kv)) src target.
End Dictionary.

(** [d[k]] on a dictionary of values: a missing property reads [undefined]. *)
Definition dict_index (d : Dictionary value) (k : string) : value :=
  default VUndefined (dict_get d k).

(** ** Collaborators

    [NoSqlProviderUtils] (the key codec) and [FullTextSearchHelpers] are
    consumed through their interface only.  Every function of the codec can
    throw. *)

Inductive keypath :=
| KeyPath (path : string)
| CompoundKeyPath (paths : list string).

Class Collaborators := {
  serializeKeyToString : value → keypath → attempt string;
  getSerializedKeyForKeypath : value → keypath → attempt string;
  formListOfSerializedKeys : value → keypath → attempt (list string);
  getValueForSingleKeypath : value → keypath → attempt value;
  getFullTextIndexWordsForItem : keypath → value → attempt (list string)
}.

(** Modelled from the spec: [NoSqlProviderUtils.arrayify], which is not
    part of the source file.  The spec passes it "an item or items", "a key
    or keys" and a multi-entry field that "is itself a collection": a
    collection is taken as it is, anything else is a collection of one. *)
Definition arrayify (v : value) : list value :=
  match v with VArr items => items | _ => [v] end.

(** ** Schema *)

Record IndexSchema := {
  index_name : string;
  keyPath : keypath;
  unique : bool;
  multiEntry : bool;
  fullText : bool
}.

Record StoreSchema := {
  store_name : string;
  primaryKeyPath : keypath;
  indexes : list IndexSchema
}.

Record DbSchema := { stores : list StoreSchema }.

(** ** The object graph *)

Definition loc := nat.    (* a row dictionary on the heap *)
Definition sref := nat.   (* an InMemoryStore object *)
Definition tref := nat.   (* an InMemoryTransaction object *)
Definition timer := positive.  (* a setTimeout handle, never falsy *)

(** [StoreData = { data, schema }]; [data] is a reference. *)
Record StoreData := { data : loc; schema : StoreSchema }.

Record TransactionToken := { storeNames : list string; exclusive : bool }.

Record InMemoryTransaction := {
  _openTimer : option timer;
  tx_stores : Dictionary sref;
  _transToken : TransactionToken
}.

Record InMemoryStore := {
  st_trans : tref;
  _pendingCommitDataChanges : option (Dictionary value);
  _committedStoreData : loc;
  _mergedData : loc;
  _storeSchema : StoreSchema
}.

Record InMemoryIndex := {
  ix_trans : tref;
  ix_mergedData : loc;
  _indexSchema : option IndexSchema;
  _keyPath : keypath
}.

(** What the transaction told the lock helper. *)
Inductive LockEvent :=
| transactionComplete (token : TransactionToken)
| transactionFailed (token : TransactionToken) (message : string).

Record World := mkWorld {
  heap : list (Dictionary value);
  prov_stores : Dictionary StoreData;       (* InMemoryProvider._stores *)
  storeObjs : list InMemoryStore;
  transObjs : list InMemoryTransaction;
  timers : list (timer * tref);             (* pending setTimeout callbacks *)
  nextTimer : timer;
  lockHelper : list LockEvent
}.

#[global] Instance StoreSchema_inhabited : Inhabited StoreSchema :=
  populate {| store_name := ""; primaryKeyPath := KeyPath ""; indexes := [] |}.
#[global] Instance TransactionToken_inhabited : Inhabited TransactionToken :=
  populate {| storeNames := []; exclusive := false |}.
#[global] Instance InMemoryTransaction_inhabited : Inhabited InMemoryTransaction :=
  populate {| _openTimer := None; tx_stores := []; _transToken := inhabitant |}.
#[global] Instance InMemoryStore_inhabited : Inhabited InMemoryStore :=
  populate {| st_trans := 0%nat; _pendingCommitDataChanges := None;
              _committedStoreData := 0%nat; _mergedData := 0%nat;
              _storeSchema := inhabitant |}.

Definition set_heap (f : list (Dictionary value) → list (Dictionary value)) (w : World) : World :=
  mkWorld (f (heap w)) (prov_stores w) (storeObjs w) (transObjs w) (timers w)
          (nextTimer w) (lockHelper w).

Definition set_prov_stores (f : Dictionary StoreData → Dictionary StoreData) (w : World) : World :=
  mkWorld (heap w) (f (prov_stores w)) (storeObjs w) (transObjs w) (timers w)
          (nextTimer w) (lockHelper w).

Definition set_storeObjs (f : list InMemoryStore → list InMemoryStore) (w : World) : World :=
  mkWorld (heap w) (prov_stores w) (f (storeObjs w)) (transObjs w) (timers w)
          (nextTimer w) (lockHelper w).

Definition set_transObjs (f : list InMemoryTransaction → list InMemoryTransaction) (w : World) : World :=
  mkWorld (heap w) (prov_stores w) (storeObjs w) (f (transObjs w)) (timers w)
          (nextTimer w) (lockHelper w).

Definition set_timers (f : list (timer * tref) → list (timer * tref)) (w : World) : World :=
  mkWorld (heap w) (prov_stores w) (storeObjs w) (transObjs w) (f (timers w))
          (nextTimer w) (lockHelper w).

Definition notify (e : LockEvent) (w : World) : World :=
  mkWorld (heap w) (prov_stores w) (storeObjs w) (transObjs w) (timers w)
          (nextTimer w) (lockHelper w ++ [e]).

(** Dereferencing and assignment through a reference. *)
Definition read_dict (l : loc) (w : World) : Dictionary value := heap w !!! l.
Definition write_dict (l : loc) (d : Dictionary value) : World → World :=
  set_heap (λ h, <[l := d]> h).
(** A fresh object literal / [_.assign({}, ...)] result. *)
Definition alloc_dict (d : Dictionary value) (w : World) : loc * World :=
  (length (heap w), set_heap (λ h, h ++ [d]) w).

Definition store_at (s : sref) (w : World) : InMemoryStore := storeObjs w !!! s.
Definition trans_at (t : tref) (w : World) : InMemoryTransaction := transObjs w !!! t.

Definition with_pending (p : option (Dictionary value)) (st : InMemoryStore) : InMemoryStore :=
  {| st_trans := st_trans st; _pendingCommitDataChanges := p;
     _committedStoreData := _committedStoreData st; _mergedData := _mergedData st;
     _storeSchema := _storeSchema st |}.

Definition with_merged (l : loc) (st : InMemoryStore) : InMemoryStore :=
  {| st_trans := st_trans st; _pendingCommitDataChanges := _pendingCommitDataChanges st;
     _committedStoreData := _committedStoreData st; _mergedData := l;
     _storeSchema := _storeSchema st |}.

Definition with_openTimer (h : option timer) (tx : InMemoryTransaction) : InMemoryTransaction :=
  {| _openTimer := h; tx_stores := tx_stores tx; _transToken := _transToken tx |}.

Definition with_stores (ss : Dictionary sref) (tx : InMemoryTransaction) : InMemoryTransaction :=
  {| _openTimer := _openTimer tx; tx_stores := ss; _transToken := _transToken tx |}.

Definition update_store (s : sref) (f : InMemoryStore → InMemoryStore) (w : World) : World :=
  set_storeObjs (λ ss, <[s := f (store_at s w)]> ss) w.

Definition update_trans (t : tref) (f : InMemoryTransaction → InMemoryTransaction) (w : World) : World :=
  set_transObjs (λ ts, <[t := f (trans_at t w)]> ts) w.

(** ** InMemoryProvider *)

Definition empty_world : World :=
  mkWorld [] [] [] [] [] 1%positive [].

(** [open]: one [StoreData] with an empty [data] object per store of the
    schema. *)
Definition open (dbSchema : DbSchema) : World :=
  fold_left
    (λ w storeSchema,
       let '(l, w1) := alloc_dict [] w in
       set_prov_stores
         (λ p, dict_set p (store_name storeSchema) {| schema := storeSchema; data := l |}) w1)
    (stores dbSchema) empty_world.

Definition internal_getStore (name : string) (w : World) : option StoreData :=
  dict_get (prov_stores w) name.

(** ** InMemoryTransaction *)

(** The constructor: the commit is scheduled with [setTimeout(..., 0)] and
    the handle kept in [_openTimer]. *)
Definition new_InMemoryTransaction (transToken : TransactionToken) (w : World) : tref * World :=
  let t := length (transObjs w) in
  let h := nextTimer w in
  (t, mkWorld (heap w) (prov_stores w) (storeObjs w)
        (transObjs w ++ [{| _openTimer := Some h; tx_stores := []; _transToken := transToken |}])
        (timers w ++ [(h, t)]) (Pos.succ h) (lockHelper w)).

(** Modelled from the spec: [TransactionLockHelper.openTransaction], which
    is not part of the source file, grants the transaction and hands out a
    token for the requested store names; the provider then constructs the
    transaction bound to the granted token. *)
Definition openTransaction (names : list string) (writeNeeded : bool) (w : World) : tref * World :=
  new_InMemoryTransaction {| storeNames := names; exclusive := writeNeeded |} w.

Definition internal_isOpen (t : tref) (w : World) : bool :=
  match _openTimer (trans_at t w) with Some _ => true | None => false end.

(** [this._pendingCommitDataChanges = undefined;
    this._mergedData = this._committedStoreData;] *)
Definition discard_pending (st : InMemoryStore) : InMemoryStore :=
  with_merged (_committedStoreData st) (with_pending None st).

(** The loop of [internal_commitPendingData]: an entry that is [undefined]
    deletes its key from the committed data, any other entry is written. *)
Definition replay (pending committed : Dictionary value) : Dictionary value :=
  fold_left
    (λ c kv, if is_undefined (snd kv) then dict_delete c (fst kv)
             else dict_set c (fst kv) (snd kv))
    pending committed.

Definition internal_commitPendingData (s : sref) (w : World) : World :=
  let st := store_at s w in
  let w1 := write_dict (_committedStoreData st)
              (replay (default [] (_pendingCommitDataChanges st))
                      (read_dict (_committedStoreData st) w)) w in
  update_store s discard_pending w1.

Definition internal_rollbackPendingData (s : sref) (w : World) : World :=
  update_store s discard_pending w.

Definition _commitTransaction (t : tref) (w : World) : World :=
  fold_left (λ w s, internal_commitPendingData s w) (dict_values (tx_stores (trans_at t w))) w.

(** The callback given to [setTimeout] by the constructor. *)
Definition timer_callback (t : tref) (w : World) : World :=
  let w1 := update_trans t (with_openTimer None) w in
  let w2 := _commitTransaction t w1 in
  notify (transactionComplete (_transToken (trans_at t w2))) w2.

Definition timer_pending (h : timer) (w : World) : option tref :=
  snd <$> find (λ ht, Pos.eqb (fst ht) h) (timers w).

Definition clearTimeout (h : option timer) (w : World) : World :=
  match h with
  | Some h => set_timers (List.filter (λ ht, negb (Pos.eqb (fst ht) h))) w
  | None => w
  end.

(** The event loop runs the callback of a pending timer. *)
Definition tick (h : timer) (w : World) : World :=
  match timer_pending h w with
  | Some t => timer_callback t (clearTimeout (Some h) w)
  | None => w
  end.

Definition abort (t : tref) (w : World) : World :=
  let w1 := fold_left (λ w s, internal_rollbackPendingData s w)
                      (dict_values (tx_stores (trans_at t w))) w in
  let w2 := update_trans t (with_stores []) w1 in
  let w3 := clearTimeout (_openTimer (trans_at t w2)) w2 in
  notify (transactionFailed (_transToken (trans_at t w3)) "InMemoryTransaction Aborted") w3.

(** [new InMemoryStore(trans, storeInfo)] *)
Definition new_InMemoryStore (t : tref) (storeInfo : StoreData) (w : World) : sref * World :=
  (length (storeObjs w),
   set_storeObjs (λ ss, ss ++ [{| st_trans := t; _pendingCommitDataChanges := None;
                                   _committedStoreData := data storeInfo;
                                   _mergedData := data storeInfo;
                                   _storeSchema := schema storeInfo |}]) w).

(** [getStore]; the store names of the token are an array, which
    [arrayify] leaves as it is. *)
Definition getStore (t : tref) (storeName : string) (w : World) : attempt sref * World :=
  let tx := trans_at t w in
  if negb (bool_decide (storeName ∈ storeNames (_transToken tx))) then
    (Threw (Error ("Store not found in transaction-scoped store list: " +:+ storeName)), w)
  else
    match dict_get (tx_stores tx) storeName with
    | Some ims => (Returned ims, w)
    | None =>
        match internal_getStore storeName w with
        | None => (Threw (Error ("Store not found: " +:+ storeName)), w)
        | Some store =>
            let '(ims, w1) := new_InMemoryStore t store w in
            (Returned ims, update_trans t (λ tx, with_stores (dict_set (tx_stores tx) storeName ims) tx) w1)
        end
    end.

(** ** InMemoryStore *)

Section Operations.
Context `{Collaborators}.

Definition _checkDataClone (s : sref) (w : World) : World :=
  let st := store_at s w in
  match _pendingCommitDataChanges st with
  | Some _ => w
  | None =>
      let '(l, w1) := alloc_dict (assign [] (read_dict (_committedStoreData st) w)) w in
      update_store s (λ st, with_merged l (with_pending (Some []) st)) w1
  end.

Definition store_isOpen (s : sref) (w : World) : bool :=
  internal_isOpen (st_trans (store_at s w)) w.

Definition get (s : sref) (key : value) (w : World) : Promise value :=
  if negb (store_isOpen s w) then Rejected TransactionClosed
  else
    let st := store_at s w in
    match serializeKeyToString key (primaryKeyPath (_storeSchema st)) with
    | Threw err => Rejected (RejError err)
    | Returned joinedKey => Resolved (dict_index (read_dict (_mergedData st) w) joinedKey)
    end.

Definition getMultiple (s : sref) (keyOrKeys : value) (w : World) : Promise (list value) :=
  if negb (store_isOpen s w) then Rejected TransactionClosed
  else
    let st := store_at s w in
    match formListOfSerializedKeys keyOrKeys (primaryKeyPath (_storeSchema st)) with
    | Threw err => Rejected (RejError err)
    | Returned joinedKeys =>
        Resolved (compact (map (dict_index (read_dict (_mergedData st) w)) joinedKeys))
    end.

(** [this._pendingCommitDataChanges[pk] = item; this._mergedData[pk] = item;]
    (the pending object exists: [_checkDataClone] ran before). *)
Definition set_row (s : sref) (pk : string) (item : value) (w : World) : World :=
  let w1 := update_store s
              (λ st, with_pending ((λ p, dict_set p pk item) <$> _pendingCommitDataChanges st) st) w in
  let m := _mergedData (store_at s w1) in
  write_dict m (dict_set (read_dict m w1) pk item) w1.

(** The loop of [put]; a throw leaves the items before it written. *)
Fixpoint put_each (s : sref) (items : list value) (w : World) : option error * World :=
  match items with
  | [] => (None, w)
  | item :: rest =>
      match getSerializedKeyForKeypath item (primaryKeyPath (_storeSchema (store_at s w))) with
      | Threw err => (Some err, w)
      | Returned pk => put_each s rest (set_row s pk item w)
      end
  end.

Definition put (s : sref) (itemOrItems : value) (w : World) : Promise unit * World :=
  if negb (store_isOpen s w) then (Rejected TransactionClosed, w)
  else
    let w1 := _checkDataClone s w in
    match put_each s (arrayify itemOrItems) w1 with
    | (Some err, w2) => (Rejected (RejError err), w2)
    | (None, w2) => (Resolved (), w2)
    end.

(** [this._pendingCommitDataChanges[key] = undefined; delete this._mergedData[key];] *)
Definition delete_row (s : sref) (key : string) (w : World) : World :=
  let w1 := update_store s
              (λ st, with_pending ((λ p, dict_set p key VUndefined) <$> _pendingCommitDataChanges st) st) w in
  let m := _mergedData (store_at s w1) in
  write_dict m (dict_delete (read_dict m w1) key) w1.

Definition remove (s : sref) (keyOrKeys : value) (w : World) : Promise unit * World :=
  if negb (store_isOpen s w) then (Rejected TransactionClosed, w)
  else
    let w1 := _checkDataClone s w in
    match formListOfSerializedKeys keyOrKeys (primaryKeyPath (_storeSchema (store_at s w1))) with
    | Threw err => (Rejected (RejError err), w1)
    | Returned joinedKeys =>
        (Resolved (), fold_left (λ w key, delete_row s key w) joinedKeys w1)
    end.

Definition clearAllData (s : sref) (w : World) : Promise unit * World :=
  if negb (store_isOpen s w) then (Rejected TransactionClosed, w)
  else
    let w1 := _checkDataClone s w in
    let merged := read_dict (_mergedData (store_at s w1)) w1 in
    let w2 := update_store s
                (λ st, with_pending
                         ((λ p, fold_left (λ p key, dict_set p key VUndefined) (dict_keys merged) p)
                            <$> _pendingCommitDataChanges st) st) w1 in
    let '(l, w3) := alloc_dict [] w2 in
    (Resolved (), update_store s (with_merged l) w3).

(** ** InMemoryIndex *)

(** Modelled from the spec: the constructor of the superclass
    [DbIndexFTSFromRangeQueries], which is not part of the source file, sets
    [_keyPath]: the index definition's key path, and the primary key path
    for the primary-key view, which has no index definition. *)
Definition new_InMemoryIndex (t : tref) (mergedData : loc) (indexSchema : option IndexSchema)
    (pkPath : keypath) : InMemoryIndex :=
  {| ix_trans := t; ix_mergedData := mergedData; _indexSchema := indexSchema;
     _keyPath := match indexSchema with Some i => keyPath i | None => pkPath end |}.

Definition openPrimaryKey (s : sref) (w : World) : InMemoryIndex * World :=
  let w1 := _checkDataClone s w in
  let st := store_at s w1 in
  (new_InMemoryIndex (st_trans st) (_mergedData st) None (primaryKeyPath (_storeSchema st)), w1).

Definition openIndex (s : sref) (indexName : string) (w : World) : option InMemoryIndex * World :=
  match find (λ idx, String.eqb (index_name idx) indexName) (indexes (_storeSchema (store_at s w))) with
  | None => (None, w)
  | Some indexSchema =>
      let w1 := _checkDataClone s w in
      let st := store_at s w1 in
      (Some (new_InMemoryIndex (st_trans st) (_mergedData st) (Some indexSchema)
               (primaryKeyPath (_storeSchema st))), w1)
  end.

(** The index keys one row contributes. *)
Definition keys_of_item (indexSchema : IndexSchema) (kp : keypath) (item : value) : attempt (list string) :=
  if fullText indexSchema then
    words ← getFullTextIndexWordsForItem kp item ;;;
    amap (λ val, serializeKeyToString (VStr val) kp) words
  else if multiEntry indexSchema then
    valsRaw ← getValueForSingleKeypath item kp ;;;
    if truthy valsRaw then amap (λ val, serializeKeyToString val kp) (arrayify valsRaw)
    else Returned []
  else
    key ← getSerializedKeyForKeypath item kp ;;; Returned [key].

(** [if (!data[key]) data[key] = [item]; else data[key].push(item);] *)
Definition add_to_bucket (item : value) (data : Dictionary value) (key : string) : Dictionary value :=
  match dict_index data key with
  | VArr items => dict_set data key (VArr (items ++ [item]))
  | _ => dict_set data key (VArr [item])
  end.

Fixpoint pivot (indexSchema : IndexSchema) (kp : keypath) (items : list value)
    (data : Dictionary value) : attempt (Dictionary value) :=
  match items with
  | [] => Returned data
  | item :: rest =>
      keys ← keys_of_item indexSchema kp item ;;;
      pivot indexSchema kp rest (fold_left (add_to_bucket item) keys data)
  end.

Definition _calcChunkedData (ix : InMemoryIndex) (w : World) : attempt (Dictionary value) :=
  match _indexSchema ix with
  | None => Returned (read_dict (ix_mergedData ix) w)
  | Some indexSchema =>
      pivot indexSchema (_keyPath ix) (dict_values (read_dict (ix_mergedData ix) w)) []
  end.

Definition _returnResultsFromKeys (data : Dictionary value) (sortedKeys : list string)
    (reverse : option bool) (limit offset : option Z) : Promise (list value) :=
  let sortedKeys := if flag reverse then rev sortedKeys else sortedKeys in
  let sortedKeys :=
    match offset with
    | Some o => if o =? 0 then sortedKeys else slice sortedKeys o None
    | None => sortedKeys
    end in
  let sortedKeys :=
    match limit with
    | Some n => if n =? 0 then sortedKeys else slice sortedKeys 0 (Some n)
    | None => sortedKeys
    end in
  Resolved (flatten (map (dict_index data) sortedKeys)).

(** The filter of [_getKeysForRange]; [<] and [===] are on strings. *)
Definition in_range (keyLow keyHigh : string) (lowRangeExclusive highRangeExclusive : option bool)
    (key : string) : bool :=
  (String.ltb keyLow key || (String.eqb key keyLow && negb (flag lowRangeExclusive)))
  && (String.ltb key keyHigh || (String.eqb key keyHigh && negb (flag highRangeExclusive))).

Definition _getKeysForRange (ix : InMemoryIndex) (data : Dictionary value)
    (keyLowRange keyHighRange : value) (lowRangeExclusive highRangeExclusive : option bool)
    : attempt (list string) :=
  keyLow ← serializeKeyToString keyLowRange (_keyPath ix) ;;;
  keyHigh ← serializeKeyToString keyHighRange (_keyPath ix) ;;;
  Returned (List.filter (in_range keyLow keyHigh lowRangeExclusive highRangeExclusive) (dict_keys data)).

Definition getAll (ix : InMemoryIndex) (reverse : option bool) (limit offset : option Z)
    (w : World) : Promise (list value) :=
  if negb (internal_isOpen (ix_trans ix) w) then Rejected TransactionClosed
  else
    match _calcChunkedData ix w with
    | Threw err => Rejected (RejError err)
    | Returned data => _returnResultsFromKeys data (sort (dict_keys data)) reverse limit offset
    end.

Definition getRange (ix : InMemoryIndex) (keyLowRange keyHighRange : value)
    (lowRangeExclusive highRangeExclusive reverse : option bool) (limit offset : option Z)
    (w : World) : Promise (list value) :=
  if negb (internal_isOpen (ix_trans ix) w) then Rejected TransactionClosed
  else
    match (data ← _calcChunkedData ix w ;;;
           keys ← _getKeysForRange ix data keyLowRange keyHighRange
                    lowRangeExclusive highRangeExclusive ;;;
           Returned (data, sort keys)) with
    | Threw err => Rejected (RejError err)
    | Returned (data, sortedKeys) => _returnResultsFromKeys data sortedKeys reverse limit offset
    end.

Definition getOnly (ix : InMemoryIndex) (key : value) (reverse : option bool)
    (limit offset : option Z) (w : World) : Promise (list value) :=
  getRange ix key key (Some false) (Some false) reverse limit offset w.

Definition countAll (ix : InMemoryIndex) (w : World) : Promise Z :=
  if negb (internal_isOpen (ix_trans ix) w) then Rejected TransactionClosed
  else
    match _calcChunkedData ix w with
    | Threw err => Rejected (RejError err)
    | Returned data => Resolved (Z.of_nat (length (dict_keys data)))
    end.

Definition countRange (ix : InMemoryIndex) (keyLowRange keyHighRange : value)
    (lowRangeExclusive highRangeExclusive : option bool) (w : World) : Promise Z :=
  if negb (internal_isOpen (ix_trans ix) w) then Rejected TransactionClosed
  else
    match (data ← _calcChunkedData ix w ;;;
           _getKeysForRange ix data keyLowRange keyHighRange
             lowRangeExclusive highRangeExclusive) with
    | Threw err => Rejected (RejError err)
    | Returned keys => Resolved (Z.of_nat (length keys))
    end.

Definition countOnly (ix : InMemoryIndex) (key : value) (w : World) : Promise Z :=
  countRange ix key key (Some false) (Some false) w.

End Operations.

(** ** Calls and events

    The calls a client can make on a store handle, and the events of the
    whole system: clients opening transactions, asking for stores, aborting
    and calling stores, and the event loop running a scheduled commit. *)

Inductive StoreCall :=
| CallGet (key : value)
| CallGetMultiple (keyOrKeys : value)
| CallPut (itemOrItems : value)
| CallRemove (keyOrKeys : value)
| CallClearAllData
| CallOpenPrimaryKey
| CallOpenIndex (indexName : string).

Inductive action :=
| ActOpenTransaction (names : list string) (writeNeeded : bool)
| ActGetStore (t : tref) (storeName : string)
| ActAbort (t : tref)
| ActTick (h : timer)
| ActStore (s : sref) (c : StoreCall).

Section Runs.
Context `{Collaborators}.

(** The world after a call on a store (reads leave it as it is). *)
Definition call (s : sref) (c : StoreCall) (w : World) : World :=
  match c with
  | CallGet _ | CallGetMultiple _ => w
  | CallPut itemOrItems => snd (put s itemOrItems w)
  | CallRemove keyOrKeys => snd (remove s keyOrKeys w)
  | CallClearAllData => snd (clearAllData s w)
  | CallOpenPrimaryKey => snd (openPrimaryKey s w)
  | CallOpenIndex indexName => snd (openIndex s indexName w)
  end.

Definition calls (cs : list (sref * StoreCall)) (w : World) : World :=
  fold_left (λ w sc, call (fst sc) (snd sc) w) cs w.

Definition step (a : action) (w : World) : World :=
  match a with
  | ActOpenTransaction names writeNeeded => snd (openTransaction names writeNeeded w)
  | ActGetStore t storeName => snd (getStore t storeName w)
  | ActAbort t => abort t w
  | ActTick h => tick h w
  | ActStore s c => call s c w
  end.

Definition run (acts : list action) (w : World) : World :=
  fold_left (λ w a, step a w) acts w.

End Runs.

(** A client can only call a store handle it was given. *)
Definition action_valid (a : action) (w : World) : Prop :=
  match a with
  | ActStore s _ => (s < length (storeObjs w))%nat
  | _ => True
  end.

(** The worlds the system can be in. *)
Inductive reachable `{Collaborators} : World → Prop :=
| reach_open dbSchema : reachable (open dbSchema)
| reach_step w a : reachable w → action_valid a w → reachable (step a w).

(** A run of events, each one valid when its turn comes. *)
Fixpoint valid_run `{Collaborators} (acts : list action) (w : World) : Prop :=
  match acts with
  | [] => True
  | a :: acts => action_valid a w ∧ valid_run acts (step a w)
  end.

(** No scheduled commit runs among the events. *)
Definition no_commit (acts : list action) : Prop := ∀ h, ActTick h ∉ acts.

(** ** Well-formed worlds

    The shape every world reached from [open] has: dictionaries have no
    duplicate property, every store of the provider has a [data] object of
    its own, an unforked store handle reads the provider's object itself and
    a forked one an object nobody else refers to, and a transaction's table
    holds handles on the provider's stores of those names. *)

Definition committed_loc (w : World) (l : loc) : Prop :=
  ∃ n sd, dict_get (prov_stores w) n = Some sd ∧ data sd = l.

Definition store_ok (w : World) (s : sref) : Prop :=
  let st := store_at s w in
  committed_loc w (_committedStoreData st) ∧
  match _pendingCommitDataChanges st with
  | None => _mergedData st = _committedStoreData st
  | Some p =>
      NoDup (dict_keys p) ∧ (_mergedData st < length (heap w))%nat ∧
      ¬ committed_loc w (_mergedData st) ∧
      ∀ s', (s' < length (storeObjs w))%nat → s' ≠ s →
            _mergedData (store_at s' w) ≠ _mergedData st
  end.

Definition trans_ok (w : World) (t : tref) : Prop :=
  let tx := trans_at t w in
  NoDup (dict_keys (tx_stores tx)) ∧
  ∀ n s, (n, s) ∈ tx_stores tx →
    (s < length (storeObjs w))%nat ∧ st_trans (store_at s w) = t ∧
    ∃ sd, dict_get (prov_stores w) n = Some sd ∧
          _committedStoreData (store_at s w) = data sd ∧
          _storeSchema (store_at s w) = schema sd.

Record wf (w : World) : Prop := {
  wf_heap : ∀ l, (l < length (heap w))%nat → NoDup (dict_keys (read_dict l w));
  wf_prov_bound : ∀ n sd, dict_get (prov_stores w) n = Some sd → (data sd < length (heap w))%nat;
  wf_prov_inj : ∀ n1 n2 sd1 sd2,
      dict_get (prov_stores w) n1 = Some sd1 → dict_get (prov_stores w) n2 = Some sd2 →
      data sd1 = data sd2 → n1 = n2;
  wf_stores : ∀ s, (s < length (storeObjs w))%nat → store_ok w s;
  wf_transs : ∀ t, (t < length (transObjs w))%nat → trans_ok w t
}.

(** What a call on the store handle [s] leaves alone: the provider's table
    and the transactions, the data every store of the provider holds, and
    every other store handle together with the data it reads. *)
Definition isolated (s : sref) (w w' : World) : Prop :=
  prov_stores w' = prov_stores w ∧ transObjs w' = transObjs w ∧
  length (storeObjs w') = length (storeObjs w) ∧
  (∀ l, committed_loc w l → read_dict l w' = read_dict l w) ∧
  (∀ s2, (s2 < length (storeObjs w))%nat → s2 ≠ s →
     store_at s2 w' = store_at s2 w ∧
     read_dict (_mergedData (store_at s2 w)) w' = read_dict (_mergedData (store_at s2 w)) w) ∧
  st_trans (store_at s w') = st_trans (store_at s w) ∧
  _committedStoreData (store_at s w') = _committedStoreData (store_at s w) ∧
  _storeSchema (store_at s w') = _storeSchema (store_at s w).

(** A handle that has made its copy of the committed data. *)
Definition forked (s : sref) (w : World) : Prop :=
  is_Some (_pendingCommitDataChanges (store_at s w)).

(** ** The words of the specification for range queries *)

(** [k] is within the bounds: above the low bound, or on it when that bound
    is not exclusive, and likewise below the high bound.  [String.ltb] is
    the order of [<] on strings. *)
Definition within (keyLow keyHigh : string) (lowExclusive highExclusive : bool) (k : string) : Prop :=
  (String.ltb keyLow k = true ∨ (k = keyLow ∧ lowExclusive = false)) ∧
  (String.ltb k keyHigh = true ∨ (k = keyHigh ∧ highExclusive = false)).

(** The rows under an index key: its bucket. *)
Definition bucket (data : Dictionary value) (k : string) : list value :=
  flatten1 (dict_index data k).

(** Paging as the spec words it: reverse if asked, drop [offset] leading
    keys, truncate to [limit] keys. *)
Definition claimed_page (keys : list string) (reverse : bool) (limit offset : option Z) : list string :=
  let keys := if reverse then rev keys else keys in
  let keys := match offset with Some o => drop (Z.to_nat o) keys | None => keys end in
  match limit with Some n => take (Z.to_nat n) keys | None => keys end.

(** Paging with a limit of 0 read as no limit. *)
Definition page (keys : list string) (reverse : bool) (limit offset : option Z) : list string :=
  let keys := if reverse then rev keys else keys in
  let keys := match offset with Some o => drop (Z.to_nat o) keys | None => keys end in
  match limit with
  | Some n => if n =? 0 then keys else take (Z.to_nat n) keys
  | None => keys
  end.

(** What calls on the store handles [ss] leave alone. *)
Definition frame (ss : list sref) (w w' : World) : Prop :=
  prov_stores w' = prov_stores w ∧ transObjs w' = transObjs w ∧
  length (storeObjs w') = length (storeObjs w) ∧
  (∀ l, committed_loc w l → read_dict l w' = read_dict l w) ∧
  (∀ s2, (s2 < length (storeObjs w))%nat → s2 ∉ ss →
     store_at s2 w' = store_at s2 w ∧
     read_dict (_mergedData (store_at s2 w)) w' = read_dict (_mergedData (store_at s2 w)) w) ∧
  (∀ s, (s < length (storeObjs w))%nat →
     st_trans (store_at s w') = st_trans (store_at s w) ∧
     _committedStoreData (store_at s w') = _committedStoreData (store_at s w) ∧
     _storeSchema (store_at s w') = _storeSchema (store_at s w)).

(** The failures of [getStore]. *)
Definition NotFound (e : error) : Prop :=
  ∃ storeName,
    e = Error ("Store not found in transaction-scoped store list: " +:+ storeName) ∨
    e = Error ("Store not found: " +:+ storeName).

(** What of a transaction [getStore] looks at. *)
Definition holds (t : tref) (name : string) (s : sref) (w : World) : Prop :=
  (t < length (transObjs w))%nat ∧
  name ∈ storeNames (_transToken (trans_at t w)) ∧
  dict_get (tx_stores (trans_at t w)) name = Some s.

(** ** The words of the specification for the derived mapping *)

(** The rows that contribute the index key [k], in the order the store
    enumerates them; a row that lists the key more than once counts as
    often. *)
Definition rows_under `{Collaborators} (indexSchema : IndexSchema) (kp : keypath) (k : string)
    (items : list value) : list value :=
  flat_map (λ item, match keys_of_item indexSchema kp item with
                    | Returned keys => replicate (length (List.filter (String.eqb k) keys)) item
                    | Threw _ => []
                    end) items.

(** The property of the derived mapping for an index key with these rows:
    their array, and no property when there is no row. *)
Definition bucket_entry (rows : list value) : option value :=
  match rows with [] => None | _ => Some (VArr rows) end.

(** ** Scheduled commits *)

(** Every pending timer is the one the transaction it commits still holds
    in [_openTimer], and its handle is one [setTimeout] has given out. *)
Definition timers_ok (w : World) : Prop :=
  ∀ h t, (h, t) ∈ timers w →
    (t < length (transObjs w))%nat ∧ _openTimer (trans_at t w) = Some h ∧
    (h < nextTimer w)%positive.

(** No pending timer commits the transaction [t]. *)
Definition unscheduled (t : tref) (w : World) : Prop :=
  ∀ h, timer_pending h w ≠ Some t.

(** ** Calls that only read *)

(** [get], [getMultiple] and the opening of an index write no row. *)
Definition reads_only (c : StoreCall) : bool :=
  match c with
  | CallGet _ | CallGetMultiple _ | CallOpenPrimaryKey | CallOpenIndex _ => true
  | CallPut _ | CallRemove _ | CallClearAllData => false
  end.

(** ** Sample instances *)

(** A small key codec and tokenizer to run the model on: keys are strings
    and serialize to themselves, a key path names a field of the row. *)

Definition sample_field (item : value) (path : string) : value :=
  match item with
  | VObj fields => default VNull (dict_get fields path)
  | _ => VNull
  end.

Definition sample_serialize (v : value) : attempt string :=
  match v with
  | VStr s => Returned s
  | _ => Threw (Error "unsupported key")
  end.

Definition sample_value (item : value) (kp : keypath) : attempt value :=
  match kp with
  | KeyPath path => Returned (sample_field item path)
  | CompoundKeyPath _ => Threw (Error "compound key path")
  end.

Definition sample_utils : Collaborators := {|
  serializeKeyToString v _ := sample_serialize v;
  getSerializedKeyForKeypath item kp := v ← sample_value item kp ;;; sample_serialize v;
  formListOfSerializedKeys keys _ := amap sample_serialize (arrayify keys);
  getValueForSingleKeypath := sample_value;
  getFullTextIndexWordsForItem kp item :=
    v ← sample_value item kp ;;;
    Returned (match v with VStr s => String.words s | _ => [] end)
|}.

Definition sample_schema : DbSchema :=
  {| stores :=
       [ {| store_name := "people"; primaryKeyPath := KeyPath "id";
            indexes := [ {| index_name := "tags"; keyPath := KeyPath "tags";
                            unique := false; multiEntry := true; fullText := false |} ] |} ] |}.

Definition person (id : string) (tags : list string) : value :=
  VObj [("id", VStr id); ("tags", VArr (map VStr tags))].

(** An open database, a transaction on it and its handle on the store. *)
Definition world0 : World := open sample_schema.
Definition world1 : World := (openTransaction ["people"] true world0).2.
Definition world2 : World := (getStore 0%nat "people" world1).2.

(** The rows of "a", "b" and "c" put by the transaction. *)
Definition world_abc : World :=
  (put (H := sample_utils) 0%nat (VArr [person "a" ["x"; "y"]; person "b" []; person "c" ["y"]]) world2).2.

(** The primary-key view and the multi-entry index of the store. *)
Definition index_pk : InMemoryIndex := (openPrimaryKey 0%nat world_abc).1.
Definition index_tags : InMemoryIndex :=
  default index_pk (openIndex 0%nat "tags" world_abc).1.

(** One row only, with the tags "x" and "y". *)
Definition world_xy : World :=
  (put (H := sample_utils) 0%nat (person "a" ["x"; "y"]) world2).2.

(** Calls of the transaction on its handle. *)
Definition sample_calls : list (sref * StoreCall) :=
  [(0%nat, CallPut (person "d" ["z"])); (0%nat, CallRemove (VStr "a")); (0%nat, CallClearAllData)].

(** Events of the first transaction and of a second one. *)
Definition sample_acts : list action :=
  [ActGetStore 0%nat "people"; ActStore 0%nat (CallPut (person "d" ["z"]));
   ActStore 0%nat (CallRemove (VStr "a")); ActOpenTransaction ["people"] false;
   ActGetStore 1%nat "people"; ActStore 0%nat CallClearAllData].

(** A store whose row under "zero" is the number 0. *)
Definition world_falsy : World :=
  write_dict 0%nat [("zero", VNum 0); ("one", VNum 1)] world2.


(** The first transaction committed, and then a second transaction with its
    handle on the store, which has made no change. *)
Definition world_committed : World := tick 1%positive world_abc.
Definition world_second : World :=
  (getStore 1%nat "people" (openTransaction ["people"] false world_committed).2).2.

(** Two open transactions with a handle each on the store: the first has
    put "a", "b" and "c"; the second has made no change, or has put "c". *)
Definition world_two : World :=
  (getStore 1%nat "people" (openTransaction ["people"] true world_abc).2).2.
Definition world_two_puts : World :=
  (put (H := sample_utils) 1%nat (person "c" ["z"]) world_two).2.

(** A row with a tag that is not a string, which the codec rejects, and a
    row without tags. *)
Definition row_bad_tag : value := VObj [("id", VStr "bad"); ("tags", VArr [VNum 1])].
Definition world_bad_tag : World := (put (H := sample_utils) 0%nat row_bad_tag world_abc).2.
Definition row_no_tags : value := VObj [("id", VStr "n")].
Definition world_no_tags : World := (put (H := sample_utils) 0%nat row_no_tags world_abc).2.

(** A store with an ordinary index on the field "name", and three rows. *)
Definition index_schema_name : IndexSchema :=
  {| index_name := "name"; keyPath := KeyPath "name";
     unique := false; multiEntry := false; fullText := false |}.
Definition sample_schema_names : DbSchema :=
  {| stores := [ {| store_name := "people"; primaryKeyPath := KeyPath "id";
                    indexes := [index_schema_name] |} ] |}.
Definition named (id name : string) : value := VObj [("id", VStr id); ("name", VStr name)].
Definition world_names : World :=
  (put (H := sample_utils) 0%nat (VArr [named "1" "bob"; named "2" "al"; named "3" "bob"])
     (getStore 0%nat "people"
        (openTransaction ["people"] true (open sample_schema_names)).2).2).2.
Definition index_by_name : InMemoryIndex :=
  default index_pk (openIndex 0%nat "name" world_names).1.

(** Events of the first transaction, its abort among them. *)
Definition sample_acts_abort : list action :=
  [ActGetStore 0%nat "people"; ActStore 0%nat (CallPut (person "a" ["x"]));
   ActAbort 0%nat; ActStore 0%nat (CallPut (person "b" []))].

(** Events after the first transaction has ended. *)
Definition sample_acts_after : list action :=
  [ActStore 0%nat (CallPut (person "d" [])); ActTick 1%positive; ActGetStore 0%nat "people"].

(** Calls of the second transaction that only read. *)
Definition sample_reads : list (sref * StoreCall) :=
  [(1%nat, CallGet (VStr "a")); (1%nat, CallOpenPrimaryKey); (1%nat, CallOpenIndex "tags");
   (1%nat, CallGetMultiple (VStr "b"))].

(** * Properties *)

(** ** Dictionaries *)

Section DictionaryFacts.
Context {A : Type}.
Implicit Types (d : Dictionary A) (k : string) (v : A).

Lemma dict_get_set d k v k' :
  dict_get (dict_set d k v) k' = if String.eqb k k' then Some v else dict_get d k'.
Proof.
  induction d as [|[k0 v0] d IH]; simpl.
  - done.
  - destruct (String.eqb_spec k0 k) as [->|Hne]; simpl.
    + destruct (String.eqb_spec k k'); done.
    + rewrite IH. destruct (String.eqb_spec k0 k') as [->|]; [|done].
      destruct (String.eqb_spec k k'); congruence.
Qed.

Lemma dict_get_set_eq d k v : dict_get (dict_set d k v) k = Some v.
Proof. by rewrite dict_get_set, String.eqb_refl. Qed.

Lemma dict_get_set_ne d k v k' : k ≠ k' → dict_get (dict_set d k v) k' = dict_get d k'.
Proof. intros Hne. rewrite dict_get_set. by destruct (String.eqb_spec k k'). Qed.

Lemma dict_get_delete d k k' :
  dict_get (dict_delete d k) k' = if String.eqb k k' then None else dict_get d k'.
Proof.
  induction d as [|[k0 v0] d IH]; simpl.
  - by destruct (String.eqb k k').
  - destruct (String.eqb_spec k0 k) as [->|Hne]; simpl.
    + rewrite IH. destruct (String.eqb_spec k k'); done.
    + rewrite IH. destruct (String.eqb_spec k0 k') as [->|]; [|done].
      destruct (String.eqb_spec k k'); congruence.
Qed.

Lemma dict_get_None d k : dict_get d k = None ↔ k ∉ dict_keys d.
Proof.
  induction d as [|[k0 v0] d IH]; simpl.
  - split; [intros _; apply not_elem_of_nil | done].
  - rewrite not_elem_of_cons. destruct (String.eqb_spec k0 k) as [->|Hne].
    + split; [done | intros [? _]; done].
    + rewrite IH. intuition congruence.
Qed.

Lemma dict_get_Some_elem d k v : dict_get d k = Some v → (k, v) ∈ d.
Proof.
  induction d as [|[k0 v0] d IH]; simpl; [done|].
  destruct (String.eqb_spec k0 k) as [->|Hne].
  - intros [= ->]. apply elem_of_cons; auto.
  - intros. apply elem_of_cons; auto.
Qed.

Lemma dict_elem_keys d k v : (k, v) ∈ d → k ∈ dict_keys d.
Proof. intros Hin. unfold dict_keys. apply (list_elem_of_fmap_2 fst) in Hin. done. Qed.

Lemma dict_elem_get d k v : NoDup (dict_keys d) → (k, v) ∈ d → dict_get d k = Some v.
Proof.
  induction d as [|[k0 v0] d IH]; simpl.
  - intros _ Hin. by apply elem_of_nil in Hin.
  - intros [Hk0 Hnd]%NoDup_cons [Heq|Hin]%elem_of_cons.
    + injection Heq as ??; subst. by rewrite String.eqb_refl.
    + destruct (String.eqb_spec k0 k) as [->|Hne]; [|auto].
      exfalso. apply Hk0. by eapply dict_elem_keys.
Qed.

Lemma dict_keys_set d k v :
  dict_keys (dict_set d k v) = if decide (k ∈ dict_keys d) then dict_keys d else dict_keys d ++ [k].
Proof.
  induction d as [|[k0 v0] d IH].
  - destruct (decide (k ∈ dict_keys [])) as [Hin|_]; [by apply elem_of_nil in Hin | done].
  - cbn [dict_set]. destruct (String.eqb_spec k0 k) as [->|Hne].
    + destruct (decide (k ∈ dict_keys ((k, v0) :: d))) as [_|Hn]; [done|].
      exfalso. apply Hn. apply elem_of_cons; auto.
    + change (dict_keys ((k0, v0) :: dict_set d k v)) with (k0 :: dict_keys (dict_set d k v)).
      change (dict_keys ((k0, v0) :: d)) with (k0 :: dict_keys d).
      rewrite IH.
      destruct (decide (k ∈ dict_keys d)) as [Hin|Hnin],
               (decide (k ∈ k0 :: dict_keys d)) as [Hin'|Hnin']; try done.
      * exfalso. apply Hnin'. apply elem_of_cons; auto.
      * exfalso. apply elem_of_cons in Hin' as [?|?]; congruence.
Qed.

Lemma dict_keys_set_elem d k v k' : k' ∈ dict_keys (dict_set d k v) ↔ k' = k ∨ k' ∈ dict_keys d.
Proof.
  rewrite dict_keys_set. destruct (decide (k ∈ dict_keys d)).
  - intuition congruence.
  - rewrite elem_of_app, list_elem_of_singleton. tauto.
Qed.

Lemma dict_keys_delete d k : dict_keys (dict_delete d k) = List.filter (λ k', negb (String.eqb k' k)) (dict_keys d).
Proof.
  induction d as [|[k0 v0] d IH]; simpl; [done|].
  destruct (String.eqb k0 k); simpl; by rewrite IH.
Qed.

Lemma NoDup_dict_set d k v : NoDup (dict_keys d) → NoDup (dict_keys (dict_set d k v)).
Proof.
  intros Hnd. rewrite dict_keys_set. destruct (decide (k ∈ dict_keys d)); [done|].
  apply NoDup_app. split_and!; [done| |apply NoDup_singleton].
  intros x Hx ->%list_elem_of_singleton. done.
Qed.

Lemma NoDup_dict_delete d k : NoDup (dict_keys d) → NoDup (dict_keys (dict_delete d k)).
Proof.
  intros Hnd. rewrite dict_keys_delete. apply NoDup_ListNoDup, List.NoDup_filter.
  by apply NoDup_ListNoDup.
Qed.

Lemma dict_set_fresh d k v : k ∉ dict_keys d → dict_set d k v = d ++ [(k, v)].
Proof.
  induction d as [|[k0 v0] d IH]; simpl; [done|].
  intros [Hne Hnin]%not_elem_of_cons.
  destruct (String.eqb_spec k0 k); [congruence|]. by rewrite IH.
Qed.

Lemma assign_app (t d : Dictionary A) :
  NoDup (dict_keys t ++ dict_keys d) → assign t d = t ++ d.
Proof.
  unfold assign. revert t. induction d as [|[k v] d IH]; intros t Hnd; simpl.
  - by rewrite app_nil_r.
  - simpl in Hnd. rewrite dict_set_fresh.
    + rewrite IH; [by rewrite <- app_assoc|].
      unfold dict_keys in *. rewrite map_app. simpl. by rewrite <- app_assoc.
    + apply NoDup_app in Hnd as (_ & Hdisj & _). intros Hin. eapply Hdisj; [done|].
      apply elem_of_cons; auto.
Qed.

Lemma assign_nil d : NoDup (dict_keys d) → assign [] d = d.
Proof. intros. by rewrite assign_app. Qed.

End DictionaryFacts.

Lemma NoDup_replay (p c : Dictionary value) :
  NoDup (dict_keys c) → NoDup (dict_keys (replay p c)).
Proof.
  unfold replay. revert c. induction p as [|[k v] p IH]; intros c Hc; simpl; [done|].
  apply IH. destruct (is_undefined v); auto using @NoDup_dict_set, @NoDup_dict_delete.
Qed.

(** What the committed data holds after the replay: a key with a value entry
    holds that value, a key with an [undefined] entry is gone, any other key
    is as before. *)
Lemma dict_get_replay (p c : Dictionary value) k :
  NoDup (dict_keys p) →
  dict_get (replay p c) k =
    match dict_get p k with
    | Some v => if is_undefined v then None else Some v
    | None => dict_get c k
    end.
Proof.
  unfold replay. revert c. induction p as [|[k0 v0] p IH]; intros c Hnd; [done|].
  change (NoDup (k0 :: dict_keys p)) in Hnd.
  apply NoDup_cons in Hnd as [Hk0 Hnd]. simpl. rewrite IH by done.
  destruct (String.eqb_spec k0 k) as [->|Hne].
  - apply dict_get_None in Hk0 as ->.
    destruct (is_undefined v0).
    + by rewrite dict_get_delete, String.eqb_refl.
    + by rewrite dict_get_set_eq.
  - destruct (dict_get p k); [done|].
    destruct (is_undefined v0).
    + rewrite dict_get_delete. by destruct (String.eqb_spec k0 k).
    + by rewrite dict_get_set_ne.
Qed.

(** ** Reading and writing through references *)

Section WorldFacts.
Implicit Types (w : World) (s : sref) (t : tref) (l : loc).

Lemma read_dict_write_eq l d w :
  (l < length (heap w))%nat → read_dict l (write_dict l d w) = d.
Proof. intros. unfold read_dict, write_dict; simpl. by apply list_lookup_total_insert_eq. Qed.

Lemma read_dict_write_ne l l' d w : l ≠ l' → read_dict l' (write_dict l d w) = read_dict l' w.
Proof. intros. unfold read_dict, write_dict; simpl. by apply list_lookup_total_insert_ne. Qed.

Lemma read_dict_alloc_old l d w :
  (l < length (heap w))%nat → read_dict l (alloc_dict d w).2 = read_dict l w.
Proof. intros. unfold read_dict; simpl. by apply lookup_total_app_l. Qed.

Lemma read_dict_alloc_new d w : read_dict (length (heap w)) (alloc_dict d w).2 = d.
Proof.
  unfold read_dict; simpl. rewrite lookup_total_app_r by lia.
  by rewrite Nat.sub_diag.
Qed.

Lemma store_at_update_eq s f w :
  (s < length (storeObjs w))%nat → store_at s (update_store s f w) = f (store_at s w).
Proof. intros. unfold store_at, update_store; simpl. by apply list_lookup_total_insert_eq. Qed.

Lemma store_at_update_ne s s' f w : s ≠ s' → store_at s' (update_store s f w) = store_at s' w.
Proof. intros. unfold store_at, update_store; simpl. by apply list_lookup_total_insert_ne. Qed.

Lemma length_storeObjs_update s f w :
  length (storeObjs (update_store s f w)) = length (storeObjs w).
Proof. unfold update_store; simpl. apply length_insert. Qed.

Lemma trans_at_update_eq t f w :
  (t < length (transObjs w))%nat → trans_at t (update_trans t f w) = f (trans_at t w).
Proof. intros. unfold trans_at, update_trans; simpl. by apply list_lookup_total_insert_eq. Qed.

Lemma trans_at_update_ne t t' f w : t ≠ t' → trans_at t' (update_trans t f w) = trans_at t' w.
Proof. intros. unfold trans_at, update_trans; simpl. by apply list_lookup_total_insert_ne. Qed.

Lemma length_transObjs_update t f w :
  length (transObjs (update_trans t f w)) = length (transObjs w).
Proof. unfold update_trans; simpl. apply length_insert. Qed.

(** [store_ok] and [trans_ok] look at part of the world only. *)
Lemma store_ok_ext w w' s :
  storeObjs w' = storeObjs w → prov_stores w' = prov_stores w →
  (length (heap w) ≤ length (heap w'))%nat →
  store_ok w s → store_ok w' s.
Proof.
  unfold store_ok, store_at, committed_loc. intros -> -> Hlen [Hc Hm]. split; [done|].
  destruct (_pendingCommitDataChanges _); [|done].
  destruct Hm as (? & ? & ? & ?). split_and!; [done|lia|done|done].
Qed.

Lemma trans_ok_ext w w' t :
  transObjs w' = transObjs w → storeObjs w' = storeObjs w → prov_stores w' = prov_stores w →
  trans_ok w t → trans_ok w' t.
Proof. unfold trans_ok, trans_at, store_at. by intros -> -> ->. Qed.

Lemma wf_merged_bound w s :
  wf w → (s < length (storeObjs w))%nat → (_mergedData (store_at s w) < length (heap w))%nat.
Proof.
  intros Hwf Hs. destruct (wf_stores _ Hwf s Hs) as [(n & sd & Hn & Hd) Hm].
  destruct (_pendingCommitDataChanges _).
  - by destruct Hm as (_ & ? & _).
  - rewrite Hm, <- Hd. by eapply wf_prov_bound.
Qed.

Lemma wf_committed_bound w l : wf w → committed_loc w l → (l < length (heap w))%nat.
Proof. intros Hwf (n & sd & Hn & <-). by eapply wf_prov_bound. Qed.

(** Writing a duplicate-free dictionary anywhere keeps the world well formed. *)
Lemma wf_write_dict w l d : wf w → NoDup (dict_keys d) → wf (write_dict l d w).
Proof.
  intros Hwf Hd. split.
  - intros l' Hl'. unfold write_dict in Hl'; simpl in Hl'. rewrite length_insert in Hl'.
    destruct (decide (l = l')) as [->|Hne].
    + by rewrite read_dict_write_eq.
    + rewrite read_dict_write_ne by done. by apply wf_heap.
  - intros n sd Hn. unfold write_dict; simpl. rewrite length_insert.
    by eapply wf_prov_bound.
  - apply (wf_prov_inj _ Hwf).
  - intros s Hs. apply (store_ok_ext w); [done|done| |by apply (wf_stores _ Hwf)].
    unfold write_dict; simpl. by rewrite length_insert.
  - intros t Ht. apply (trans_ok_ext w); [done..|by apply (wf_transs _ Hwf)].
Qed.

Lemma wf_alloc_dict w d : wf w → NoDup (dict_keys d) → wf (alloc_dict d w).2.
Proof.
  intros Hwf Hd. split.
  - intros l' Hl'. simpl in Hl'. rewrite length_app in Hl'. simpl in Hl'.
    destruct (decide (l' = length (heap w))) as [->|Hne].
    + by rewrite read_dict_alloc_new.
    + rewrite read_dict_alloc_old by lia. apply wf_heap; [done|lia].
  - intros n sd Hn. simpl. rewrite length_app. simpl.
    pose proof (wf_prov_bound _ Hwf n sd Hn). lia.
  - apply (wf_prov_inj _ Hwf).
  - intros s Hs. apply (store_ok_ext w); [done|done| |by apply (wf_stores _ Hwf)].
    simpl. rewrite length_app. lia.
  - intros t Ht. apply (trans_ok_ext w); [done..|by apply (wf_transs _ Hwf)].
Qed.

(** Replacing a store object by one on the same committed data, whose
    merged data is the committed data (unforked) or an object no other
    handle refers to (forked). *)
Lemma wf_update_store w s f :
  wf w → (s < length (storeObjs w))%nat →
  let st := store_at s w in
  _committedStoreData (f st) = _committedStoreData st →
  st_trans (f st) = st_trans st →
  _storeSchema (f st) = _storeSchema st →
  match _pendingCommitDataChanges (f st) with
  | None => _mergedData (f st) = _committedStoreData st
  | Some p =>
      NoDup (dict_keys p) ∧ (_mergedData (f st) < length (heap w))%nat ∧
      ¬ committed_loc w (_mergedData (f st)) ∧
      ∀ s', (s' < length (storeObjs w))%nat → s' ≠ s →
            _mergedData (store_at s' w) ≠ _mergedData (f st)
  end →
  wf (update_store s f w).
Proof.
  intros Hwf Hs st Hc Ht Hsch Hnew.
  assert (Hcl : committed_loc w (_committedStoreData st)).
  { by destruct (wf_stores _ Hwf s Hs). }
  split.
  - apply (wf_heap _ Hwf).
  - apply (wf_prov_bound _ Hwf).
  - apply (wf_prov_inj _ Hwf).
  - intros s2. rewrite length_storeObjs_update. intros Hs2.
    unfold store_ok. change (prov_stores (update_store s f w)) with (prov_stores w).
    change (heap (update_store s f w)) with (heap w).
    unfold committed_loc. change (prov_stores (update_store s f w)) with (prov_stores w).
    fold (committed_loc w). rewrite length_storeObjs_update.
    destruct (decide (s = s2)) as [<-|Hne].
    + rewrite store_at_update_eq by done. fold st. rewrite Hc. split; [done|].
      destruct (_pendingCommitDataChanges (f st)) as [p|]; [|done].
      destruct Hnew as (Hp & Hb & Hncl & Hown). split_and!; [done..|].
      intros s' Hs' Hne'. rewrite store_at_update_ne by done. by apply Hown.
    + rewrite store_at_update_ne by done.
      destruct (wf_stores _ Hwf s2 Hs2) as [Hc2 Hm2]. split; [done|].
      destruct (_pendingCommitDataChanges (store_at s2 w)) as [p2|]; [|done].
      destruct Hm2 as (Hp2 & Hb2 & Hncl2 & Hown2). split_and!; [done..|].
      intros s' Hs' Hne'. destruct (decide (s = s')) as [<-|Hne''].
      * rewrite store_at_update_eq by done. fold st.
        destruct (_pendingCommitDataChanges (f st)) as [p|].
        -- destruct Hnew as (_ & _ & _ & Hown). intros Heq. by apply (Hown s2).
        -- rewrite Hnew. intros Heq. apply Hncl2. by rewrite <- Heq.
      * rewrite store_at_update_ne by done. by apply Hown2.
  - intros t. change (transObjs (update_store s f w)) with (transObjs w). intros Htl.
    destruct (wf_transs _ Hwf t Htl) as [Hnd Hall]. split; [done|].
    intros n s2 Hin. change (trans_at t (update_store s f w)) with (trans_at t w) in Hin.
    destruct (Hall n s2 Hin) as (Hb & Htr & sd & Hsd & Hcd & Hss).
    rewrite length_storeObjs_update. split; [done|].
    change (prov_stores (update_store s f w)) with (prov_stores w).
    destruct (decide (s = s2)) as [<-|Hne].
    + rewrite store_at_update_eq by done. fold st. rewrite Ht, Hc, Hsch. eauto.
    + rewrite store_at_update_ne by done. eauto.
Qed.

End WorldFacts.

(** ** Calls on a store leave the rest of the world alone *)

Section StoreFacts.
Context `{Collaborators}.
Implicit Types (w : World) (s : sref) (t : tref) (l : loc).

Lemma isolated_refl s w : isolated s w w.
Proof. unfold isolated. naive_solver. Qed.

Lemma isolated_trans s w1 w2 w3 : isolated s w1 w2 → isolated s w2 w3 → isolated s w1 w3.
Proof.
  intros (Hp1 & Ht1 & Hl1 & Hc1 & Ho1 & Hx1 & Hy1 & Hz1) (Hp2 & Ht2 & Hl2 & Hc2 & Ho2 & Hx2 & Hy2 & Hz2).
  unfold isolated. split_and!; try congruence.
  - intros l Hl. rewrite <- Hc1 by done. apply Hc2.
    unfold committed_loc in *. by rewrite Hp1.
  - intros s2 Hs2 Hne. destruct (Ho1 s2 Hs2 Hne) as [He1 Hr1].
    destruct (Ho2 s2) as [He2 Hr2]; [lia|done|].
    split; [congruence|]. rewrite <- Hr1, <- He1. done.
Qed.

(** A write to the data of a forked handle, with its pending changes. *)
Lemma inplace_ok w s p p' d' :
  wf w → (s < length (storeObjs w))%nat →
  _pendingCommitDataChanges (store_at s w) = Some p →
  NoDup (dict_keys p') → NoDup (dict_keys d') →
  let m := _mergedData (store_at s w) in
  let w' := write_dict m d' (update_store s (with_pending (Some p')) w) in
  wf w' ∧ isolated s w w' ∧
  store_at s w' = with_pending (Some p') (store_at s w) ∧ read_dict m w' = d'.
Proof.
  intros Hwf Hs Hp Hp' Hd' m w'.
  destruct (wf_stores _ Hwf s Hs) as [Hc Hm]. rewrite Hp in Hm.
  destruct Hm as (_ & Hb & Hncl & Hown). fold m in Hb, Hncl, Hown.
  assert (Hst : store_at s w' = with_pending (Some p') (store_at s w)).
  { unfold w'. change (store_at s (write_dict m d' ?x)) with (store_at s x).
    by rewrite store_at_update_eq. }
  split_and!; [| |done|].
  - apply wf_write_dict; [|done].
    apply wf_update_store; done || (simpl; split_and!; done).
  - unfold isolated. split_and!; try done.
    + unfold w'. simpl. by rewrite length_insert.
    + intros l Hl. unfold w'. rewrite read_dict_write_ne; [done|].
      intros ->. done.
    + intros s2 Hs2 Hne. split.
      * unfold w'. change (store_at s2 (write_dict m d' ?x)) with (store_at s2 x).
        by rewrite store_at_update_ne.
      * unfold w'. rewrite read_dict_write_ne; [done|].
        intros Heq. by apply (Hown s2).
    + by rewrite Hst.
    + by rewrite Hst.
    + by rewrite Hst.
  - unfold w'. by rewrite read_dict_write_eq.
Qed.

(** A handle that takes a fresh object as its merged data. *)
Lemma fork_ok w s p' d' :
  wf w → (s < length (storeObjs w))%nat →
  NoDup (dict_keys p') → NoDup (dict_keys d') →
  let m := length (heap w) in
  let w' := update_store s (λ st, with_merged m (with_pending (Some p') st)) (alloc_dict d' w).2 in
  wf w' ∧ isolated s w w' ∧
  store_at s w' = with_merged m (with_pending (Some p') (store_at s w)) ∧ read_dict m w' = d'.
Proof.
  intros Hwf Hs Hp' Hd' m w'.
  assert (Hst : store_at s w' = with_merged m (with_pending (Some p') (store_at s w))).
  { unfold w'. by rewrite store_at_update_eq. }
  split_and!; [| |done|].
  - apply wf_update_store; try done.
    + by apply wf_alloc_dict.
    + simpl. split_and!; [done| rewrite length_app; simpl; lia | |].
      * intros Hcl. apply (wf_committed_bound w) in Hcl; [|done]. unfold m in Hcl. lia.
      * intros s' Hs' Hne. change (store_at s' (set_heap ?f w)) with (store_at s' w).
        pose proof (wf_merged_bound w s' Hwf Hs'). unfold m. lia.
  - unfold isolated. split_and!; try done.
    + unfold w'. by rewrite length_storeObjs_update.
    + intros l Hl. unfold w'.
      change (read_dict l (update_store s ?f ?x)) with (read_dict l x).
      apply read_dict_alloc_old. by apply wf_committed_bound.
    + intros s2 Hs2 Hne. split.
      * unfold w'. by rewrite store_at_update_ne.
      * unfold w'.
        change (read_dict ?l (update_store s ?f ?x)) with (read_dict l x).
        apply read_dict_alloc_old. by apply wf_merged_bound.
    + by rewrite Hst.
    + by rewrite Hst.
    + by rewrite Hst.
  - unfold w'. change (read_dict ?l (update_store s ?f ?x)) with (read_dict l x).
    apply read_dict_alloc_new.
Qed.

Lemma checkDataClone_forked w s :
  forked s w → _checkDataClone s w = w.
Proof. intros [p Hp]. unfold _checkDataClone. by rewrite Hp. Qed.

Lemma checkDataClone_unforked w s :
  _pendingCommitDataChanges (store_at s w) = None →
  _checkDataClone s w =
    update_store s (λ st, with_merged (length (heap w)) (with_pending (Some []) st))
      (alloc_dict (assign [] (read_dict (_committedStoreData (store_at s w)) w)) w).2.
Proof. intros Hp. unfold _checkDataClone. by rewrite Hp. Qed.

Lemma checkDataClone_ok w s :
  wf w → (s < length (storeObjs w))%nat →
  wf (_checkDataClone s w) ∧ isolated s w (_checkDataClone s w) ∧
  forked s (_checkDataClone s w) ∧
  read_dict (_mergedData (store_at s (_checkDataClone s w))) (_checkDataClone s w)
    = read_dict (_mergedData (store_at s w)) w ∧
  _pendingCommitDataChanges (store_at s (_checkDataClone s w)) =
    Some (default [] (_pendingCommitDataChanges (store_at s w))).
Proof.
  intros Hwf Hs.
  destruct (_pendingCommitDataChanges (store_at s w)) as [p|] eqn:Hp.
  - rewrite checkDataClone_forked by (by exists p).
    rewrite Hp. split_and!; eauto using isolated_refl. by exists p.
  - rewrite checkDataClone_unforked by done.
    destruct (wf_stores _ Hwf s Hs) as [Hc Hm]. rewrite Hp in Hm.
    assert (Hnd : NoDup (dict_keys (read_dict (_committedStoreData (store_at s w)) w))).
    { apply wf_heap; [done|]. by apply wf_committed_bound. }
    destruct (fork_ok w s [] (assign [] (read_dict (_committedStoreData (store_at s w)) w)))
      as (Hwf' & Hiso & Hst & Hrd); try done.
    { constructor. }
    { by rewrite assign_nil. }
    split_and!; try done.
    + unfold forked. rewrite Hst. simpl. eauto.
    + rewrite Hst. cbn [_mergedData with_merged with_pending].
      rewrite Hrd, assign_nil by done. by rewrite Hm.
    + by rewrite Hst.
Qed.

(** The two assignments of a loop body of [put] or [remove]: [g] on the
    pending changes and [h] on the merged data of a forked handle. *)
Lemma modify_ok w s p (g h : list (string * value) → list (string * value)) :
  wf w → (s < length (storeObjs w))%nat →
  _pendingCommitDataChanges (store_at s w) = Some p →
  NoDup (dict_keys (g p)) →
  NoDup (dict_keys (h (read_dict (_mergedData (store_at s w)) w))) →
  let w1 := update_store s (λ st, with_pending (g <$> _pendingCommitDataChanges st) st) w in
  let m := _mergedData (store_at s w1) in
  let w' := write_dict m (h (read_dict m w1)) w1 in
  wf w' ∧ isolated s w w' ∧
  store_at s w' = with_pending (Some (g p)) (store_at s w) ∧
  read_dict (_mergedData (store_at s w)) w' = h (read_dict (_mergedData (store_at s w)) w).
Proof.
  intros Hwf Hs Hp Hg Hh w1 m w'.
  assert (Hw1 : w1 = update_store s (with_pending (Some (g p))) w).
  { unfold w1, update_store. cbv beta. by rewrite Hp. }
  assert (Hm : m = _mergedData (store_at s w)).
  { unfold m. rewrite Hw1, store_at_update_eq by done. done. }
  unfold w'. rewrite Hm, Hw1.
  change (read_dict ?l (update_store s ?f w)) with (read_dict l w).
  by apply (inplace_ok w s p).
Qed.

Lemma set_row_ok w s p pk item :
  wf w → (s < length (storeObjs w))%nat →
  _pendingCommitDataChanges (store_at s w) = Some p →
  wf (set_row s pk item w) ∧ isolated s w (set_row s pk item w) ∧
  store_at s (set_row s pk item w) = with_pending (Some (dict_set p pk item)) (store_at s w) ∧
  read_dict (_mergedData (store_at s w)) (set_row s pk item w)
    = dict_set (read_dict (_mergedData (store_at s w)) w) pk item.
Proof.
  intros Hwf Hs Hp.
  destruct (wf_stores _ Hwf s Hs) as [_ Hm]. rewrite Hp in Hm. destruct Hm as (Hnd & Hb & _).
  apply (modify_ok w s p (λ p, dict_set p pk item) (λ d, dict_set d pk item)); try done.
  - by apply NoDup_dict_set.
  - apply NoDup_dict_set. by apply wf_heap.
Qed.

Lemma delete_row_ok w s p key :
  wf w → (s < length (storeObjs w))%nat →
  _pendingCommitDataChanges (store_at s w) = Some p →
  wf (delete_row s key w) ∧ isolated s w (delete_row s key w) ∧
  store_at s (delete_row s key w) = with_pending (Some (dict_set p key VUndefined)) (store_at s w) ∧
  read_dict (_mergedData (store_at s w)) (delete_row s key w)
    = dict_delete (read_dict (_mergedData (store_at s w)) w) key.
Proof.
  intros Hwf Hs Hp.
  destruct (wf_stores _ Hwf s Hs) as [_ Hm]. rewrite Hp in Hm. destruct Hm as (Hnd & Hb & _).
  apply (modify_ok w s p (λ p, dict_set p key VUndefined) (λ d, dict_delete d key)); try done.
  - by apply NoDup_dict_set.
  - apply NoDup_dict_delete. by apply wf_heap.
Qed.

Lemma isolated_length s w w' : isolated s w w' → length (storeObjs w') = length (storeObjs w).
Proof. by intros (_ & _ & ? & _). Qed.

Lemma put_each_ok s items : ∀ w,
  wf w → (s < length (storeObjs w))%nat → forked s w →
  wf (put_each s items w).2 ∧ isolated s w (put_each s items w).2 ∧
  forked s (put_each s items w).2.
Proof.
  induction items as [|item rest IH]; intros w Hwf Hs [p Hp]; simpl.
  - split_and!; [done|apply isolated_refl|by exists p].
  - destruct (getSerializedKeyForKeypath _ _) as [pk|err]; simpl.
    + destruct (set_row_ok w s p pk item) as (Hwf' & Hiso & Hst & _); try done.
      destruct (IH (set_row s pk item w)) as (? & ? & ?); try done.
      * by rewrite (isolated_length _ _ _ Hiso).
      * unfold forked. rewrite Hst. simpl. eauto.
      * split_and!; eauto using isolated_trans.
    + split_and!; [done|apply isolated_refl|by exists p].
Qed.

Lemma delete_rows_ok s keys : ∀ w,
  wf w → (s < length (storeObjs w))%nat → forked s w →
  let w' := fold_left (λ w key, delete_row s key w) keys w in
  wf w' ∧ isolated s w w' ∧ forked s w'.
Proof.
  induction keys as [|key rest IH]; intros w Hwf Hs [p Hp]; simpl.
  - split_and!; [done|apply isolated_refl|by exists p].
  - destruct (delete_row_ok w s p key) as (Hwf' & Hiso & Hst & _); try done.
    destruct (IH (delete_row s key w)) as (? & ? & ?); try done.
    + by rewrite (isolated_length _ _ _ Hiso).
    + unfold forked. rewrite Hst. simpl. eauto.
    + split_and!; eauto using isolated_trans.
Qed.

Lemma put_ok w s itemOrItems :
  wf w → (s < length (storeObjs w))%nat →
  wf (put s itemOrItems w).2 ∧ isolated s w (put s itemOrItems w).2.
Proof.
  intros Hwf Hs. unfold put. destruct (store_isOpen s w); simpl.
  - destruct (checkDataClone_ok w s Hwf Hs) as (Hwf1 & Hiso1 & Hf1 & _).
    destruct (put_each_ok s (arrayify itemOrItems) (_checkDataClone s w)) as (? & ? & _); try done.
    { by rewrite (isolated_length _ _ _ Hiso1). }
    destruct (put_each _ _ _) as [[err|] w2]; simpl in *; eauto using isolated_trans.
  - split; [done|apply isolated_refl].
Qed.

Lemma remove_ok w s keyOrKeys :
  wf w → (s < length (storeObjs w))%nat →
  wf (remove s keyOrKeys w).2 ∧ isolated s w (remove s keyOrKeys w).2.
Proof.
  intros Hwf Hs. unfold remove. destruct (store_isOpen s w); simpl.
  - destruct (checkDataClone_ok w s Hwf Hs) as (Hwf1 & Hiso1 & Hf1 & _).
    destruct (formListOfSerializedKeys _ _) as [keys|err]; simpl; [|done].
    destruct (delete_rows_ok s keys (_checkDataClone s w)) as (? & ? & _); try done.
    { by rewrite (isolated_length _ _ _ Hiso1). }
    eauto using isolated_trans.
  - split; [done|apply isolated_refl].
Qed.

Lemma NoDup_tombstones (keys : list string) : ∀ p : list (string * value),
  NoDup (dict_keys p) →
  NoDup (dict_keys (fold_left (λ p key, dict_set p key VUndefined) keys p)).
Proof.
  induction keys as [|k keys IH]; intros p Hp; simpl; [done|].
  apply IH. by apply NoDup_dict_set.
Qed.

(** [clearAllData] on an open transaction, as one step: the handle takes a
    fresh empty object, the pending changes get a tombstone per key. *)
Lemma clearAllData_eq w s p :
  (s < length (storeObjs w))%nat → store_isOpen s w = true →
  _pendingCommitDataChanges (store_at s (_checkDataClone s w)) = Some p →
  let w1 := _checkDataClone s w in
  (clearAllData s w).2 =
    update_store s
      (λ st, with_merged (length (heap w1))
               (with_pending
                  (Some (fold_left (λ p key, dict_set p key VUndefined)
                           (dict_keys (read_dict (_mergedData (store_at s w1)) w1)) p)) st))
      (alloc_dict [] w1).2.
Proof.
  intros Hs Hopen Hp w1. unfold clearAllData. rewrite Hopen. simpl. fold w1.
  unfold update_store, set_storeObjs, store_at. simpl.
  rewrite list_lookup_total_insert_eq.
  - rewrite list_insert_insert_eq. unfold store_at in Hp. fold w1 in Hp. by rewrite Hp.
  - fold w1 in Hp. unfold w1.
    destruct (_pendingCommitDataChanges (store_at s w)) eqn:Hpw.
    + rewrite checkDataClone_forked by (by eexists). done.
    + rewrite checkDataClone_unforked by done. simpl. by rewrite length_insert.
Qed.

Lemma clearAllData_ok w s :
  wf w → (s < length (storeObjs w))%nat →
  wf (clearAllData s w).2 ∧ isolated s w (clearAllData s w).2.
Proof.
  intros Hwf Hs. destruct (store_isOpen s w) eqn:Hopen.
  - destruct (checkDataClone_ok w s Hwf Hs) as (Hwf1 & Hiso1 & [p Hp] & _).
    rewrite (clearAllData_eq w s p) by done.
    assert (Hs1 : (s < length (storeObjs (_checkDataClone s w)))%nat).
    { by rewrite (isolated_length _ _ _ Hiso1). }
    destruct (wf_stores _ Hwf1 s Hs1) as [_ Hm]. rewrite Hp in Hm. destruct Hm as (Hnd & _).
    destruct (fork_ok (_checkDataClone s w) s
                (fold_left (λ p key, dict_set p key VUndefined)
                   (dict_keys (read_dict (_mergedData (store_at s (_checkDataClone s w)))
                                 (_checkDataClone s w))) p) [])
      as (Hwf2 & Hiso2 & _); [done|done|by apply NoDup_tombstones|constructor|].
    split; [exact Hwf2|]. eapply isolated_trans; [exact Hiso1|exact Hiso2].
  - unfold clearAllData. rewrite Hopen. simpl. split; [done|apply isolated_refl].
Qed.

Lemma call_ok w s c :
  wf w → (s < length (storeObjs w))%nat →
  wf (call s c w) ∧ isolated s w (call s c w).
Proof.
  intros Hwf Hs. destruct c; simpl.
  - split; [done|apply isolated_refl].
  - split; [done|apply isolated_refl].
  - by apply put_ok.
  - by apply remove_ok.
  - by apply clearAllData_ok.
  - by destruct (checkDataClone_ok w s Hwf Hs) as (? & ? & _).
  - unfold openIndex. destruct (find _ _); simpl.
    + by destruct (checkDataClone_ok w s Hwf Hs) as (? & ? & _).
    + split; [done|apply isolated_refl].
Qed.

End StoreFacts.

(** ** Every event keeps the world well formed *)

Section Invariant.
Context `{Collaborators}.
Implicit Types (w : World) (s : sref) (t : tref) (l : loc).

Lemma update_store_invalid s f w : (length (storeObjs w) ≤ s)%nat → update_store s f w = w.
Proof.
  intros Hs. unfold update_store, set_storeObjs. rewrite list_insert_ge by done. by destruct w.
Qed.

Lemma update_trans_invalid t f w : (length (transObjs w) ≤ t)%nat → update_trans t f w = w.
Proof.
  intros Ht. unfold update_trans, set_transObjs. rewrite list_insert_ge by done. by destruct w.
Qed.

Lemma trans_at_invalid t w : (length (transObjs w) ≤ t)%nat → trans_at t w = inhabitant.
Proof.
  intros Ht. unfold trans_at. rewrite list_lookup_total_alt.
  by rewrite lookup_ge_None_2.
Qed.

(** A world that differs in its transactions only. *)
Lemma wf_same_stores w w' :
  wf w → heap w' = heap w → prov_stores w' = prov_stores w → storeObjs w' = storeObjs w →
  (∀ t, (t < length (transObjs w'))%nat → trans_ok w' t) → wf w'.
Proof.
  intros Hwf Hh Hp Hs Ht. split; [| | | |done].
  - intros l. unfold read_dict. rewrite Hh. apply (wf_heap _ Hwf).
  - rewrite Hh, Hp. apply (wf_prov_bound _ Hwf).
  - rewrite Hp. apply (wf_prov_inj _ Hwf).
  - intros s. rewrite Hs. intros Hlt. apply (store_ok_ext w); try done.
    + by rewrite Hh.
    + by apply (wf_stores _ Hwf).
Qed.

Lemma wf_update_trans w t f :
  wf w → (∀ tx, tx_stores (f tx) = tx_stores tx ∨ tx_stores (f tx) = []) →
  wf (update_trans t f w).
Proof.
  intros Hwf Hf. apply (wf_same_stores w); try done.
  intros t'. rewrite length_transObjs_update. intros Ht'.
  destruct (decide (t = t')) as [<-|Hne].
  - unfold trans_ok. rewrite trans_at_update_eq by done.
    change (storeObjs (update_trans t f w)) with (storeObjs w).
    change (prov_stores (update_trans t f w)) with (prov_stores w).
    unfold store_at.
    change (storeObjs (update_trans t f w)) with (storeObjs w).
    destruct (Hf (trans_at t w)) as [-> | ->].
    + apply (wf_transs _ Hwf t Ht').
    + split; [constructor|]. intros n s Hin. by apply elem_of_nil in Hin.
  - unfold trans_ok. rewrite trans_at_update_ne by done.
    apply (wf_transs _ Hwf t' Ht').
Qed.

Lemma wf_notify w e : wf w → wf (notify e w).
Proof. intros Hwf. apply (wf_same_stores w); try done. apply (wf_transs _ Hwf). Qed.

Lemma wf_set_timers w f : wf w → wf (set_timers f w).
Proof. intros Hwf. apply (wf_same_stores w); try done. apply (wf_transs _ Hwf). Qed.

Lemma wf_clearTimeout w h : wf w → wf (clearTimeout h w).
Proof. destruct h; simpl; [apply wf_set_timers|done]. Qed.

Lemma wf_new_InMemoryTransaction w token : wf w → wf (new_InMemoryTransaction token w).2.
Proof.
  intros Hwf. apply (wf_same_stores w); try done.
  intros t. simpl. rewrite length_app. simpl. intros Ht.
  unfold trans_ok, trans_at, store_at. simpl.
  destruct (decide (t < length (transObjs w))%nat) as [Hlt|Hge].
  - rewrite lookup_total_app_l by done. apply (wf_transs _ Hwf t Hlt).
  - rewrite lookup_total_app_r by lia. replace (t - length (transObjs w))%nat with 0%nat by lia.
    simpl. split; [constructor|]. intros n s Hin. by apply elem_of_nil in Hin.
Qed.

Lemma wf_rollback w s : wf w → wf (internal_rollbackPendingData s w).
Proof.
  intros Hwf. unfold internal_rollbackPendingData.
  destruct (decide (s < length (storeObjs w))%nat) as [Hs|Hs].
  - by apply wf_update_store.
  - rewrite update_store_invalid by lia. done.
Qed.

Lemma wf_commitPendingData w s : wf w → wf (internal_commitPendingData s w).
Proof.
  intros Hwf. unfold internal_commitPendingData.
  set (w1 := write_dict _ _ w).
  assert (Hwf1 : wf w1).
  { apply wf_write_dict; [done|]. apply NoDup_replay.
    destruct (decide (_committedStoreData (store_at s w) < length (heap w))%nat).
    - by apply wf_heap.
    - unfold read_dict. rewrite list_lookup_total_alt, lookup_ge_None_2 by lia. constructor. }
  destruct (decide (s < length (storeObjs w1))%nat) as [Hs|Hs].
  - by apply wf_update_store.
  - rewrite update_store_invalid by lia. done.
Qed.

Lemma wf_fold_stores (f : sref → World → World) (ss : list sref) :
  (∀ s w, wf w → wf (f s w)) → ∀ w, wf w → wf (fold_left (λ w s, f s w) ss w).
Proof. intros Hf. induction ss as [|s ss IH]; intros w Hwf; simpl; auto. Qed.

Lemma wf_timer_callback w t : wf w → wf (timer_callback t w).
Proof.
  intros Hwf. unfold timer_callback. apply wf_notify. unfold _commitTransaction.
  apply wf_fold_stores; [intros; by apply wf_commitPendingData|].
  apply wf_update_trans; auto.
Qed.

Lemma wf_tick w h : wf w → wf (tick h w).
Proof.
  intros Hwf. unfold tick. destruct (timer_pending h w); [|done].
  by apply wf_timer_callback, wf_clearTimeout.
Qed.

Lemma wf_abort w t : wf w → wf (abort t w).
Proof.
  intros Hwf. unfold abort. apply wf_notify, wf_clearTimeout, wf_update_trans; [|auto].
  by apply wf_fold_stores; [intros; by apply wf_rollback|].
Qed.

Lemma dict_set_elem {A} (d : list (string * A)) k v k' v' :
  (k', v') ∈ dict_set d k v → (k', v') = (k, v) ∨ (k', v') ∈ d.
Proof.
  induction d as [|[k0 v0] d IH]; simpl.
  - intros ->%list_elem_of_singleton. auto.
  - destruct (String.eqb_spec k0 k) as [->|Hne].
    + intros [->|Hin]%elem_of_cons; [auto|]. right. apply elem_of_cons; auto.
    + intros [->|Hin]%elem_of_cons.
      * right. apply elem_of_cons; auto.
      * destruct (IH Hin); [auto|]. right. apply elem_of_cons; auto.
Qed.

(** What [getStore] does when it has to make the handle. *)
Lemma getStore_new w t storeName store :
  storeName ∈ storeNames (_transToken (trans_at t w)) →
  dict_get (tx_stores (trans_at t w)) storeName = None →
  internal_getStore storeName w = Some store →
  getStore t storeName w =
    (Returned (length (storeObjs w)),
     update_trans t (λ tx, with_stores (dict_set (tx_stores tx) storeName (length (storeObjs w))) tx)
       (new_InMemoryStore t store w).2).
Proof.
  intros Hin Hnone Hsome. unfold getStore.
  rewrite bool_decide_eq_true_2 by done. simpl. by rewrite Hnone, Hsome.
Qed.

Lemma getStore_valid w t storeName :
  storeName ∈ storeNames (_transToken (trans_at t w)) → (t < length (transObjs w))%nat.
Proof.
  intros Hin. destruct (decide (t < length (transObjs w))%nat); [done|].
  rewrite trans_at_invalid in Hin by lia. by apply elem_of_nil in Hin.
Qed.

Lemma wf_getStore w t storeName : wf w → wf (getStore t storeName w).2.
Proof.
  intros Hwf.
  destruct (decide (storeName ∈ storeNames (_transToken (trans_at t w)))) as [Hin|Hnin];
    [|unfold getStore; by rewrite bool_decide_eq_false_2].
  destruct (dict_get (tx_stores (trans_at t w)) storeName) as [ims|] eqn:Hcache.
  { unfold getStore. rewrite bool_decide_eq_true_2 by done. simpl. by rewrite Hcache. }
  destruct (internal_getStore storeName w) as [store|] eqn:Hstore;
    [|unfold getStore; rewrite bool_decide_eq_true_2 by done; simpl; by rewrite Hcache, Hstore].
  rewrite (getStore_new w t storeName store) by done.
  pose proof (getStore_valid w t storeName Hin) as Ht.
  set (snew := length (storeObjs w)).
  set (w' := update_trans t _ _).
  assert (Hheap : heap w' = heap w) by done.
  assert (Hprov : prov_stores w' = prov_stores w) by done.
  assert (Hlen : length (storeObjs w') = S snew).
  { unfold w'. simpl. rewrite length_app. simpl. unfold snew. lia. }
  assert (Hold : ∀ s, (s < snew)%nat → store_at s w' = store_at s w).
  { intros s Hs. unfold store_at, w'. simpl. by rewrite lookup_total_app_l. }
  assert (Hnew : store_at snew w'
                 = {| st_trans := t; _pendingCommitDataChanges := None;
                      _committedStoreData := data store; _mergedData := data store;
                      _storeSchema := schema store |}).
  { unfold store_at, w'. simpl. rewrite lookup_total_app_r by (unfold snew; lia).
    unfold snew. by rewrite Nat.sub_diag. }
  assert (Htlen : length (transObjs w') = length (transObjs w)).
  { unfold w'. by rewrite length_transObjs_update. }
  assert (Htx : trans_at t w' = with_stores (dict_set (tx_stores (trans_at t w)) storeName snew)
                                  (trans_at t w)).
  { unfold w'. by rewrite trans_at_update_eq. }
  assert (Htx' : ∀ t', t ≠ t' → trans_at t' w' = trans_at t' w).
  { intros t' Hne. unfold w'. by rewrite trans_at_update_ne. }
  assert (Hcl : committed_loc w (data store)) by (by exists storeName, store).
  clearbody w'. change (wf w').
  split.
  - intros l. unfold read_dict. rewrite Hheap. apply (wf_heap _ Hwf).
  - rewrite Hheap, Hprov. apply (wf_prov_bound _ Hwf).
  - rewrite Hprov. apply (wf_prov_inj _ Hwf).
  - intros s. rewrite Hlen. intros Hs. unfold store_ok.
    assert (Hcl' : ∀ l, committed_loc w' l ↔ committed_loc w l).
    { intros l. unfold committed_loc. by rewrite Hprov. }
    destruct (decide (s < snew)%nat) as [Hlt|Hge].
    + rewrite (Hold s Hlt). destruct (wf_stores _ Hwf s Hlt) as [Hc Hm].
      split; [by apply Hcl'|].
      destruct (_pendingCommitDataChanges (store_at s w)); [|done].
      destruct Hm as (? & ? & Hncl & Hown). rewrite Hheap, Hlen, Hcl'. split_and!; [done..|].
      intros s' Hs' Hne.
      destruct (decide (s' < snew)%nat) as [Hlt'|Hge'].
      * rewrite (Hold s' Hlt'). by apply Hown.
      * replace s' with snew by lia. rewrite Hnew. simpl.
        intros Heq. apply Hncl. by rewrite <- Heq.
    + replace s with snew by lia. rewrite Hnew. simpl. split; [by apply Hcl'|done].
  - intros t'. rewrite Htlen. intros Ht'. unfold trans_ok. rewrite Hprov, Hlen.
    destruct (decide (t = t')) as [<-|Hne].
    + rewrite Htx.
      destruct (wf_transs _ Hwf t Ht) as [Hnd Hall]. simpl. split; [by apply NoDup_dict_set|].
      intros n s [Heq|Hin']%dict_set_elem.
      * injection Heq as ??; subst. rewrite Hnew. simpl. split_and!; [lia|done|by exists store].
      * destruct (Hall n s Hin') as (Hs & Htr & sd & ?). rewrite (Hold s Hs).
        split_and!; [lia|done|by exists sd].
    + rewrite (Htx' t' Hne).
      destruct (wf_transs _ Hwf t' Ht') as [Hnd Hall]. split; [done|].
      intros n s Hin'. destruct (Hall n s Hin') as (Hs & Htr & sd & ?). rewrite (Hold s Hs).
      split_and!; [lia|done|by exists sd].
Qed.

Lemma wf_step a w : wf w → action_valid a w → wf (step a w).
Proof.
  intros Hwf Hv. destruct a as [names wr|t n|t|h|s c]; simpl.
  - by apply wf_new_InMemoryTransaction.
  - by apply wf_getStore.
  - by apply wf_abort.
  - by apply wf_tick.
  - by apply call_ok.
Qed.

Lemma wf_empty_world : wf empty_world.
Proof.
  split; simpl; try (intros; lia); try done.
Qed.

Lemma wf_open dbSchema : wf (open dbSchema).
Proof.
  unfold open.
  assert (Hgen : ∀ ss w, wf w → storeObjs w = [] → transObjs w = [] →
    wf (fold_left
          (λ w storeSchema,
             let '(l, w1) := alloc_dict [] w in
             set_prov_stores
               (λ p, dict_set p (store_name storeSchema) {| schema := storeSchema; data := l |}) w1)
          ss w)).
  { induction ss as [|sch ss IH]; intros w Hwf Hs Ht; simpl; [done|].
    apply IH; [|done|done].
    split.
    - intros l Hl. simpl in Hl. rewrite length_app in Hl. simpl in Hl.
      unfold read_dict. simpl.
      destruct (decide (l < length (heap w))%nat).
      + rewrite lookup_total_app_l by done. by apply (wf_heap _ Hwf).
      + rewrite lookup_total_app_r by lia. replace (l - length (heap w))%nat with 0%nat by lia.
        constructor.
    - intros n sd. simpl. rewrite length_app. simpl. rewrite dict_get_set.
      destruct (String.eqb (store_name sch) n).
      + intros [= <-]. simpl. lia.
      + intros Hn. pose proof (wf_prov_bound _ Hwf n sd Hn). lia.
    - intros n1 n2 sd1 sd2. simpl. rewrite !dict_get_set.
      destruct (String.eqb_spec (store_name sch) n1) as [<-|Hn1],
               (String.eqb_spec (store_name sch) n2) as [<-|Hn2]; try done.
      + intros [= <-] Hn2' Heq. simpl in Heq.
        pose proof (wf_prov_bound _ Hwf _ _ Hn2'). lia.
      + intros Hn1' [= <-] Heq. simpl in Heq.
        pose proof (wf_prov_bound _ Hwf _ _ Hn1'). lia.
      + apply (wf_prov_inj _ Hwf).
    - simpl. rewrite Hs. simpl. intros; lia.
    - simpl. rewrite Ht. simpl. intros; lia. }
  apply Hgen; [apply wf_empty_world|done|done].
Qed.

(** Well-formedness is an invariant of the system. *)
Lemma wf_reachable w : reachable w → wf w.
Proof. induction 1; [apply wf_open | by apply wf_step]. Qed.

End Invariant.

(** ** Index queries *)

Section IndexFacts.
Context `{Collaborators}.
Implicit Types (w : World) (ix : InMemoryIndex) (data : list (string * value)).

Lemma flatten_buckets data (ks : list string) :
  flatten (map (dict_index data) ks) = flat_map (bucket data) ks.
Proof. unfold flatten. induction ks as [|k ks IH]; simpl; [done|]. by rewrite IH. Qed.

Lemma slice_drop {A} (l : list A) (o : Z) : 0 ≤ o → slice l o None = drop (Z.to_nat o) l.
Proof.
  intros Ho. unfold slice, slice_index.
  destruct (Z.ltb_spec o 0) as [?|_]; [lia|].
  destruct (decide (Z.to_nat o ≤ length l)%nat) as [Hle|Hgt].
  - rewrite Nat.min_l by done. apply take_ge. rewrite length_drop. lia.
  - rewrite Nat.min_r by lia. rewrite !drop_ge by lia. apply take_nil.
Qed.

Lemma slice_take {A} (l : list A) (n : Z) : 0 ≤ n → slice l 0 (Some n) = take (Z.to_nat n) l.
Proof.
  intros Hn. unfold slice, slice_index.
  destruct (Z.ltb_spec n 0) as [?|_]; [lia|]. simpl. rewrite Nat.sub_0_r.
  change (drop 0 l) with l.
  destruct (decide (Z.to_nat n ≤ length l)%nat) as [Hle|Hgt].
  - by rewrite Nat.min_l.
  - rewrite Nat.min_r by lia. rewrite !take_ge by lia. done.
Qed.

(** What [_returnResultsFromKeys] returns for counts that are not negative. *)
Lemma returnResultsFromKeys_page data keys reverse limit offset :
  (∀ o, offset = Some o → 0 ≤ o) → (∀ n, limit = Some n → 0 ≤ n) →
  _returnResultsFromKeys data keys reverse limit offset
    = Resolved (flat_map (bucket data) (page keys (flag reverse) limit offset)).
Proof.
  intros Ho Hn. unfold _returnResultsFromKeys, page. rewrite flatten_buckets.
  do 2 f_equal.
  assert (Hoff : match offset with
                 | Some o => if o =? 0 then (if flag reverse then rev keys else keys)
                             else slice (if flag reverse then rev keys else keys) o None
                 | None => if flag reverse then rev keys else keys
                 end
                 = match offset with
                   | Some o => drop (Z.to_nat o) (if flag reverse then rev keys else keys)
                   | None => if flag reverse then rev keys else keys
                   end).
  { destruct offset as [o|]; [|done]. destruct (Z.eqb_spec o 0) as [->|_]; [done|].
    apply slice_drop. by apply Ho. }
  rewrite Hoff. destruct limit as [n|]; [|done].
  destruct (n =? 0); [done|]. apply slice_take. by apply Hn.
Qed.

Lemma ltb_asym (a b : string) : String.ltb a b = true → String.ltb b a = true → False.
Proof.
  unfold String.ltb. rewrite (String.compare_antisym a b).
  destruct (String.compare b a); simpl; congruence.
Qed.

Lemma in_range_within keyLow keyHigh lowEx highEx k :
  in_range keyLow keyHigh lowEx highEx k = true ↔ within keyLow keyHigh (flag lowEx) (flag highEx) k.
Proof.
  unfold in_range, within.
  rewrite andb_true_iff, !orb_true_iff, !andb_true_iff, !String.eqb_eq, !negb_true_iff.
  done.
Qed.

(** The keys [getRange] goes through, before paging: the keys of the
    derived mapping within the bounds, in ascending order. *)
Lemma sorted_range_keys data keyLow keyHigh lowEx highEx :
  let ks := sort (List.filter (in_range keyLow keyHigh lowEx highEx) (dict_keys data)) in
  (∀ k, k ∈ ks ↔ k ∈ dict_keys data ∧ within keyLow keyHigh (flag lowEx) (flag highEx) k) ∧
  StronglySorted String.le ks ∧ (NoDup (dict_keys data) → NoDup ks).
Proof.
  intros ks. unfold ks, sort. split_and!.
  - intros k. rewrite merge_sort_Permutation, list_elem_of_In, List.filter_In.
    by rewrite <- list_elem_of_In, in_range_within.
  - apply StronglySorted_merge_sort; apply _.
  - intros Hnd. rewrite merge_sort_Permutation. apply NoDup_ListNoDup, List.NoDup_filter.
    by apply NoDup_ListNoDup.
Qed.

(** C5 (amended). For offset and limit that are not negative, [getRange]
    selects exactly the keys of the derived mapping within the bounds (in
    the order of [<] on the serialized key strings), sorts them ascending,
    reverses the order if [reverse] is set, drops the first [offset] keys,
    truncates to [limit] keys unless the limit is 0, which is read as no
    limit, and returns the concatenation of the buckets of those keys in
    that order; offset and limit count index keys. *)
Theorem getRange_selects_sorts_pages ix w data keyLowRange keyHighRange keyLow keyHigh
    lowEx highEx reverse limit offset :
  internal_isOpen (ix_trans ix) w = true →
  _calcChunkedData ix w = Returned data →
  serializeKeyToString keyLowRange (_keyPath ix) = Returned keyLow →
  serializeKeyToString keyHighRange (_keyPath ix) = Returned keyHigh →
  (∀ o, offset = Some o → 0 ≤ o) → (∀ n, limit = Some n → 0 ≤ n) →
  ∃ ks,
    (∀ k, k ∈ ks ↔ k ∈ dict_keys data ∧ within keyLow keyHigh (flag lowEx) (flag highEx) k) ∧
    StronglySorted String.le ks ∧ (NoDup (dict_keys data) → NoDup ks) ∧
    getRange ix keyLowRange keyHighRange lowEx highEx reverse limit offset w
      = Resolved (flat_map (bucket data) (page ks (flag reverse) limit offset)).
Proof.
  intros Hopen Hdata Hlow Hhigh Ho Hn.
  exists (sort (List.filter (in_range keyLow keyHigh lowEx highEx) (dict_keys data))).
  destruct (sorted_range_keys data keyLow keyHigh lowEx highEx) as (Hmem & Hsorted & Hnd).
  split_and!; [done..|].
  unfold getRange, _getKeysForRange. rewrite Hopen, Hdata. simpl. rewrite Hlow, Hhigh. simpl.
  by apply returnResultsFromKeys_page.
Qed.

Lemma NoDup_add_to_bucket item (keys : list string) : ∀ data,
  NoDup (dict_keys data) → NoDup (dict_keys (fold_left (add_to_bucket item) keys data)).
Proof.
  induction keys as [|k keys IH]; intros data Hnd; simpl; [done|].
  apply IH. unfold add_to_bucket. destruct (dict_index data k); by apply NoDup_dict_set.
Qed.

Lemma NoDup_pivot sch kp items : ∀ data data',
  pivot sch kp items data = Returned data' → NoDup (dict_keys data) → NoDup (dict_keys data').
Proof.
  induction items as [|item rest IH]; intros data data'; simpl.
  - by intros [= <-].
  - destruct (keys_of_item sch kp item) as [keys|e]; simpl; [|done].
    intros Hp Hnd. apply (IH _ _ Hp). by apply NoDup_add_to_bucket.
Qed.

(** The derived mapping has every index key once. *)
Lemma calcChunkedData_NoDup ix w data :
  wf w → (ix_mergedData ix < length (heap w))%nat →
  _calcChunkedData ix w = Returned data → NoDup (dict_keys data).
Proof.
  intros Hwf Hl. unfold _calcChunkedData. destruct (_indexSchema ix) as [sch|].
  - intros Hp. apply (NoDup_pivot _ _ _ _ _ Hp). constructor.
  - intros [= <-]. by apply wf_heap.
Qed.

Lemma length_filter_eq (k : string) (f : string → bool) (l : list string) :
  (∀ x, f x = true ↔ x = k) → NoDup l →
  length (List.filter f l) = if decide (k ∈ l) then 1%nat else 0%nat.
Proof.
  intros Hf. induction l as [|x l IH]; intros Hnd.
  - simpl. destruct (decide (k ∈ [])) as [Hin|]; [by apply elem_of_nil in Hin|done].
  - apply NoDup_cons in Hnd as [Hx Hnd]. simpl. specialize (IH Hnd).
    destruct (f x) eqn:Hfx.
    + apply Hf in Hfx. subst x. simpl. rewrite IH.
      destruct (decide (k ∈ l)); [done|].
      destruct (decide (k ∈ k :: l)) as [|Hn]; [done|]. exfalso. apply Hn, elem_of_cons; auto.
    + rewrite IH. destruct (decide (k ∈ l)) as [Hin|Hnin].
      * destruct (decide (k ∈ x :: l)) as [|Hn]; [done|]. exfalso. apply Hn, elem_of_cons; auto.
      * destruct (decide (k ∈ x :: l)) as [[->|Hin]%elem_of_cons|]; [| |done].
        -- assert (f x = true) by (by apply Hf). congruence.
        -- done.
Qed.

Lemma in_range_only k x : in_range k k (Some false) (Some false) x = true ↔ x = k.
Proof.
  rewrite in_range_within. unfold within. simpl. split.
  - intros [[Hlt|[-> _]] [Hgt|[Heq _]]]; try done. exfalso. by eapply ltb_asym.
  - intros ->. split; right; done.
Qed.

(** C6. [countAll], [countOnly] and [countRange] return the number of
    distinct index keys selected, not the number of rows: the derived
    mapping has every key once, [countAll] is the number of its keys,
    [countRange] the number of its keys within the bounds and [countOnly]
    is 1 or 0 as the key is among them or not.  In particular, on a
    multi-entry index, the only row of a store, whose indexed field is the
    collection ["x","y"], contributes both keys, comes under both in
    [getAll], and [countAll] is 2. *)
Theorem counts_count_distinct_keys :
  (∀ ix w data,
     wf w → (ix_mergedData ix < length (heap w))%nat →
     internal_isOpen (ix_trans ix) w = true →
     _calcChunkedData ix w = Returned data →
     NoDup (dict_keys data) ∧
     countAll ix w = Resolved (Z.of_nat (length (dict_keys data))) ∧
     (∀ keyLowRange keyHighRange keyLow keyHigh lowEx highEx,
        serializeKeyToString keyLowRange (_keyPath ix) = Returned keyLow →
        serializeKeyToString keyHighRange (_keyPath ix) = Returned keyHigh →
        ∃ ks, NoDup ks ∧
          (∀ k, k ∈ ks ↔ k ∈ dict_keys data ∧ within keyLow keyHigh (flag lowEx) (flag highEx) k) ∧
          countRange ix keyLowRange keyHighRange lowEx highEx w = Resolved (Z.of_nat (length ks))) ∧
     (∀ key k,
        serializeKeyToString key (_keyPath ix) = Returned k →
        countOnly ix key w = Resolved (if decide (k ∈ dict_keys data) then 1 else 0))) ∧
  (∀ ix w sch pk item kx ky,
     internal_isOpen (ix_trans ix) w = true →
     _indexSchema ix = Some sch → fullText sch = false → multiEntry sch = true →
     read_dict (ix_mergedData ix) w = [(pk, item)] →
     getValueForSingleKeypath item (_keyPath ix) = Returned (VArr [VStr "x"; VStr "y"]) →
     serializeKeyToString (VStr "x") (_keyPath ix) = Returned kx →
     serializeKeyToString (VStr "y") (_keyPath ix) = Returned ky →
     kx ≠ ky →
     _calcChunkedData ix w = Returned [(kx, VArr [item]); (ky, VArr [item])] ∧
     getAll ix None None None w = Resolved [item; item] ∧
     countAll ix w = Resolved 2).
Proof.
  split.
  - intros ix w data Hwf Hl Hopen Hdata.
    pose proof (calcChunkedData_NoDup ix w data Hwf Hl Hdata) as Hnd.
    split_and!; [done| | |].
    + unfold countAll. by rewrite Hopen, Hdata.
    + intros keyLowRange keyHighRange keyLow keyHigh lowEx highEx Hlow Hhigh.
      exists (List.filter (in_range keyLow keyHigh lowEx highEx) (dict_keys data)).
      split_and!.
      * apply NoDup_ListNoDup, List.NoDup_filter. by apply NoDup_ListNoDup.
      * intros k. rewrite list_elem_of_In, List.filter_In.
        by rewrite <- list_elem_of_In, in_range_within.
      * unfold countRange, _getKeysForRange. rewrite Hopen, Hdata. simpl.
        by rewrite Hlow, Hhigh.
    + intros key k Hk. unfold countOnly, countRange, _getKeysForRange.
      rewrite Hopen, Hdata. simpl. rewrite Hk. simpl.
      rewrite (length_filter_eq k) by (done || apply in_range_only).
      by destruct (decide (k ∈ dict_keys data)).
  - intros ix w sch pk item kx ky Hopen Hsch Hft Hme Hrows Hval Hx Hy Hne.
    assert (Hdata : _calcChunkedData ix w = Returned [(kx, VArr [item]); (ky, VArr [item])]).
    { unfold _calcChunkedData. rewrite Hsch, Hrows. simpl.
      unfold keys_of_item. rewrite Hft, Hme, Hval. simpl. rewrite Hx, Hy. simpl.
      unfold add_to_bucket at 2. simpl. unfold add_to_bucket, dict_index. simpl.
      destruct (String.eqb_spec kx ky); [done|]. done. }
    split_and!; [done| |].
    + unfold getAll. rewrite Hopen, Hdata. unfold _returnResultsFromKeys. simpl.
      assert (Hperm : sort [kx; ky] ≡ₚ [kx; ky]) by apply merge_sort_Permutation.
      f_equal.
      assert (Hall : Forall (λ k, dict_index [(kx, VArr [item]); (ky, VArr [item])] k = VArr [item])
                       (sort [kx; ky])).
      { rewrite Hperm. repeat constructor; unfold dict_index; simpl.
        - by rewrite String.eqb_refl.
        - destruct (String.eqb_spec kx ky); [done|]. by rewrite String.eqb_refl. }
      apply Permutation_length in Hperm.
      destruct (sort [kx; ky]) as [|k1 [|k2 [|]]]; try done.
      apply Forall_cons in Hall as [H1 Hall]. apply Forall_cons in Hall as [H2 _].
      simpl. by rewrite H1, H2.
    + unfold countAll. by rewrite Hopen, Hdata.
Qed.

(** [_returnResultsFromKeys] when the limit or the offset is 0 or omitted:
    nothing is dropped for an offset of 0 and nothing is cut for a limit
    of 0. *)
Lemma returnResultsFromKeys_zero data (ks : list string) reverse :
  let ks' := if flag reverse then rev ks else ks in
  (∀ limit offset, limit = None ∨ limit = Some 0 → offset = None ∨ offset = Some 0 →
     _returnResultsFromKeys data ks reverse limit offset
       = Resolved (flat_map (bucket data) ks')) ∧
  (∀ limit o, limit = None ∨ limit = Some 0 → 0 ≤ o →
     _returnResultsFromKeys data ks reverse limit (Some o)
       = Resolved (flat_map (bucket data) (drop (Z.to_nat o) ks'))) ∧
  (∀ n offset, offset = None ∨ offset = Some 0 → 0 < n →
     _returnResultsFromKeys data ks reverse (Some n) offset
       = Resolved (flat_map (bucket data) (take (Z.to_nat n) ks'))).
Proof.
  intros ks'.
  assert (Hpage : ∀ limit offset,
            (∀ o, offset = Some o → 0 ≤ o) → (∀ n, limit = Some n → 0 ≤ n) →
            _returnResultsFromKeys data ks reverse limit offset
              = Resolved (flat_map (bucket data) (page ks (flag reverse) limit offset))).
  { intros. by apply returnResultsFromKeys_page. }
  split_and!.
  - intros limit offset Hl Ho.
    rewrite Hpage; [|destruct Ho as [->| ->]; intros o [= <-]; lia
                    |destruct Hl as [->| ->]; intros n [= <-]; lia].
    unfold page. fold ks'. by destruct Hl as [->| ->], Ho as [->| ->].
  - intros limit o Hl Ho.
    rewrite Hpage; [|intros o' [= <-]; lia|destruct Hl as [->| ->]; intros n [= <-]; lia].
    unfold page. fold ks'. by destruct Hl as [->| ->].
  - intros n offset Ho Hn.
    rewrite Hpage; [|destruct Ho as [->| ->]; intros o [= <-]; lia|intros n' [= <-]; lia].
    unfold page. fold ks'. destruct (Z.eqb_spec n 0) as [?|_]; [lia|].
    by destruct Ho as [->| ->].
Qed.

Lemma bucket_rows_returned data (ks : list string) k row :
  k ∈ ks → row ∈ bucket data k → row ∈ flat_map (bucket data) ks.
Proof.
  intros Hk Hrow. apply list_elem_of_In, in_flat_map. exists k.
  split; by apply list_elem_of_In.
Qed.

(** C10. For every index query, a limit of 0 or an offset of 0 behaves as
    the omitted argument, because both arguments are applied only when
    non-zero.  With the limit and the offset each 0 or omitted, [getAll]
    returns the buckets of all the keys of the derived mapping, in ascending
    key order (reversed if [reverse] is set), [getRange] the buckets of all
    the keys within the bounds and [getOnly] the bucket of the key: every
    row of every selected key is returned, not the empty sequence.  With a
    limit that is 0 or omitted, an offset drops that many first keys and
    nothing is cut; with an offset that is 0 or omitted, a positive limit
    keeps that many first keys and nothing is dropped. *)
Theorem zero_limit_offset_as_omitted :
  (∀ ix keyLow keyHigh lowEx highEx key reverse limit offset w,
     getAll ix reverse (Some 0) offset w = getAll ix reverse None offset w ∧
     getAll ix reverse limit (Some 0) w = getAll ix reverse limit None w ∧
     getRange ix keyLow keyHigh lowEx highEx reverse (Some 0) offset w
       = getRange ix keyLow keyHigh lowEx highEx reverse None offset w ∧
     getRange ix keyLow keyHigh lowEx highEx reverse limit (Some 0) w
       = getRange ix keyLow keyHigh lowEx highEx reverse limit None w ∧
     getOnly ix key reverse (Some 0) offset w = getOnly ix key reverse None offset w ∧
     getOnly ix key reverse limit (Some 0) w = getOnly ix key reverse limit None w) ∧
  (∀ data keys reverse,
     _returnResultsFromKeys data keys reverse (Some 0) (Some 0)
       = Resolved (flatten (map (dict_index data) (if flag reverse then rev keys else keys)))) ∧
  (∀ ix w data reverse,
     internal_isOpen (ix_trans ix) w = true →
     _calcChunkedData ix w = Returned data →
     ∃ ks, ks ≡ₚ dict_keys data ∧ StronglySorted String.le ks ∧
       let ks' := if flag reverse then rev ks else ks in
       (∀ limit offset, limit = None ∨ limit = Some 0 → offset = None ∨ offset = Some 0 →
          getAll ix reverse limit offset w = Resolved (flat_map (bucket data) ks')) ∧
       (∀ limit o, limit = None ∨ limit = Some 0 → 0 ≤ o →
          getAll ix reverse limit (Some o) w
            = Resolved (flat_map (bucket data) (drop (Z.to_nat o) ks'))) ∧
       (∀ n offset, offset = None ∨ offset = Some 0 → 0 < n →
          getAll ix reverse (Some n) offset w
            = Resolved (flat_map (bucket data) (take (Z.to_nat n) ks'))) ∧
       (∀ k row, k ∈ dict_keys data → row ∈ bucket data k →
          row ∈ flat_map (bucket data) ks')) ∧
  (∀ ix w data reverse keyLowRange keyHighRange keyLow keyHigh lowEx highEx,
     internal_isOpen (ix_trans ix) w = true →
     _calcChunkedData ix w = Returned data →
     serializeKeyToString keyLowRange (_keyPath ix) = Returned keyLow →
     serializeKeyToString keyHighRange (_keyPath ix) = Returned keyHigh →
     ∃ ks,
       (∀ k, k ∈ ks ↔ k ∈ dict_keys data ∧ within keyLow keyHigh (flag lowEx) (flag highEx) k) ∧
       StronglySorted String.le ks ∧
       let ks' := if flag reverse then rev ks else ks in
       (∀ limit offset, limit = None ∨ limit = Some 0 → offset = None ∨ offset = Some 0 →
          getRange ix keyLowRange keyHighRange lowEx highEx reverse limit offset w
            = Resolved (flat_map (bucket data) ks')) ∧
       (∀ limit o, limit = None ∨ limit = Some 0 → 0 ≤ o →
          getRange ix keyLowRange keyHighRange lowEx highEx reverse limit (Some o) w
            = Resolved (flat_map (bucket data) (drop (Z.to_nat o) ks'))) ∧
       (∀ n offset, offset = None ∨ offset = Some 0 → 0 < n →
          getRange ix keyLowRange keyHighRange lowEx highEx reverse (Some n) offset w
            = Resolved (flat_map (bucket data) (take (Z.to_nat n) ks'))) ∧
       (∀ k row, k ∈ dict_keys data → within keyLow keyHigh (flag lowEx) (flag highEx) k →
          row ∈ bucket data k → row ∈ flat_map (bucket data) ks')) ∧
  (∀ ix w data reverse key k,
     internal_isOpen (ix_trans ix) w = true →
     _calcChunkedData ix w = Returned data →
     serializeKeyToString key (_keyPath ix) = Returned k →
     k ∈ dict_keys data →
     ∀ limit offset, limit = None ∨ limit = Some 0 → offset = None ∨ offset = Some 0 →
       ∃ rows, getOnly ix key reverse limit offset w = Resolved rows ∧
               ∀ row, row ∈ bucket data k → row ∈ rows).
Proof.
  split_and!.
  - (* [if (limit)] and [if (offset)] take the same branch for 0 as for undefined *)
    intros. split_and!; reflexivity.
  - reflexivity.
  - intros ix w data reverse Hopen Hdata. exists (sort (dict_keys data)).
    assert (Hperm : sort (dict_keys data) ≡ₚ dict_keys data) by apply merge_sort_Permutation.
    split_and!; [done|apply StronglySorted_merge_sort; apply _|].
    intros ks'.
    destruct (returnResultsFromKeys_zero data (sort (dict_keys data)) reverse) as (Hz & Hd & Ht).
    fold ks' in Hz, Hd, Ht. unfold getAll. rewrite Hopen, Hdata.
    split_and!; [done|done|done|].
    intros k row Hk Hrow. apply (bucket_rows_returned data ks' k row); [|done].
    unfold ks'. destruct (flag reverse); [rewrite <- Permutation_rev|]; by rewrite Hperm.
  - intros ix w data reverse keyLowRange keyHighRange keyLow keyHigh lowEx highEx
      Hopen Hdata Hlow Hhigh.
    destruct (sorted_range_keys data keyLow keyHigh lowEx highEx) as (Hks & Hsorted & _).
    set (ks := sort _) in *. exists ks. split_and!; [done|done|].
    intros ks'.
    destruct (returnResultsFromKeys_zero data ks reverse) as (Hz & Hd & Ht).
    fold ks' in Hz, Hd, Ht.
    assert (Hq : ∀ limit offset,
              getRange ix keyLowRange keyHighRange lowEx highEx reverse limit offset w
                = _returnResultsFromKeys data ks reverse limit offset).
    { intros limit offset. unfold getRange, _getKeysForRange. rewrite Hopen, Hdata. simpl.
      by rewrite Hlow, Hhigh. }
    split_and!.
    + intros limit offset Hl Ho. rewrite Hq. by apply Hz.
    + intros limit o Hl Ho. rewrite Hq. by apply Hd.
    + intros n offset Ho Hn. rewrite Hq. by apply Ht.
    + intros k row Hk Hin Hrow. apply (bucket_rows_returned data ks' k row); [|done].
      assert (Hkk : k ∈ ks) by (by apply Hks).
      unfold ks'. destruct (flag reverse); [|done].
      by apply list_elem_of_In, in_rev, list_elem_of_In in Hkk.
  - intros ix w data reverse key k Hopen Hdata Hkey Hk limit offset Hl Ho.
    destruct (sorted_range_keys data k k (Some false) (Some false)) as (Hks & _).
    set (ks := sort _) in *.
    destruct (returnResultsFromKeys_zero data ks reverse) as (Hz & _).
    eexists. split.
    + unfold getOnly, getRange, _getKeysForRange. rewrite Hopen, Hdata. simpl.
      rewrite Hkey. simpl. fold ks. by apply Hz.
    + intros row Hrow. apply (bucket_rows_returned data _ k row); [|done].
      assert (Hkk : k ∈ ks).
      { apply Hks. split; [done|]. split; right; done. }
      destruct (flag reverse); [|done].
      by apply list_elem_of_In, in_rev, list_elem_of_In in Hkk.
Qed.

End IndexFacts.

(** ** Transactions: isolation, abort and commit *)

Section Transactions.
Context `{Collaborators}.
Implicit Types (w : World) (s : sref) (t : tref) (l : loc).

Lemma frame_refl ss w : frame ss w w.
Proof. unfold frame. naive_solver. Qed.

Lemma isolated_frame s w w' : isolated s w w' → frame [s] w w'.
Proof.
  intros (Hp & Ht & Hl & Hc & Ho & Hx & Hy & Hz). unfold frame. split_and!; try done.
  - intros s2 Hs2 Hne. apply Ho; [done|]. intros ->. apply Hne, list_elem_of_singleton. done.
  - intros s' Hs'. destruct (decide (s' = s)) as [->|Hne]; [done|].
    by destruct (Ho s' Hs' Hne) as [-> _].
Qed.

Lemma frame_trans ss1 ss2 w1 w2 w3 :
  frame ss1 w1 w2 → frame ss2 w2 w3 → frame (ss1 ++ ss2) w1 w3.
Proof.
  intros (Hp1 & Ht1 & Hl1 & Hc1 & Ho1 & Hx1) (Hp2 & Ht2 & Hl2 & Hc2 & Ho2 & Hx2).
  unfold frame. split_and!; try congruence.
  - intros l Hl. rewrite <- Hc1 by done. apply Hc2.
    unfold committed_loc in *. by rewrite Hp1.
  - intros s2 Hs2 Hnin. apply not_elem_of_app in Hnin as [Hn1 Hn2].
    destruct (Ho1 s2 Hs2 Hn1) as [He1 Hr1].
    destruct (Ho2 s2) as [He2 Hr2]; [lia|done|].
    split; [congruence|]. rewrite <- Hr1, <- He1. done.
  - intros s Hs. destruct (Hx1 s Hs) as (? & ? & ?).
    destruct (Hx2 s) as (? & ? & ?); [lia|]. split_and!; congruence.
Qed.

(** Any calls on store handles keep the world well formed and leave alone
    the transactions, the committed data and every handle not called. *)
Lemma calls_frame cs : ∀ w,
  wf w → Forall (λ sc : sref * StoreCall, (sc.1 < length (storeObjs w))%nat) cs →
  wf (calls cs w) ∧ frame (map fst cs) w (calls cs w).
Proof.
  induction cs as [|[s c] cs IH]; intros w Hwf Hall; simpl.
  - split; [done|apply frame_refl].
  - apply Forall_cons in Hall as [Hs Hall]. simpl in Hs.
    destruct (call_ok w s c Hwf Hs) as [Hwf1 Hiso].
    destruct (IH (call s c w)) as [Hwf2 Hfr]; [done| |].
    + rewrite (isolated_length _ _ _ Hiso). done.
    + split; [done|]. apply (frame_trans [s] _ w (call s c w)); [|done].
      by apply isolated_frame.
Qed.

Lemma rollback_fold (ss : list sref) : ∀ w,
  let w' := fold_left (λ w s, internal_rollbackPendingData s w) ss w in
  heap w' = heap w ∧ prov_stores w' = prov_stores w ∧ transObjs w' = transObjs w ∧
  length (storeObjs w') = length (storeObjs w) ∧
  ∀ s, (s < length (storeObjs w))%nat →
       store_at s w' = if decide (s ∈ ss) then discard_pending (store_at s w) else store_at s w.
Proof.
  induction ss as [|s0 ss IH]; intros w; simpl.
  - split_and!; done.
  - destruct (IH (internal_rollbackPendingData s0 w)) as (Hh & Hp & Ht & Hl & Hs).
    unfold internal_rollbackPendingData in *. rewrite length_storeObjs_update in *.
    split_and!; try done. intros s Hlt. rewrite (Hs s Hlt).
    destruct (decide (s0 = s)) as [->|Hne].
    + rewrite store_at_update_eq by done.
      destruct (decide (s ∈ s :: ss)) as [_|Hn]; [|exfalso; apply Hn, elem_of_cons; auto].
      by destruct (decide (s ∈ ss)).
    + rewrite store_at_update_ne by done.
      destruct (decide (s ∈ ss)) as [Hin|Hnin].
      * destruct (decide (s ∈ s0 :: ss)) as [_|Hn]; [done|]. exfalso. apply Hn, elem_of_cons; auto.
      * destruct (decide (s ∈ s0 :: ss)) as [[->|?]%elem_of_cons|]; done.
Qed.

Lemma abort_stores t w :
  heap (abort t w) = heap w ∧ prov_stores (abort t w) = prov_stores w ∧
  ∀ s, (s < length (storeObjs w))%nat →
       store_at s (abort t w)
         = if decide (s ∈ dict_values (tx_stores (trans_at t w)))
           then discard_pending (store_at s w) else store_at s w.
Proof.
  destruct (rollback_fold (dict_values (tx_stores (trans_at t w))) w) as (Hh & Hp & Ht & Hl & Hs).
  unfold abort. set (w1 := fold_left _ _ w) in *.
  set (w2 := update_trans t (with_stores []) w1).
  assert (Hst : ∀ x, heap (clearTimeout (_openTimer (trans_at t w2)) x) = heap x ∧
                     prov_stores (clearTimeout (_openTimer (trans_at t w2)) x) = prov_stores x ∧
                     storeObjs (clearTimeout (_openTimer (trans_at t w2)) x) = storeObjs x).
  { intros x. by destruct (_openTimer (trans_at t w2)). }
  destruct (Hst w2) as (Hh2 & Hp2 & Hs2).
  split_and!.
  - simpl. by rewrite Hh2.
  - simpl. by rewrite Hp2.
  - intros s Hlt. rewrite <- (Hs s Hlt). unfold store_at. simpl. by rewrite Hs2.
Qed.

Lemma getStore_heap t name w :
  heap (getStore t name w).2 = heap w ∧ prov_stores (getStore t name w).2 = prov_stores w.
Proof.
  unfold getStore. destruct (negb _); [done|].
  destruct (dict_get _ _); [done|]. by destruct (internal_getStore name w).
Qed.

(** Only a commit changes the committed data of a store. *)
Lemma step_keeps_committed a w :
  wf w → action_valid a w → (∀ h, a ≠ ActTick h) →
  prov_stores (step a w) = prov_stores w ∧
  ∀ l, committed_loc w l → read_dict l (step a w) = read_dict l w.
Proof.
  intros Hwf Hv Hne. destruct a as [names wr|t n|t|h|s c]; simpl.
  - done.
  - destruct (getStore_heap t n w) as [Hh Hp]. split; [done|].
    intros l _. unfold read_dict. by rewrite Hh.
  - destruct (abort_stores t w) as (Hh & Hp & _). split; [done|].
    intros l _. unfold read_dict. by rewrite Hh.
  - by destruct (Hne h).
  - destruct (call_ok w s c Hwf Hv) as [_ (Hp & _ & _ & Hc & _)]. done.
Qed.

Lemma run_keeps_committed acts : ∀ w,
  wf w → valid_run acts w → no_commit acts →
  wf (run acts w) ∧ prov_stores (run acts w) = prov_stores w ∧
  ∀ l, committed_loc w l → read_dict l (run acts w) = read_dict l w.
Proof.
  induction acts as [|a acts IH]; intros w Hwf Hv Hnc; simpl; [done|].
  destruct Hv as [Hva Hv].
  assert (Hne : ∀ h, a ≠ ActTick h).
  { intros h ->. apply (Hnc h), elem_of_cons. auto. }
  destruct (step_keeps_committed a w Hwf Hva Hne) as [Hp Hc].
  destruct (IH (step a w)) as (Hwf' & Hp' & Hc').
  - by apply wf_step.
  - done.
  - intros h Hin. apply (Hnc h), elem_of_cons. auto.
  - split_and!; [done|congruence|].
    intros l Hl. rewrite Hc'; [by apply Hc|].
    unfold committed_loc in *. by rewrite Hp.
Qed.

(** C2. For every transaction, any sequence of events in which no commit
    runs (calls of [put], [remove], [clearAllData] and the others on store
    handles, and [getStore], [openTransaction] and [abort] calls) followed
    by [abort] leaves every store of the provider with the committed row
    map it had before; and abort discards the pending changes of every
    handle the transaction holds and sets its merged data back to the
    committed data. *)
Theorem abort_discards w t acts :
  wf w → valid_run acts w → no_commit acts →
  let w1 := run acts w in
  let w' := abort t w1 in
  (∀ name sd, internal_getStore name w = Some sd →
     internal_getStore name w' = Some sd ∧ read_dict (data sd) w' = read_dict (data sd) w) ∧
  (∀ name s, (name, s) ∈ tx_stores (trans_at t w1) →
     _pendingCommitDataChanges (store_at s w') = None ∧
     _mergedData (store_at s w') = _committedStoreData (store_at s w') ∧
     _committedStoreData (store_at s w') = _committedStoreData (store_at s w1)).
Proof.
  intros Hwf Hv Hnc w1 w'.
  destruct (run_keeps_committed acts w Hwf Hv Hnc) as (Hwf1 & Hp & Hc). fold w1 in Hwf1, Hp, Hc.
  destruct (abort_stores t w1) as (Hh & Hp' & Hs). fold w' in Hh, Hp', Hs.
  split.
  - intros name sd Hsd. unfold internal_getStore in *. rewrite Hp', Hp.
    split; [done|]. unfold read_dict at 1. rewrite Hh. apply Hc. by exists name, sd.
  - intros name s Hin.
    assert (Ht' : (t < length (transObjs w1))%nat).
    { destruct (decide (t < length (transObjs w1))%nat); [done|].
      rewrite trans_at_invalid in Hin by lia. by apply elem_of_nil in Hin. }
    destruct (wf_transs _ Hwf1 t Ht') as [_ Hreg].
    destruct (Hreg name s Hin) as (Hs' & _).
    rewrite Hs by done. rewrite decide_True; [done|].
    unfold dict_values. by apply (list_elem_of_fmap_2 snd) in Hin.
Qed.

(** A transaction that has just been opened reads the committed data. *)
Lemma fresh_transaction_reads w names writeNeeded name sd t2 w2 :
  name ∈ names → internal_getStore name w = Some sd →
  openTransaction names writeNeeded w = (t2, w2) →
  ∃ s2 w3, getStore t2 name w2 = (Returned s2, w3) ∧
    store_isOpen s2 w3 = true ∧
    _storeSchema (store_at s2 w3) = schema sd ∧
    _mergedData (store_at s2 w3) = data sd ∧ heap w3 = heap w ∧
    ∀ key, get s2 key w3 =
      match serializeKeyToString key (primaryKeyPath (schema sd)) with
      | Returned k => Resolved (dict_index (read_dict (data sd) w) k)
      | Threw e => Rejected (RejError e)
      end.
Proof.
  intros Hin Hsd Hopen. unfold openTransaction, new_InMemoryTransaction in Hopen.
  injection Hopen as <- <-.
  set (t2 := length (transObjs w)).
  set (w2 := mkWorld _ _ _ _ _ _ _).
  assert (Htx : trans_at t2 w2 = {| _openTimer := Some (nextTimer w); tx_stores := [];
                                     _transToken := {| storeNames := names; exclusive := writeNeeded |} |}).
  { unfold trans_at, w2. simpl. rewrite lookup_total_app_r by (unfold t2; lia).
    unfold t2. by rewrite Nat.sub_diag. }
  assert (Ht2 : (t2 < length (transObjs w2))%nat).
  { unfold w2. simpl. rewrite length_app. simpl. unfold t2. lia. }
  eexists _, _. split.
  { apply (getStore_new w2 t2 name sd); by rewrite ?Htx. }
  set (snew := length (storeObjs w2)).
  set (w3 := update_trans t2 _ _).
  assert (Hst : store_at snew w3 = {| st_trans := t2; _pendingCommitDataChanges := None;
                      _committedStoreData := data sd; _mergedData := data sd;
                      _storeSchema := schema sd |}).
  { unfold store_at, w3. simpl. rewrite lookup_total_app_r by (unfold snew, w2; simpl; lia).
    unfold snew, w2. simpl. by rewrite Nat.sub_diag. }
  assert (Hopen3 : store_isOpen snew w3 = true).
  { unfold store_isOpen, internal_isOpen. rewrite Hst. simpl.
    unfold w3. rewrite trans_at_update_eq by done.
    change (trans_at t2 (new_InMemoryStore t2 sd w2).2) with (trans_at t2 w2).
    by rewrite Htx. }
  split_and!; [done|by rewrite Hst|by rewrite Hst|done|].
  intros key. unfold get. rewrite Hopen3, Hst. simpl.
  destruct (serializeKeyToString key _); done.
Qed.

(** C8. Writes made inside one transaction are invisible to every other
    transaction until commit.  Whatever calls the handles of a transaction
    [t1] make, the shared committed map of every store is as before, every
    handle of another transaction reads what it read before, and a second
    transaction opened after these writes reads the committed state from
    before them: the mutations go to the copy of the handle and its pending
    changes, and no event but a commit changes a committed map. *)
Theorem uncommitted_writes_invisible w t1 cs :
  wf w →
  Forall (λ sc : sref * StoreCall,
            (sc.1 < length (storeObjs w))%nat ∧ st_trans (store_at sc.1 w) = t1) cs →
  let w' := calls cs w in
  (∀ name sd, internal_getStore name w = Some sd →
     internal_getStore name w' = Some sd ∧ read_dict (data sd) w' = read_dict (data sd) w) ∧
  (∀ s2 key keyOrKeys,
     (s2 < length (storeObjs w))%nat → st_trans (store_at s2 w) ≠ t1 →
     get s2 key w' = get s2 key w ∧ getMultiple s2 keyOrKeys w' = getMultiple s2 keyOrKeys w) ∧
  (∀ names writeNeeded name sd t2 w2,
     name ∈ names → internal_getStore name w = Some sd →
     openTransaction names writeNeeded w' = (t2, w2) →
     ∃ s2 w3, getStore t2 name w2 = (Returned s2, w3) ∧
       ∀ key, get s2 key w3 =
         match serializeKeyToString key (primaryKeyPath (schema sd)) with
         | Returned k => Resolved (dict_index (read_dict (data sd) w) k)
         | Threw e => Rejected (RejError e)
         end) ∧
  (∀ acts name sd,
     valid_run acts w → no_commit acts → internal_getStore name w = Some sd →
     internal_getStore name (run acts w) = Some sd ∧
     read_dict (data sd) (run acts w) = read_dict (data sd) w).
Proof.
  intros Hwf Hall w'.
  destruct (calls_frame cs w Hwf) as [Hwf1 (Hp & Ht & Hl & Hc & Ho & Hx)].
  { eapply Forall_impl; [exact Hall|]. by intros sc [? _]. }
  fold w' in Hwf1, Hp, Ht, Hl, Hc, Ho, Hx.
  assert (Hcommitted : ∀ name sd, internal_getStore name w = Some sd →
     internal_getStore name w' = Some sd ∧ read_dict (data sd) w' = read_dict (data sd) w).
  { intros name sd Hsd. unfold internal_getStore in *. rewrite Hp. split; [done|].
    apply Hc. by exists name, sd. }
  split_and!; [done| | |].
  - intros s2 key keyOrKeys Hs2 Hne.
    assert (Hnin : s2 ∉ map fst cs).
    { intros [sc [-> Hin]]%list_elem_of_fmap_1. rewrite Forall_forall in Hall.
      by destruct (Hall sc Hin). }
    destruct (Ho s2 Hs2 Hnin) as [Hst Hrd].
    unfold get, getMultiple, store_isOpen, internal_isOpen, trans_at.
    rewrite Hst, Ht, Hrd. done.
  - intros names writeNeeded name sd t2 w2 Hin Hsd Hopen.
    destruct (Hcommitted name sd Hsd) as [Hsd' Hrd].
    destruct (fresh_transaction_reads w' names writeNeeded name sd t2 w2 Hin Hsd' Hopen)
      as (s2 & w3 & Hget & _ & _ & _ & _ & Hread).
    exists s2, w3. split; [done|]. intros key. rewrite Hread. by rewrite Hrd.
  - intros acts name sd Hv Hnc Hsd.
    destruct (run_keeps_committed acts w Hwf Hv Hnc) as (_ & Hprov & Hkeep).
    unfold internal_getStore in *. rewrite Hprov. split; [done|].
    apply Hkeep. by exists name, sd.
Qed.

(** One commit step on a handle. *)
Lemma commitPendingData_effect w s :
  wf w → (s < length (storeObjs w))%nat →
  let st := store_at s w in
  let w' := internal_commitPendingData s w in
  store_at s w' = discard_pending st ∧
  (∀ s', s' ≠ s → store_at s' w' = store_at s' w) ∧
  read_dict (_committedStoreData st) w'
    = replay (default [] (_pendingCommitDataChanges st)) (read_dict (_committedStoreData st) w) ∧
  (∀ l, l ≠ _committedStoreData st → read_dict l w' = read_dict l w).
Proof.
  intros Hwf Hs st w'. unfold w', internal_commitPendingData. fold st.
  destruct (wf_stores _ Hwf s Hs) as [Hc _].
  apply (wf_committed_bound w) in Hc; [|done]. fold st in Hc.
  split_and!.
  - by rewrite store_at_update_eq.
  - intros s' Hne. by rewrite store_at_update_ne.
  - change (read_dict ?l (update_store s ?f ?x)) with (read_dict l x).
    by rewrite read_dict_write_eq.
  - intros l Hne. change (read_dict ?l (update_store s ?f ?x)) with (read_dict l x).
    by rewrite read_dict_write_ne.
Qed.

Lemma commit_fold (ss : list sref) : ∀ w,
  wf w → (∀ s, s ∈ ss → (s < length (storeObjs w))%nat) →
  NoDup (map (λ s, _committedStoreData (store_at s w)) ss) →
  let w' := fold_left (λ w s, internal_commitPendingData s w) ss w in
  prov_stores w' = prov_stores w ∧ transObjs w' = transObjs w ∧
  length (storeObjs w') = length (storeObjs w) ∧
  (∀ s, (s < length (storeObjs w))%nat →
     store_at s w' = if decide (s ∈ ss) then discard_pending (store_at s w) else store_at s w) ∧
  (∀ s, s ∈ ss →
     read_dict (_committedStoreData (store_at s w)) w'
       = replay (default [] (_pendingCommitDataChanges (store_at s w)))
                (read_dict (_committedStoreData (store_at s w)) w)) ∧
  (∀ l, (∀ s, s ∈ ss → l ≠ _committedStoreData (store_at s w)) → read_dict l w' = read_dict l w).
Proof.
  induction ss as [|s0 ss IH]; intros w Hwf Hvalid Hnd; simpl.
  - split_and!; try done. intros s Hin. by apply elem_of_nil in Hin.
  - assert (Hs0 : (s0 < length (storeObjs w))%nat) by (apply Hvalid, elem_of_cons; auto).
    destruct (commitPendingData_effect w s0 Hwf Hs0) as (Hst0 & Hother & Hrd0 & Hrdo).
    set (w1 := internal_commitPendingData s0 w) in *.
    assert (Hlen1 : length (storeObjs w1) = length (storeObjs w)).
    { unfold w1, internal_commitPendingData. by rewrite length_storeObjs_update. }
    assert (Hcomm : ∀ s, _committedStoreData (store_at s w1) = _committedStoreData (store_at s w)).
    { intros s. destruct (decide (s = s0)) as [->|Hne]; [by rewrite Hst0|by rewrite Hother]. }
    simpl in Hnd. apply NoDup_cons in Hnd as [Hc0 Hnd].
    assert (Hnin : s0 ∉ ss).
    { intros Hin. apply Hc0.
      by apply (list_elem_of_fmap_2 (λ s, _committedStoreData (store_at s w))) in Hin. }
    destruct (IH w1) as (Hp & Ht & Hl & Hs & Hrd & Hfr).
    { by apply wf_commitPendingData. }
    { intros s Hin. rewrite Hlen1. apply Hvalid, elem_of_cons; auto. }
    { erewrite map_ext; [exact Hnd|]. intros s. simpl. apply Hcomm. }
    split_and!; try done.
    + by rewrite Hl.
    + intros s Hlt. rewrite Hs by lia.
      destruct (decide (s = s0)) as [->|Hne].
      * rewrite decide_False by done. rewrite decide_True by (apply elem_of_cons; auto). done.
      * rewrite Hother by done.
        destruct (decide (s ∈ ss)) as [Hin|Hn].
        -- rewrite decide_True by (apply elem_of_cons; auto). done.
        -- rewrite decide_False; [done|]. intros [?|?]%elem_of_cons; done.
    + intros s [->|Hin]%elem_of_cons.
      * rewrite Hfr; [done|]. intros s' Hin' Heq. apply Hc0. rewrite Heq, Hcomm.
        by apply (list_elem_of_fmap_2 (λ s, _committedStoreData (store_at s w))) in Hin'.
      * assert (Hne : s ≠ s0) by (intros ->; done).
        specialize (Hrd s Hin). rewrite Hother in Hrd by done.
        rewrite Hrd. f_equal. apply Hrdo. intros Heq. apply Hc0. rewrite <- Heq.
        by apply (list_elem_of_fmap_2 (λ s, _committedStoreData (store_at s w))) in Hin.
    + intros l Hl'. rewrite Hfr.
      * apply Hrdo. apply Hl'. apply elem_of_cons; auto.
      * intros s Hin. rewrite Hcomm. apply Hl'. apply elem_of_cons; auto.
Qed.

(** The handles a transaction holds are on distinct stores. *)
Lemma tx_stores_distinct w t :
  wf w → (t < length (transObjs w))%nat →
  NoDup (map (λ s, _committedStoreData (store_at s w)) (dict_values (tx_stores (trans_at t w)))) ∧
  ∀ s, s ∈ dict_values (tx_stores (trans_at t w)) → (s < length (storeObjs w))%nat.
Proof.
  intros Hwf Ht. destruct (wf_transs _ Hwf t Ht) as [Hnd Hreg]. split.
  - unfold dict_values. rewrite map_map.
    apply (NoDup_fmap_2_strong (λ x, _committedStoreData (store_at x.2 w))).
    + intros [n1 s1] [n2 s2] Hin1 Hin2 Heq. simpl in Heq.
      destruct (Hreg n1 s1 Hin1) as (_ & _ & sd1 & Hsd1 & Hc1 & _).
      destruct (Hreg n2 s2 Hin2) as (_ & _ & sd2 & Hsd2 & Hc2 & _).
      assert (n1 = n2) as <- by (eapply (wf_prov_inj _ Hwf); [done..|congruence]).
      apply (dict_elem_get _ _ _ Hnd) in Hin1, Hin2. congruence.
    + by apply (NoDup_fmap_1 fst).
  - intros s [[n s'] [-> Hin]]%list_elem_of_fmap_1. by destruct (Hreg n s' Hin).
Qed.

(** The world after the scheduled commit of [t] has run. *)
Lemma timer_callback_effect w t :
  wf w → (t < length (transObjs w))%nat →
  let w' := timer_callback t w in
  prov_stores w' = prov_stores w ∧ internal_isOpen t w' = false ∧
  (∀ name s, (name, s) ∈ tx_stores (trans_at t w) →
     store_at s w' = discard_pending (store_at s w) ∧
     read_dict (_committedStoreData (store_at s w)) w'
       = replay (default [] (_pendingCommitDataChanges (store_at s w)))
                (read_dict (_committedStoreData (store_at s w)) w)).
Proof.
  intros Hwf Ht w'. unfold w', timer_callback.
  set (w0 := update_trans t (with_openTimer None) w).
  assert (Hwf0 : wf w0) by (apply wf_update_trans; auto).
  assert (Htx0 : trans_at t w0 = with_openTimer None (trans_at t w)).
  { unfold w0. by rewrite trans_at_update_eq. }
  assert (Ht0 : (t < length (transObjs w0))%nat).
  { unfold w0. by rewrite length_transObjs_update. }
  destruct (tx_stores_distinct w0 t Hwf0 Ht0) as [Hnd Hvalid].
  destruct (commit_fold _ w0 Hwf0 Hvalid Hnd) as (Hp & Htr & Hl & Hs & Hrd & _).
  unfold _commitTransaction. set (w1 := fold_left _ _ w0) in *.
  split_and!.
  - simpl. by rewrite Hp.
  - unfold internal_isOpen, trans_at. simpl. rewrite Htr. fold (trans_at t w0).
    by rewrite Htx0.
  - intros name s Hin.
    assert (Hin0 : s ∈ dict_values (tx_stores (trans_at t w0))).
    { rewrite Htx0. simpl. unfold dict_values. by apply (list_elem_of_fmap_2 snd) in Hin. }
    split.
    + change (store_at s (notify ?e w1)) with (store_at s w1).
      rewrite Hs by (by apply Hvalid). by rewrite decide_True.
    + change (read_dict ?l (notify ?e w1)) with (read_dict l w1).
      by apply (Hrd s Hin0).
Qed.

(** The handle [getStore] returns is in the transaction's table and is on
    the provider's store of that name. *)
Lemma getStore_returned w t name s w1 :
  wf w → getStore t name w = (Returned s, w1) →
  wf w1 ∧ (t < length (transObjs w1))%nat ∧
  dict_get (tx_stores (trans_at t w1)) name = Some s ∧
  name ∈ storeNames (_transToken (trans_at t w1)) ∧
  internal_isOpen t w1 = internal_isOpen t w ∧
  (s < length (storeObjs w1))%nat ∧ st_trans (store_at s w1) = t ∧
  ∃ sd, internal_getStore name w1 = Some sd ∧
        _committedStoreData (store_at s w1) = data sd ∧
        _storeSchema (store_at s w1) = schema sd.
Proof.
  intros Hwf Hget.
  assert (Hwf1 : wf w1) by (replace w1 with (getStore t name w).2 by (by rewrite Hget);
                            by apply wf_getStore).
  assert (Hcore : (t < length (transObjs w1))%nat ∧
                  dict_get (tx_stores (trans_at t w1)) name = Some s ∧
                  name ∈ storeNames (_transToken (trans_at t w1)) ∧
                  internal_isOpen t w1 = internal_isOpen t w).
  { destruct (decide (name ∈ storeNames (_transToken (trans_at t w)))) as [Hin|Hnin];
      [|unfold getStore in Hget; by rewrite bool_decide_eq_false_2 in Hget].
    pose proof (getStore_valid w t name Hin) as Ht.
    destruct (dict_get (tx_stores (trans_at t w)) name) as [ims|] eqn:Hcache.
    { unfold getStore in Hget. rewrite bool_decide_eq_true_2 in Hget by done. simpl in Hget.
      rewrite Hcache in Hget. injection Hget as <- <-. done. }
    destruct (internal_getStore name w) as [store|] eqn:Hstore;
      [|unfold getStore in Hget; rewrite bool_decide_eq_true_2 in Hget by done; simpl in Hget;
        by rewrite Hcache, Hstore in Hget].
    rewrite (getStore_new w t name store) in Hget by done. injection Hget as <- <-.
    rewrite length_transObjs_update. unfold internal_isOpen.
    rewrite trans_at_update_eq by done.
    change (trans_at t (new_InMemoryStore t store w).2) with (trans_at t w).
    simpl. split_and!; try done. by rewrite dict_get_set_eq. }
  destruct Hcore as (Ht & Hreg & Hin & Hopen). split_and!; try done.
  - apply dict_get_Some_elem in Hreg. by destruct (wf_transs _ Hwf1 t Ht) as [_ Hall], (Hall name s Hreg).
  - apply dict_get_Some_elem in Hreg.
    by destruct (wf_transs _ Hwf1 t Ht) as [_ Hall], (Hall name s Hreg) as (_ & ? & _).
  - apply dict_get_Some_elem in Hreg.
    destruct (wf_transs _ Hwf1 t Ht) as [_ Hall], (Hall name s Hreg) as (_ & _ & sd & ? & ? & ?).
    by exists sd.
Qed.

Lemma store_isOpen_isolated s w w' : isolated s w w' → store_isOpen s w' = store_isOpen s w.
Proof.
  intros (_ & Ht & _ & _ & _ & Hx & _). unfold store_isOpen, internal_isOpen, trans_at.
  by rewrite Hx, Ht.
Qed.

(** [put] of one row on an open transaction. *)
Lemma put_single w s r k :
  wf w → (s < length (storeObjs w))%nat → store_isOpen s w = true →
  arrayify r = [r] →
  getSerializedKeyForKeypath r (primaryKeyPath (_storeSchema (store_at s w))) = Returned k →
  let w' := (put s r w).2 in
  (put s r w).1 = Resolved () ∧ wf w' ∧ isolated s w w' ∧
  (∃ p, _pendingCommitDataChanges (store_at s w') = Some p ∧ dict_get p k = Some r) ∧
  dict_get (read_dict (_mergedData (store_at s w')) w') k = Some r.
Proof.
  intros Hwf Hs Hopen Harr Hk w'. unfold w', put. rewrite Hopen, Harr. simpl.
  destruct (checkDataClone_ok w s Hwf Hs) as (Hwf1 & Hiso1 & [p Hp] & _).
  set (w1 := _checkDataClone s w) in *.
  assert (Hs1 : (s < length (storeObjs w1))%nat) by (by rewrite (isolated_length _ _ _ Hiso1)).
  assert (Hsch : _storeSchema (store_at s w1) = _storeSchema (store_at s w)).
  { by destruct Hiso1 as (_ & _ & _ & _ & _ & _ & _ & ?). }
  rewrite Hsch, Hk. simpl.
  destruct (set_row_ok w1 s p k r Hwf1 Hs1 Hp) as (Hwf2 & Hiso2 & Hst & Hrd).
  split_and!; [done|done|by eapply isolated_trans| |].
  - rewrite Hst. simpl. eexists. split; [done|]. apply dict_get_set_eq.
  - rewrite Hst. simpl. rewrite Hrd. apply dict_get_set_eq.
Qed.

Lemma dict_get_tombstones (keys : list string) k : ∀ p : list (string * value),
  dict_get (fold_left (λ p key, dict_set p key VUndefined) keys p) k
    = if decide (k ∈ keys) then Some VUndefined else dict_get p k.
Proof.
  induction keys as [|k0 keys IH]; intros p; cbn [fold_left].
  - by rewrite decide_False by apply not_elem_of_nil.
  - rewrite IH. destruct (decide (k ∈ keys)) as [Hin|Hnin].
    + by rewrite decide_True by (apply elem_of_cons; auto).
    + destruct (decide (k0 = k)) as [->|Hne].
      * rewrite decide_True by (apply elem_of_cons; auto). apply dict_get_set_eq.
      * rewrite decide_False by (intros [?|?]%elem_of_cons; done). by apply dict_get_set_ne.
Qed.

Lemma delete_rows_pending s keys : ∀ w p,
  wf w → (s < length (storeObjs w))%nat →
  _pendingCommitDataChanges (store_at s w) = Some p →
  _pendingCommitDataChanges (store_at s (fold_left (λ w key, delete_row s key w) keys w))
    = Some (fold_left (λ p key, dict_set p key VUndefined) keys p).
Proof.
  induction keys as [|key rest IH]; intros w p Hwf Hs Hp; simpl; [done|].
  destruct (delete_row_ok w s p key) as (Hwf' & Hiso & Hst & _); try done.
  apply IH; [done| |].
  - by rewrite (isolated_length _ _ _ Hiso).
  - by rewrite Hst.
Qed.

(** [remove] on an open transaction leaves a tombstone for every key. *)
Lemma remove_tombstones w s keyOrKeys keys :
  wf w → (s < length (storeObjs w))%nat → store_isOpen s w = true →
  formListOfSerializedKeys keyOrKeys (primaryKeyPath (_storeSchema (store_at s w))) = Returned keys →
  let w' := (remove s keyOrKeys w).2 in
  (remove s keyOrKeys w).1 = Resolved () ∧ wf w' ∧ isolated s w w' ∧
  ∃ p, _pendingCommitDataChanges (store_at s w') = Some p ∧
       ∀ k, k ∈ keys → dict_get p k = Some VUndefined.
Proof.
  intros Hwf Hs Hopen Hkeys w'.
  destruct (remove_ok w s keyOrKeys Hwf Hs) as [Hwf' Hiso]. fold w' in Hwf', Hiso.
  unfold w', remove. rewrite Hopen. simpl.
  destruct (checkDataClone_ok w s Hwf Hs) as (Hwf1 & Hiso1 & [p Hp] & _).
  set (w1 := _checkDataClone s w) in *.
  assert (Hs1 : (s < length (storeObjs w1))%nat) by (by rewrite (isolated_length _ _ _ Hiso1)).
  assert (Hsch : _storeSchema (store_at s w1) = _storeSchema (store_at s w)).
  { by destruct Hiso1 as (_ & _ & _ & _ & _ & _ & _ & ?). }
  rewrite Hsch, Hkeys. simpl.
  assert (Hw' : w' = fold_left (λ w key, delete_row s key w) keys w1).
  { unfold w', remove. rewrite Hopen. simpl. fold w1. by rewrite Hsch, Hkeys. }
  rewrite <- Hw'. split_and!; [done..|].
  eexists. split.
  - rewrite Hw'. by apply delete_rows_pending.
  - intros k Hin. rewrite dict_get_tombstones. by rewrite decide_True.
Qed.

Lemma is_undefined_eq v : is_undefined v = true → v = VUndefined.
Proof. by destruct v. Qed.

(** C3. For every row [r] (one item, not an array of items) whose
    primary-key-path value serializes to the key [k], [put(r)] and then
    [get(k)] within the same open transaction returns [r]; and after that
    transaction commits, [get(k)] in any transaction opened on the same
    store after it, whatever happens in between short of another commit,
    returns [r] too. *)
Theorem put_get_round_trip w t name s w1 r key k :
  wf w → getStore t name w = (Returned s, w1) → internal_isOpen t w = true →
  arrayify r = [r] →
  getSerializedKeyForKeypath r (primaryKeyPath (_storeSchema (store_at s w1))) = Returned k →
  serializeKeyToString key (primaryKeyPath (_storeSchema (store_at s w1))) = Returned k →
  let w2 := (put s r w1).2 in
  (put s r w1).1 = Resolved () ∧
  get s key w2 = Resolved r ∧
  ∀ acts names writeNeeded t2 w4,
    valid_run acts (timer_callback t w2) → no_commit acts →
    name ∈ names →
    openTransaction names writeNeeded (run acts (timer_callback t w2)) = (t2, w4) →
    ∃ s2 w5, getStore t2 name w4 = (Returned s2, w5) ∧ get s2 key w5 = Resolved r.
Proof.
  intros Hwf Hget Hopen Harr Hpk Hkey w2.
  destruct (getStore_returned w t name s w1 Hwf Hget)
    as (Hwf1 & Ht & Hreg & _ & Hopen1 & Hs & Htr & sd & Hsd & Hcd & Hsch).
  assert (Hsopen : store_isOpen s w1 = true).
  { unfold store_isOpen. by rewrite Htr, Hopen1. }
  destruct (put_single w1 s r k Hwf1 Hs Hsopen Harr Hpk) as (Hres & Hwf2 & Hiso & (p & Hp & Hpr) & Hm).
  fold w2 in Hwf2, Hiso, Hp, Hm.
  pose proof Hiso as (Hprov & Htrans & Hlen & _ & _ & _ & Hc2 & Hsch2).
  split_and!; [done| |].
  - unfold get. rewrite (store_isOpen_isolated _ _ _ Hiso), Hsopen. simpl.
    rewrite Hsch2, Hkey. unfold dict_index. by rewrite Hm.
  - intros acts names writeNeeded t2 w4 Hv Hnc Hin Hopen4.
    destruct (timer_callback_effect w2 t) as (Hprov3 & _ & Hcommit); [done|by rewrite Htrans|].
    destruct (Hcommit name s) as [_ Hrd].
    { unfold trans_at. rewrite Htrans. by apply dict_get_Some_elem. }
    assert (Hsd3 : internal_getStore name (timer_callback t w2) = Some sd).
    { unfold internal_getStore in *. by rewrite Hprov3, Hprov. }
    destruct (run_keeps_committed acts (timer_callback t w2)) as (_ & Hprov4 & Hkeep);
      [by apply wf_timer_callback|done..|].
    assert (Hsd4 : internal_getStore name (run acts (timer_callback t w2)) = Some sd).
    { unfold internal_getStore in *. by rewrite Hprov4. }
    destruct (fresh_transaction_reads _ names writeNeeded name sd t2 w4 Hin Hsd4 Hopen4)
      as (s2 & w5 & Hget5 & _ & _ & _ & _ & Hread).
    exists s2, w5. split; [done|]. rewrite Hread, <- Hsch, Hkey. f_equal.
    rewrite Hkeep by (by exists name, sd).
    rewrite <- Hcd, <- Hc2, Hrd, Hp. simpl. unfold dict_index. rewrite dict_get_replay.
    + rewrite Hpr. destruct (is_undefined r) eqn:Hu; [|done].
      by apply is_undefined_eq in Hu as ->.
    + assert (Hs2 : (s < length (storeObjs w2))%nat) by (by rewrite Hlen).
      destruct (wf_stores _ Hwf2 s Hs2) as [_ Hok]. rewrite Hp in Hok. by destruct Hok.
Qed.

(** C4. When the scheduled commit runs, for every store handle the
    transaction holds, each entry of the pending changes is replayed into
    the committed map (a value entry overwrites or inserts its key, an
    [undefined] entry deletes it), then the pending changes are cleared and
    the merged data is the committed data again.  In particular, after
    [remove(k)] and the commit, [k] is absent from the view of every
    transaction opened after it, whatever happens in between short of
    another commit. *)
Theorem commit_replays_pending w t :
  wf w →
  (∀ name s, (name, s) ∈ tx_stores (trans_at t w) →
     let st := store_at s w in
     let w' := timer_callback t w in
     (∀ k, dict_get (read_dict (_committedStoreData st) w') k =
           match dict_get (default [] (_pendingCommitDataChanges st)) k with
           | Some v => if is_undefined v then None else Some v
           | None => dict_get (read_dict (_committedStoreData st) w) k
           end) ∧
     _pendingCommitDataChanges (store_at s w') = None ∧
     _mergedData (store_at s w') = _committedStoreData st ∧
     _committedStoreData (store_at s w') = _committedStoreData st) ∧
  (∀ name s w1 keyOrKeys keys,
     getStore t name w = (Returned s, w1) → internal_isOpen t w = true →
     formListOfSerializedKeys keyOrKeys (primaryKeyPath (_storeSchema (store_at s w1))) = Returned keys →
     let w2 := (remove s keyOrKeys w1).2 in
     (remove s keyOrKeys w1).1 = Resolved () ∧
     ∀ acts names writeNeeded t2 w4,
       valid_run acts (timer_callback t w2) → no_commit acts →
       name ∈ names →
       openTransaction names writeNeeded (run acts (timer_callback t w2)) = (t2, w4) →
       ∃ s2 w5, getStore t2 name w4 = (Returned s2, w5) ∧
         ∀ k, k ∈ keys →
           (k ∉ dict_keys (read_dict (_mergedData (store_at s2 w5)) w5)) ∧
           ∀ key, serializeKeyToString key (primaryKeyPath (_storeSchema (store_at s w1))) = Returned k →
                  get s2 key w5 = Resolved VUndefined).
Proof.
  intros Hwf. split.
  - intros name s Hin st w'.
    assert (Ht : (t < length (transObjs w))%nat).
    { destruct (decide (t < length (transObjs w))%nat); [done|].
      rewrite trans_at_invalid in Hin by lia. by apply elem_of_nil in Hin. }
    destruct (timer_callback_effect w t Hwf Ht) as (_ & _ & Hcommit).
    destruct (Hcommit name s Hin) as [Hst Hrd]. fold w' st in Hst, Hrd.
    destruct (wf_transs _ Hwf t Ht) as [_ Hreg]. destruct (Hreg name s Hin) as (Hs & _).
    split_and!; [|by rewrite Hst..].
    intros k. rewrite Hrd. apply dict_get_replay.
    destruct (wf_stores _ Hwf s Hs) as [_ Hok]. fold st in Hok.
    destruct (_pendingCommitDataChanges st); [by destruct Hok|constructor].
  - intros name s w1 keyOrKeys keys Hget Hopen Hkeys w2.
    destruct (getStore_returned w t name s w1 Hwf Hget)
      as (Hwf1 & Ht & Hreg & _ & Hopen1 & Hs & Htr & sd & Hsd & Hcd & Hsch).
    assert (Hsopen : store_isOpen s w1 = true).
    { unfold store_isOpen. by rewrite Htr, Hopen1. }
    destruct (remove_tombstones w1 s keyOrKeys keys Hwf1 Hs Hsopen Hkeys)
      as (Hres & Hwf2 & Hiso & p & Hp & Htomb).
    fold w2 in Hwf2, Hiso, Hp.
    pose proof Hiso as (Hprov & Htrans & Hlen & _ & _ & _ & Hc2 & Hsch2).
    split; [done|].
    intros acts names writeNeeded t2 w4 Hv Hnc Hin Hopen4.
    destruct (timer_callback_effect w2 t) as (Hprov3 & _ & Hcommit); [done|by rewrite Htrans|].
    destruct (Hcommit name s) as [_ Hrd].
    { unfold trans_at. rewrite Htrans. by apply dict_get_Some_elem. }
    assert (Hsd3 : internal_getStore name (timer_callback t w2) = Some sd).
    { unfold internal_getStore in *. by rewrite Hprov3, Hprov. }
    destruct (run_keeps_committed acts (timer_callback t w2)) as (_ & Hprov4 & Hkeep);
      [by apply wf_timer_callback|done..|].
    assert (Hsd4 : internal_getStore name (run acts (timer_callback t w2)) = Some sd).
    { unfold internal_getStore in *. by rewrite Hprov4. }
    destruct (fresh_transaction_reads _ names writeNeeded name sd t2 w4 Hin Hsd4 Hopen4)
      as (s2 & w5 & Hget5 & _ & _ & Hm5 & Hh5 & Hread).
    exists s2, w5. split; [done|]. intros k Hk.
    assert (Hgone : dict_get (read_dict (data sd) (run acts (timer_callback t w2))) k = None).
    { rewrite Hkeep by (by exists name, sd).
      rewrite <- Hcd, <- Hc2, Hrd, Hp. simpl. rewrite dict_get_replay.
      - by rewrite (Htomb k Hk).
      - assert (Hs2 : (s < length (storeObjs w2))%nat) by (by rewrite Hlen).
        destruct (wf_stores _ Hwf2 s Hs2) as [_ Hok]. rewrite Hp in Hok. by destruct Hok. }
    split.
    + rewrite Hm5. unfold read_dict. rewrite Hh5. by apply dict_get_None.
    + intros key Hkey. rewrite Hread, <- Hsch, Hkey. unfold dict_index. by rewrite Hgone.
Qed.

(** ** The handle table of a transaction *)

Lemma transObjs_checkDataClone s w : transObjs (_checkDataClone s w) = transObjs w.
Proof. unfold _checkDataClone. by destruct (_pendingCommitDataChanges _). Qed.

Lemma transObjs_put_each s items : ∀ w, transObjs (put_each s items w).2 = transObjs w.
Proof.
  induction items as [|item rest IH]; intros w; simpl; [done|].
  destruct (getSerializedKeyForKeypath _ _); [|done]. by rewrite IH.
Qed.

Lemma transObjs_delete_rows s keys : ∀ w,
  transObjs (fold_left (λ w key, delete_row s key w) keys w) = transObjs w.
Proof. induction keys as [|key rest IH]; intros w; simpl; [done|]. by rewrite IH. Qed.

Lemma transObjs_call s c w : transObjs (call s c w) = transObjs w.
Proof.
  destruct c; simpl; try done.
  - unfold put. destruct (store_isOpen s w); [|done]. simpl.
    pose proof (transObjs_put_each s (arrayify itemOrItems) (_checkDataClone s w)) as Hp.
    destruct (put_each _ _ _) as [[e|] w2]; simpl in *; by rewrite Hp, transObjs_checkDataClone.
  - unfold remove. destruct (store_isOpen s w); [|done]. simpl.
    destruct (formListOfSerializedKeys _ _); simpl.
    + by rewrite transObjs_delete_rows, transObjs_checkDataClone.
    + apply transObjs_checkDataClone.
  - unfold clearAllData. destruct (store_isOpen s w); [|done]. simpl.
    apply transObjs_checkDataClone.
  - apply transObjs_checkDataClone.
  - unfold openIndex. destruct (find _ _); simpl; [|done]. apply transObjs_checkDataClone.
Qed.

Lemma transObjs_fold (f : sref → World → World) (ss : list sref) :
  (∀ s w, transObjs (f s w) = transObjs w) →
  ∀ w, transObjs (fold_left (λ w s, f s w) ss w) = transObjs w.
Proof. intros Hf. induction ss as [|s ss IH]; intros w; simpl; [done|]. by rewrite IH, Hf. Qed.

Lemma transObjs_clearTimeout h w : transObjs (clearTimeout h w) = transObjs w.
Proof. by destruct h. Qed.

Lemma holds_getStore t name s w : holds t name s w → getStore t name w = (Returned s, w).
Proof.
  intros (_ & Hin & Hreg). unfold getStore.
  rewrite bool_decide_eq_true_2 by done. simpl. by rewrite Hreg.
Qed.

Lemma holds_ext t name s w w' :
  length (transObjs w') = length (transObjs w) →
  tx_stores (trans_at t w') = tx_stores (trans_at t w) →
  _transToken (trans_at t w') = _transToken (trans_at t w) →
  holds t name s w → holds t name s w'.
Proof. unfold holds. by intros -> -> ->. Qed.

(** Every event but the abort of the transaction keeps the handle in its
    table. *)
Lemma step_keeps_handle a w t name s :
  a ≠ ActAbort t → holds t name s w → holds t name s (step a w).
Proof.
  intros Hne Hh. pose proof Hh as (Ht & Hin & Hreg).
  destruct a as [names wr|t' n'|t'|h|s' c]; simpl.
  - unfold holds, trans_at. simpl. rewrite length_app, lookup_total_app_l by done.
    split_and!; [lia|done..].
  - destruct (decide (n' ∈ storeNames (_transToken (trans_at t' w)))) as [Hin'|Hnin];
      [|unfold getStore; by rewrite bool_decide_eq_false_2].
    destruct (dict_get (tx_stores (trans_at t' w)) n') as [ims|] eqn:Hcache.
    { unfold getStore. rewrite bool_decide_eq_true_2 by done. simpl. by rewrite Hcache. }
    destruct (internal_getStore n' w) as [store|] eqn:Hstore;
      [|unfold getStore; rewrite bool_decide_eq_true_2 by done; simpl; by rewrite Hcache, Hstore].
    rewrite (getStore_new w t' n' store) by done. unfold new_InMemoryStore. cbn [snd].
    unfold holds. rewrite length_transObjs_update.
    change (transObjs (set_storeObjs ?f w)) with (transObjs w).
    destruct (decide (t' = t)) as [->|Hne'].
    + rewrite trans_at_update_eq by done.
      change (trans_at t (set_storeObjs ?f w)) with (trans_at t w). simpl.
      split_and!; [done..|]. rewrite dict_get_set_ne; [done|]. intros ->. congruence.
    + rewrite trans_at_update_ne by done. done.
  - assert (Hne' : t' ≠ t) by congruence.
    unfold abort. set (w1 := fold_left _ _ w).
    assert (Htr1 : transObjs w1 = transObjs w).
    { unfold w1. by apply transObjs_fold. }
    unfold holds, trans_at. simpl. rewrite transObjs_clearTimeout. simpl.
    rewrite length_insert, list_lookup_total_insert_ne, Htr1 by done. done.
  - unfold tick. destruct (timer_pending h w) as [t'|]; [|done].
    unfold timer_callback.
    set (w0 := update_trans t' (with_openTimer None) (clearTimeout (Some h) w)).
    assert (Hh0 : holds t name s w0).
    { unfold holds, w0. rewrite length_transObjs_update. simpl.
      destruct (decide (t' = t)) as [->|Hne'].
      - by rewrite trans_at_update_eq.
      - by rewrite trans_at_update_ne. }
    apply (holds_ext t name s w0); [| | |done].
    + simpl. unfold _commitTransaction. by rewrite transObjs_fold.
    + unfold trans_at. simpl. unfold _commitTransaction. by rewrite transObjs_fold.
    + unfold trans_at. simpl. unfold _commitTransaction. by rewrite transObjs_fold.
  - apply (holds_ext t name s w); [| | |done]; unfold trans_at; by rewrite transObjs_call.
Qed.

(** C7 (amended). [getStore(name)] fails, with a "Store not found" error,
    exactly when [name] is not among the store names of the transaction's
    token or the provider has no store of that name; otherwise it returns a
    store handle, and every repeated [getStore] call with the same name on
    the same transaction returns the same handle as the first call as long
    as the transaction has not been aborted in between. *)
Theorem getStore_spec w t name :
  wf w →
  (∀ e, (getStore t name w).1 = Threw e → NotFound e) ∧
  ((∃ e, (getStore t name w).1 = Threw e) ↔
     name ∉ storeNames (_transToken (trans_at t w)) ∨ internal_getStore name w = None) ∧
  (∀ s w1, getStore t name w = (Returned s, w1) →
     ∀ acts, ActAbort t ∉ acts →
       getStore t name (run acts w1) = (Returned s, run acts w1)).
Proof.
  intros Hwf. split_and!.
  - intros e. unfold getStore, NotFound.
    destruct (bool_decide _); simpl; [|intros [= <-]; eauto].
    destruct (dict_get _ _); [done|].
    destruct (internal_getStore name w); [done|]. intros [= <-]; eauto.
  - destruct (decide (name ∈ storeNames (_transToken (trans_at t w)))) as [Hin|Hnin].
    + pose proof (getStore_valid w t name Hin) as Ht.
      unfold getStore. rewrite bool_decide_eq_true_2 by done. simpl.
      destruct (dict_get (tx_stores (trans_at t w)) name) as [ims|] eqn:Hcache.
      * split; [by intros [e ?]|]. intros [?|Hnone]; [done|].
        apply dict_get_Some_elem in Hcache.
        destruct (wf_transs _ Hwf t Ht) as [_ Hall], (Hall name ims Hcache) as (_ & _ & sd & Hsd & _).
        unfold internal_getStore in Hnone. congruence.
      * destruct (internal_getStore name w) eqn:Hstore; simpl.
        -- split; [by intros [e ?]|]. intros [?|?]; done.
        -- split; [auto|eauto].
    + unfold getStore. rewrite bool_decide_eq_false_2 by done. simpl. split; [auto|eauto].
  - intros s w1 Hget acts.
    destruct (getStore_returned w t name s w1 Hwf Hget) as (_ & Ht & Hreg & Hin & _).
    assert (Hh : holds t name s w1) by done. clear Hget Ht Hreg Hin.
    revert w1 Hh. induction acts as [|a acts IH]; intros w1 Hh Hnin; simpl.
    + by apply holds_getStore.
    + apply not_elem_of_cons in Hnin as [Hne Hnin].
      apply IH; [|done]. apply step_keeps_handle; [congruence|done].
Qed.

(** [abort] leaves [_openTimer] as it is: the transaction reads as open
    after it as before. *)
Lemma abort_keeps_isOpen t w : internal_isOpen t (abort t w) = internal_isOpen t w.
Proof.
  unfold abort. set (w1 := fold_left _ _ w).
  assert (Htr1 : transObjs w1 = transObjs w) by (unfold w1; by apply transObjs_fold).
  unfold internal_isOpen, trans_at. simpl. rewrite transObjs_clearTimeout. simpl.
  destruct (decide (t < length (transObjs w1))%nat) as [Hlt|Hge].
  - rewrite list_lookup_total_insert_eq by done. simpl. unfold trans_at. by rewrite Htr1.
  - rewrite list_insert_ge by lia. by rewrite Htr1.
Qed.

(** Once [_openTimer] is unset it stays unset: nothing but the constructor
    assigns a handle to it. *)
Lemma step_keeps_closed a w t :
  (t < length (transObjs w))%nat → internal_isOpen t w = false →
  (t < length (transObjs (step a w)))%nat ∧ internal_isOpen t (step a w) = false.
Proof.
  intros Ht Hclosed.
  assert (Hext : ∀ w', length (transObjs w') = length (transObjs w) →
            _openTimer (trans_at t w') = _openTimer (trans_at t w) →
            (t < length (transObjs w'))%nat ∧ internal_isOpen t w' = false).
  { intros w' Hl Ho. unfold internal_isOpen in *. rewrite Hl, Ho. done. }
  destruct a as [names wr|t' n'|t'|h|s' c]; simpl.
  - unfold internal_isOpen, trans_at in *. simpl.
    rewrite length_app, lookup_total_app_l by done. split; [lia|done].
  - destruct (decide (n' ∈ storeNames (_transToken (trans_at t' w)))) as [Hin'|Hnin];
      [|unfold getStore; by rewrite bool_decide_eq_false_2].
    destruct (dict_get (tx_stores (trans_at t' w)) n') as [ims|] eqn:Hcache.
    { unfold getStore. rewrite bool_decide_eq_true_2 by done. simpl. by rewrite Hcache. }
    destruct (internal_getStore n' w) as [store|] eqn:Hstore;
      [|unfold getStore; rewrite bool_decide_eq_true_2 by done; simpl; by rewrite Hcache, Hstore].
    rewrite (getStore_new w t' n' store) by done. unfold new_InMemoryStore. cbn [snd].
    apply Hext; [by rewrite length_transObjs_update|].
    destruct (decide (t' = t)) as [->|Hne'].
    + by rewrite trans_at_update_eq.
    + by rewrite trans_at_update_ne.
  - unfold abort. set (w1 := fold_left _ _ w).
    assert (Htr1 : transObjs w1 = transObjs w) by (unfold w1; by apply transObjs_fold).
    set (w3 := notify _ _). apply (Hext w3); unfold w3.
    + simpl. by rewrite transObjs_clearTimeout, length_transObjs_update, Htr1.
    + unfold trans_at. simpl. rewrite transObjs_clearTimeout. simpl.
      destruct (decide (t' = t)) as [->|Hne'].
      * rewrite list_lookup_total_insert_eq by (by rewrite Htr1). simpl.
        unfold trans_at. by rewrite Htr1.
      * rewrite list_lookup_total_insert_ne by done. by rewrite Htr1.
  - unfold tick. destruct (timer_pending h w) as [t'|]; [|done].
    unfold timer_callback, internal_isOpen, trans_at in *. simpl.
    unfold _commitTransaction. rewrite transObjs_fold by done. simpl.
    rewrite length_insert.
    destruct (decide (t' = t)) as [->|Hne'].
    + by rewrite list_lookup_total_insert_eq.
    + by rewrite list_lookup_total_insert_ne.
  - apply Hext; [by rewrite transObjs_call|]. unfold trans_at. by rewrite transObjs_call.
Qed.

(** The scheduled commit closes the transaction: from then on, whatever
    happens, every call on a store handle of the transaction and every
    query on an index of it is rejected. *)
Lemma commit_closes w t acts :
  wf w → (t < length (transObjs w))%nat →
  let w' := run acts (timer_callback t w) in
  internal_isOpen t w' = false ∧
  (∀ s key, st_trans (store_at s w') = t →
     get s key w' = Rejected TransactionClosed ∧
     getMultiple s key w' = Rejected TransactionClosed ∧
     (put s key w').1 = Rejected TransactionClosed ∧
     (remove s key w').1 = Rejected TransactionClosed ∧
     (clearAllData s w').1 = Rejected TransactionClosed) ∧
  (∀ ix low high lowEx highEx reverse limit offset, ix_trans ix = t →
     getAll ix reverse limit offset w' = Rejected TransactionClosed ∧
     getOnly ix low reverse limit offset w' = Rejected TransactionClosed ∧
     getRange ix low high lowEx highEx reverse limit offset w' = Rejected TransactionClosed ∧
     countAll ix w' = Rejected TransactionClosed ∧
     countOnly ix low w' = Rejected TransactionClosed ∧
     countRange ix low high lowEx highEx w' = Rejected TransactionClosed).
Proof.
  intros Hwf Ht w'.
  assert (Hclosed : (t < length (transObjs w'))%nat ∧ internal_isOpen t w' = false).
  { unfold w'. destruct (timer_callback_effect w t Hwf Ht) as (_ & Hc & _).
    assert (Ht0 : (t < length (transObjs (timer_callback t w)))%nat).
    { unfold timer_callback, _commitTransaction. simpl. rewrite transObjs_fold by done.
      simpl. by rewrite length_insert. }
    clear Hwf Ht. revert Hc Ht0. generalize (timer_callback t w).
    induction acts as [|a acts IH]; intros w0 Hc Ht0; simpl; [done|].
    destruct (step_keeps_closed a w0 t Ht0 Hc). by apply IH. }
  destruct Hclosed as [_ Hclosed]. split_and!; [done| |].
  - intros s key Hs.
    unfold get, getMultiple, put, remove, clearAllData, store_isOpen.
    rewrite Hs, Hclosed. done.
  - intros ix low high lowEx highEx reverse limit offset Hix.
    unfold getOnly, countOnly, getAll, getRange, countAll, countRange.
    rewrite Hix, Hclosed. done.
Qed.

End Transactions.

(** ** Reads of falsy rows *)

Section Reads.
Context `{Collaborators}.

Lemma compact_truthy (l : list value) : Forall (λ v, truthy v = true) (compact l).
Proof.
  unfold compact. apply Forall_forall. intros v Hin.
  apply list_elem_of_In, List.filter_In in Hin. by destruct Hin.
Qed.

Lemma dict_index_delete (d : list (string * value)) (k k' : string) :
  dict_index (dict_delete d k) k' = if String.eqb k k' then VUndefined else dict_index d k'.
Proof. unfold dict_index. rewrite dict_get_delete. by destruct (String.eqb k k'). Qed.

Lemma compact_without (d : list (string * value)) (k : string) (keys : list string) :
  truthy (dict_index d k) = false →
  compact (map (dict_index d) keys) = compact (map (dict_index (dict_delete d k)) keys).
Proof.
  intros Hfalsy. unfold compact. induction keys as [|k' keys IH]; simpl; [done|].
  rewrite IH, dict_index_delete. destruct (String.eqb_spec k k') as [<-|Hne]; [|done].
  by rewrite Hfalsy.
Qed.

(** C9. For every stored row whose value is falsy, [getMultiple] with a
    key list that contains the key of that row leaves the row out of the
    returned sequence, which is the sequence it returns when that key is
    missing from the store, while [get] with the same key returns the row;
    [getMultiple] returns truthy rows only. *)
Theorem getMultiple_omits_falsy_rows s w key keyOrKeys keys k v :
  store_isOpen s w = true →
  serializeKeyToString key (primaryKeyPath (_storeSchema (store_at s w))) = Returned k →
  formListOfSerializedKeys keyOrKeys (primaryKeyPath (_storeSchema (store_at s w))) = Returned keys →
  k ∈ keys →
  dict_get (read_dict (_mergedData (store_at s w)) w) k = Some v →
  truthy v = false →
  get s key w = Resolved v ∧
  ∃ rows, getMultiple s keyOrKeys w = Resolved rows ∧
    (v ∉ rows) ∧ Forall (λ row, truthy row = true) rows ∧
    rows = compact (map (dict_index (dict_delete (read_dict (_mergedData (store_at s w)) w) k)) keys).
Proof.
  intros Hopen Hkey Hkeys Hin Hrow Hfalsy.
  assert (Hidx : dict_index (read_dict (_mergedData (store_at s w)) w) k = v).
  { unfold dict_index. by rewrite Hrow. }
  split.
  - unfold get. rewrite Hopen, Hkey. simpl. by rewrite Hidx.
  - eexists. split; [|split_and!].
    + unfold getMultiple. rewrite Hopen, Hkeys. done.
    + intros Hv. pose proof (compact_truthy (map (dict_index (read_dict (_mergedData (store_at s w)) w)) keys)) as Hall.
      rewrite Forall_forall in Hall. specialize (Hall v Hv). congruence.
    + apply compact_truthy.
    + apply compact_without. by rewrite Hidx.
Qed.

End Reads.

(** ** Opening the database *)

Section Opening.

Lemma open_snoc l x :
  open {| stores := l ++ [x] |} =
    set_prov_stores
      (λ p, dict_set p (store_name x)
              {| schema := x; data := length (heap (open {| stores := l |})) |})
      (alloc_dict [] (open {| stores := l |})).2.
Proof. unfold open. simpl. by rewrite fold_left_app. Qed.

Lemma open_shape l :
  let w := open {| stores := l |} in
  heap w = replicate (length l) [] ∧ storeObjs w = [] ∧ transObjs w = [] ∧
  timers w = [] ∧ lockHelper w = [].
Proof.
  induction l as [|x l IH] using rev_ind; [done|].
  rewrite open_snoc. simpl in *. destruct IH as (Hh & Hs & Ht & Hti & Hl).
  split_and!; try done.
  rewrite Hh, length_app. simpl. rewrite Nat.add_1_r.
  by rewrite replicate_S_end.
Qed.

Lemma open_lookup l name :
  dict_get (prov_stores (open {| stores := l |})) name =
    match list_find (λ x, store_name x = name) (rev l) with
    | Some (i, x) => Some {| schema := x; data := (length l - S i)%nat |}
    | None => None
    end.
Proof.
  induction l as [|x l IH] using rev_ind; [done|].
  rewrite open_snoc, rev_app_distr. simpl.
  rewrite dict_get_set.
  destruct (open_shape l) as (Hh & _). simpl in Hh. rewrite Hh, length_replicate.
  rewrite length_app. simpl.
  destruct (String.eqb_spec (store_name x) name) as [Heq|Hne].
  - rewrite decide_True by done. simpl. do 2 f_equal. lia.
  - rewrite decide_False by done. rewrite IH.
    destruct (list_find _ (rev l)) as [[i y]|]; simpl; [|done]. do 2 f_equal. lia.
Qed.

(** X1. [open] gives the provider one store per store name of the schema
    and none under any other name; each store has an empty data object of
    its own and the schema of the last store definition of that name; there
    are no transactions and no store handles yet. *)
Theorem open_creates_empty_stores dbSchema :
  let w := open dbSchema in
  (∀ name, internal_getStore name w = None ↔ name ∉ map store_name (stores dbSchema)) ∧
  (∀ name sd, internal_getStore name w = Some sd →
     store_name (schema sd) = name ∧ read_dict (data sd) w = [] ∧
     ∃ l1 l2, stores dbSchema = l1 ++ schema sd :: l2 ∧ name ∉ map store_name l2) ∧
  (∀ n1 n2 sd1 sd2, internal_getStore n1 w = Some sd1 → internal_getStore n2 w = Some sd2 →
     data sd1 = data sd2 → n1 = n2) ∧
  storeObjs w = [] ∧ transObjs w = [] ∧ timers w = [].
Proof.
  destruct dbSchema as [l]. intros w. unfold internal_getStore, w. simpl.
  destruct (open_shape l) as (Hh & Hs & Ht & Hti & _). simpl in *.
  split_and!; try done.
  - intros name. rewrite open_lookup.
    destruct (list_find _ (rev l)) as [[i x]|] eqn:Hfind.
    + apply list_find_Some in Hfind as (Hx & Hn & _). split; [done|]. intros Hnin.
      exfalso. apply Hnin. rewrite <- Hn. apply list_elem_of_fmap_2.
      apply list_elem_of_lookup_2 in Hx. by apply list_elem_of_In, in_rev, list_elem_of_In.
    + split; [|done]. intros _ [x [-> Hin]]%list_elem_of_fmap_1.
      apply list_find_None in Hfind. rewrite Forall_forall in Hfind.
      apply (Hfind x); [|done]. by apply list_elem_of_In, in_rev, list_elem_of_In in Hin.
  - intros name sd. rewrite open_lookup.
    destruct (list_find _ (rev l)) as [[i x]|] eqn:Hfind; [|done].
    intros [= <-]. simpl. apply list_find_Some in Hfind as (Hx & Hn & Hbefore).
    split_and!; [done| |].
    + unfold read_dict. rewrite Hh.
      pose proof (lookup_lt_Some _ _ _ Hx) as Hlt. rewrite length_rev in Hlt.
      apply list_lookup_total_correct, lookup_replicate_2. lia.
    + apply list_elem_of_split_length in Hx as (r1 & r2 & Hrev & Hi).
      exists (rev r2), (rev r1). split.
      * rewrite <- (rev_involutive l), Hrev, rev_app_distr. simpl. by rewrite <- app_assoc.
      * intros [y [Hy Hin]]%list_elem_of_fmap_1.
        apply list_elem_of_In, in_rev, list_elem_of_In, list_elem_of_lookup in Hin as [j Hj].
        apply (Hbefore j y); [|subst i; by apply lookup_lt_Some in Hj|done].
        rewrite Hrev. by rewrite lookup_app_l by (by apply lookup_lt_Some in Hj).
  - intros n1 n2 sd1 sd2. apply (wf_prov_inj _ (wf_open {| stores := l |})).
Qed.

End Opening.

(** ** The scheduled commit, and abort *)

Section Timers.
Context `{Collaborators}.

Lemma timers_checkDataClone s w : timers (_checkDataClone s w) = timers w.
Proof. unfold _checkDataClone. by destruct (_pendingCommitDataChanges _). Qed.

Lemma timers_put_each s items : ∀ w, timers (put_each s items w).2 = timers w.
Proof.
  induction items as [|item rest IH]; intros w; simpl; [done|].
  destruct (getSerializedKeyForKeypath _ _); [|done]. by rewrite IH.
Qed.

Lemma timers_delete_rows s keys : ∀ w,
  timers (fold_left (λ w key, delete_row s key w) keys w) = timers w.
Proof. induction keys as [|key rest IH]; intros w; simpl; [done|]. by rewrite IH. Qed.

Lemma timers_call s c w : timers (call s c w) = timers w.
Proof.
  destruct c; simpl; try done.
  - unfold put. destruct (store_isOpen s w); [|done]. simpl.
    pose proof (timers_put_each s (arrayify itemOrItems) (_checkDataClone s w)) as Hp.
    destruct (put_each _ _ _) as [[e|] w2]; simpl in *; by rewrite Hp, timers_checkDataClone.
  - unfold remove. destruct (store_isOpen s w); [|done]. simpl.
    destruct (formListOfSerializedKeys _ _); simpl.
    + by rewrite timers_delete_rows, timers_checkDataClone.
    + apply timers_checkDataClone.
  - unfold clearAllData. destruct (store_isOpen s w); [|done]. simpl.
    apply timers_checkDataClone.
  - apply timers_checkDataClone.
  - unfold openIndex. destruct (find _ _); simpl; [|done]. apply timers_checkDataClone.
Qed.

Lemma timers_fold (f : sref → World → World) (ss : list sref) :
  (∀ s w, timers (f s w) = timers w) →
  ∀ w, timers (fold_left (λ w s, f s w) ss w) = timers w.
Proof. intros Hf. induction ss as [|s ss IH]; intros w; simpl; [done|]. by rewrite IH, Hf. Qed.

Lemma lockHelper_fold (f : sref → World → World) (ss : list sref) :
  (∀ s w, lockHelper (f s w) = lockHelper w) →
  ∀ w, lockHelper (fold_left (λ w s, f s w) ss w) = lockHelper w.
Proof. intros Hf. induction ss as [|s ss IH]; intros w; simpl; [done|]. by rewrite IH, Hf. Qed.

Lemma timer_pending_elem h t w : timer_pending h w = Some t → (h, t) ∈ timers w.
Proof.
  unfold timer_pending. destruct (find _ _) as [[h' t']|] eqn:Hfind; [|done].
  intros [= <-]. apply find_some in Hfind as [Hin Heq]. simpl in *.
  apply Pos.eqb_eq in Heq. subst h'. by apply list_elem_of_In.
Qed.

Lemma elem_of_clearTimeout h0 h t w :
  (h, t) ∈ timers (clearTimeout (Some h0) w) ↔ (h, t) ∈ timers w ∧ h ≠ h0.
Proof.
  simpl. rewrite !list_elem_of_In, List.filter_In. simpl.
  rewrite negb_true_iff, Pos.eqb_neq. done.
Qed.

(** The commit loop and the rollback loop leave the transactions alone. *)
Lemma transObjs_commit t w : transObjs (_commitTransaction t w) = transObjs w.
Proof. unfold _commitTransaction. by apply transObjs_fold. Qed.

Lemma lockHelper_commit t w : lockHelper (_commitTransaction t w) = lockHelper w.
Proof. unfold _commitTransaction. by apply lockHelper_fold. Qed.

Lemma trans_at_abort t t' w :
  (t' < length (transObjs w))%nat →
  length (transObjs (abort t w)) = length (transObjs w) ∧
  _openTimer (trans_at t' (abort t w)) = _openTimer (trans_at t' w) ∧
  _transToken (trans_at t' (abort t w)) = _transToken (trans_at t' w).
Proof.
  intros Ht'. unfold abort. set (w1 := fold_left _ _ w).
  assert (Htr1 : transObjs w1 = transObjs w) by (unfold w1; by apply transObjs_fold).
  unfold trans_at. simpl. rewrite !transObjs_clearTimeout. simpl.
  rewrite length_insert, Htr1. split; [done|].
  destruct (decide (t = t')) as [->|Hne].
  - rewrite list_lookup_total_insert_eq by done. simpl. unfold trans_at. by rewrite Htr1.
  - by rewrite list_lookup_total_insert_ne.
Qed.

Lemma timers_abort t w :
  timers (abort t w) = timers (clearTimeout (_openTimer (trans_at t w)) w).
Proof.
  unfold abort. set (w1 := fold_left _ _ w).
  assert (Htr1 : transObjs w1 = transObjs w) by (unfold w1; by apply transObjs_fold).
  assert (Hti1 : timers w1 = timers w) by (unfold w1; by apply timers_fold).
  assert (Ho : _openTimer (trans_at t (update_trans t (with_stores []) w1))
               = _openTimer (trans_at t w)).
  { unfold trans_at. simpl.
    destruct (decide (t < length (transObjs w1))%nat) as [Hlt|Hge].
    - rewrite list_lookup_total_insert_eq by done. simpl. unfold trans_at. by rewrite Htr1.
    - rewrite list_insert_ge by lia. by rewrite Htr1. }
  simpl. rewrite Ho. destruct (_openTimer (trans_at t w)); simpl; by rewrite Hti1.
Qed.

Lemma trans_at_tick h t t' w :
  timer_pending h w = Some t → (t' < length (transObjs w))%nat →
  length (transObjs (tick h w)) = length (transObjs w) ∧
  trans_at t' (tick h w)
    = if decide (t' = t) then with_openTimer None (trans_at t w) else trans_at t' w.
Proof.
  intros Hp Ht'. unfold tick. rewrite Hp. unfold timer_callback, trans_at. simpl.
  rewrite transObjs_commit. simpl. rewrite length_insert. split; [done|].
  destruct (decide (t' = t)) as [->|Hne].
  - by rewrite list_lookup_total_insert_eq.
  - by rewrite list_lookup_total_insert_ne.
Qed.

Lemma timers_tick h t w :
  timer_pending h w = Some t → timers (tick h w) = timers (clearTimeout (Some h) w).
Proof.
  intros Hp. unfold tick. rewrite Hp. unfold timer_callback, _commitTransaction. simpl.
  by rewrite timers_fold.
Qed.

Lemma trans_at_getStore t name t' w :
  length (transObjs (getStore t name w).2) = length (transObjs w) ∧
  _openTimer (trans_at t' (getStore t name w).2) = _openTimer (trans_at t' w) ∧
  timers (getStore t name w).2 = timers w ∧
  nextTimer (getStore t name w).2 = nextTimer w.
Proof.
  unfold getStore. destruct (negb _); [done|].
  destruct (dict_get _ _); [done|]. destruct (internal_getStore name w); [|done].
  unfold new_InMemoryStore, trans_at. simpl. rewrite length_insert. split_and!; try done.
  destruct (decide (t < length (transObjs w))%nat) as [Hlt|Hge].
  - destruct (decide (t = t')) as [->|Hne].
    + by rewrite list_lookup_total_insert_eq.
    + by rewrite list_lookup_total_insert_ne.
  - by rewrite list_insert_ge by lia.
Qed.

Lemma nextTimer_checkDataClone s w : nextTimer (_checkDataClone s w) = nextTimer w.
Proof. unfold _checkDataClone. by destruct (_pendingCommitDataChanges _). Qed.

Lemma nextTimer_put_each s items : ∀ w, nextTimer (put_each s items w).2 = nextTimer w.
Proof.
  induction items as [|item rest IH]; intros w; simpl; [done|].
  destruct (getSerializedKeyForKeypath _ _); [|done]. by rewrite IH.
Qed.

Lemma nextTimer_delete_rows s keys : ∀ w,
  nextTimer (fold_left (λ w key, delete_row s key w) keys w) = nextTimer w.
Proof. induction keys as [|key rest IH]; intros w; simpl; [done|]. by rewrite IH. Qed.

Lemma nextTimer_call s c w : nextTimer (call s c w) = nextTimer w.
Proof.
  destruct c; simpl; try done.
  - unfold put. destruct (store_isOpen s w); [|done]. simpl.
    pose proof (nextTimer_put_each s (arrayify itemOrItems) (_checkDataClone s w)) as Hp.
    destruct (put_each _ _ _) as [[e|] w2]; simpl in *; by rewrite Hp, nextTimer_checkDataClone.
  - unfold remove. destruct (store_isOpen s w); [|done]. simpl.
    destruct (formListOfSerializedKeys _ _); simpl.
    + by rewrite nextTimer_delete_rows, nextTimer_checkDataClone.
    + apply nextTimer_checkDataClone.
  - unfold clearAllData. destruct (store_isOpen s w); [|done]. simpl.
    apply nextTimer_checkDataClone.
  - apply nextTimer_checkDataClone.
  - unfold openIndex. destruct (find _ _); simpl; [|done]. apply nextTimer_checkDataClone.
Qed.

Lemma nextTimer_fold (f : sref → World → World) (ss : list sref) :
  (∀ s w, nextTimer (f s w) = nextTimer w) →
  ∀ w, nextTimer (fold_left (λ w s, f s w) ss w) = nextTimer w.
Proof. intros Hf. induction ss as [|s ss IH]; intros w; simpl; [done|]. by rewrite IH, Hf. Qed.

Lemma nextTimer_abort t w : nextTimer (abort t w) = nextTimer w.
Proof.
  unfold abort. set (w1 := fold_left _ _ w).
  assert (Hn1 : nextTimer w1 = nextTimer w) by (unfold w1; by apply nextTimer_fold).
  simpl. destruct (_openTimer _); simpl; done.
Qed.

Lemma nextTimer_tick h w : nextTimer (tick h w) = nextTimer w.
Proof.
  unfold tick. destruct (timer_pending h w); [|done].
  unfold timer_callback, _commitTransaction. simpl. by rewrite nextTimer_fold.
Qed.

Lemma timers_ok_step a w : timers_ok w → timers_ok (step a w).
Proof.
  intros Hok. destruct a as [names wr|t n|t|h|s c]; cbn [step].
  - intros h t. unfold trans_at. simpl. rewrite length_app. simpl.
    intros [Hin|Heq]%elem_of_app.
    + destruct (Hok h t Hin) as (Hlt & Ho & Hh). split_and!; [lia| |lia].
      by rewrite lookup_total_app_l.
    + apply list_elem_of_singleton in Heq. injection Heq as -> ->. split_and!; [lia| |lia].
      rewrite lookup_total_app_r by lia. by rewrite Nat.sub_diag.
  - intros h t'. destruct (trans_at_getStore t n t' w) as (Hl & Ho & Hti & Hn).
    rewrite Hti, Hl, Ho, Hn. apply Hok.
  - intros h t'. rewrite timers_abort, nextTimer_abort. intros Hin.
    assert (Hin' : (h, t') ∈ timers w).
    { destruct (_openTimer (trans_at t w)); [by apply elem_of_clearTimeout in Hin as [? _]|done]. }
    destruct (Hok h t' Hin') as (Hlt & Ho & Hh).
    destruct (trans_at_abort t t' w Hlt) as (Hl & Ho' & _). by rewrite Hl, Ho'.
  - destruct (timer_pending h w) as [t|] eqn:Hp; [|unfold tick; by rewrite Hp].
    intros h' t'. rewrite (timers_tick h t), (nextTimer_tick h) by done.
    intros [Hin Hne]%elem_of_clearTimeout.
    destruct (Hok h' t' Hin) as (Hlt & Ho & Hh).
    destruct (trans_at_tick h t t' w Hp Hlt) as [Hl Htx]. rewrite Hl, Htx. split_and!; [done| |done].
    destruct (decide (t' = t)) as [->|_]; [|done].
    apply timer_pending_elem in Hp. destruct (Hok h t Hp) as (_ & Ho2 & _). congruence.
  - intros h t. rewrite timers_call, nextTimer_call. unfold trans_at. rewrite transObjs_call.
    apply Hok.
Qed.

(** The worlds a valid run of events leads to are reachable. *)
Lemma reachable_run acts : ∀ w, reachable w → valid_run acts w → reachable (run acts w).
Proof.
  induction acts as [|a acts IH]; intros w Hr Hv; [done|].
  destruct Hv as [Ha Hv]. apply IH; [by apply reach_step|done].
Qed.

Lemma timers_ok_reachable w : reachable w → timers_ok w.
Proof.
  induction 1 as [[l]|w a _ IH _]; [|by apply timers_ok_step].
  intros h t. destruct (open_shape l) as (_ & _ & _ & Hti & _). simpl in Hti.
  rewrite Hti. by intros ?%elem_of_nil.
Qed.

(** X2. Every world the system can reach is well formed (an unforked
    handle reads the provider's own object and a forked one an object
    nothing else refers to, the handles of a transaction are on distinct
    stores of the provider, no object has a property twice), and every
    pending timer is the one its transaction holds in [_openTimer]. *)
Theorem reachable_worlds_invariant w : reachable w → wf w ∧ timers_ok w.
Proof. intros Hr. split; [by apply wf_reachable|by apply timers_ok_reachable]. Qed.

Lemma length_transObjs_step a w : (length (transObjs w) ≤ length (transObjs (step a w)))%nat.
Proof.
  destruct a as [names wr|t n|t|h|s c]; simpl.
  - rewrite length_app. lia.
  - by destruct (trans_at_getStore t n 0%nat w) as (-> & _).
  - unfold abort. simpl. rewrite transObjs_clearTimeout. simpl.
    rewrite length_insert, transObjs_fold by done. done.
  - unfold tick. destruct (timer_pending h w); [|done].
    unfold timer_callback. simpl. rewrite transObjs_commit. simpl.
    by rewrite length_insert.
  - by rewrite transObjs_call.
Qed.

Lemma timers_step a w h t :
  (h, t) ∈ timers (step a w) → (h, t) ∈ timers w ∨ t = length (transObjs w).
Proof.
  destruct a as [names wr|t0 n|t0|h0|s c]; cbn [step].
  - simpl. intros [Hin|Heq]%elem_of_app; [by left|].
    apply list_elem_of_singleton in Heq. injection Heq as -> ->. by right.
  - destruct (trans_at_getStore t0 n 0%nat w) as (_ & _ & -> & _). by left.
  - rewrite timers_abort. intros Hin. left.
    destruct (_openTimer (trans_at t0 w)); [by apply elem_of_clearTimeout in Hin as [? _]|done].
  - destruct (timer_pending h0 w) as [t1|] eqn:Hp; [|unfold tick; rewrite Hp; by left].
    rewrite (timers_tick h0 t1) by done. intros [Hin _]%elem_of_clearTimeout. by left.
  - rewrite timers_call. by left.
Qed.

Lemma unscheduled_run acts : ∀ w t,
  (t < length (transObjs w))%nat → (∀ h, (h, t) ∉ timers w) →
  ∀ h, (h, t) ∉ timers (run acts w).
Proof.
  induction acts as [|a acts IH]; intros w t Ht Hun; simpl; [done|].
  apply IH.
  - pose proof (length_transObjs_step a w). lia.
  - intros h [Hin|Heq]%timers_step; [by apply (Hun h)|lia].
Qed.

Lemma unscheduled_pending t w : (∀ h, (h, t) ∉ timers w) → unscheduled t w.
Proof. intros Hun h Hp%timer_pending_elem. by apply (Hun h). Qed.

Lemma find_app_first {A} (f : A → bool) (l1 l2 : list A) :
  find f (l1 ++ l2) = match find f l1 with Some x => Some x | None => find f l2 end.
Proof. induction l1 as [|x l1 IH]; simpl; [done|]. by destruct (f x). Qed.

(** X3. A transaction stays open until the event loop runs its own
    timer: as long as that has not happened, whatever else happens (calls,
    other transactions opening, committing or aborting, even its own
    [abort]), [internal_isOpen] answers true. *)
Theorem transaction_open_until_its_timer_runs w names writeNeeded acts :
  reachable w → ActTick (nextTimer w) ∉ acts →
  let t := (openTransaction names writeNeeded w).1 in
  let w1 := (openTransaction names writeNeeded w).2 in
  internal_isOpen t w1 = true ∧ tx_stores (trans_at t w1) = [] ∧
  timer_pending (nextTimer w) w1 = Some t ∧
  internal_isOpen t (run acts w1) = true.
Proof.
  intros Hr Hnin t w1.
  pose proof (timers_ok_reachable w Hr) as Hok.
  assert (Hok1 : timers_ok w1) by (apply (timers_ok_step (ActOpenTransaction names writeNeeded)), Hok).
  assert (Ht1 : (t < length (transObjs w1))%nat).
  { unfold t, w1. simpl. rewrite length_app. simpl. lia. }
  assert (Hopen1 : _openTimer (trans_at t w1) = Some (nextTimer w)).
  { unfold t, w1, trans_at. simpl. rewrite lookup_total_app_r by lia. by rewrite Nat.sub_diag. }
  split_and!.
  - unfold internal_isOpen. by rewrite Hopen1.
  - unfold t, w1, trans_at. simpl. rewrite lookup_total_app_r by lia. by rewrite Nat.sub_diag.
  - unfold timer_pending, w1. simpl. rewrite find_app_first.
    destruct (find (λ ht : positive * tref, Pos.eqb ht.1 (nextTimer w)) (timers w))
      as [[h' t']|] eqn:Hfind.
    + apply find_some in Hfind as [Hin Heq]. simpl in Heq. apply Pos.eqb_eq in Heq. subst h'.
      apply list_elem_of_In in Hin. destruct (Hok _ _ Hin) as (_ & _ & Hlt).
      exfalso. by apply Pos.lt_irrefl in Hlt.
    + simpl. by rewrite Pos.eqb_refl.
  - clearbody t w1. clear Hr Hok. revert w1 Hok1 Ht1 Hopen1.
    induction acts as [|a acts IH]; intros w1 Hok1 Ht1 Hopen1; simpl.
    + unfold internal_isOpen. by rewrite Hopen1.
    + apply not_elem_of_cons in Hnin as [Hne Hnin]. apply IH; [done| | |].
      * by apply timers_ok_step.
      * pose proof (length_transObjs_step a w1). lia.
      * destruct a as [names' wr'|t' n'|t'|h'|s' c']; cbn [step].
        -- unfold trans_at. simpl. by rewrite lookup_total_app_l.
        -- destruct (trans_at_getStore t' n' t w1) as (_ & -> & _). done.
        -- destruct (trans_at_abort t' t w1 Ht1) as (_ & -> & _). done.
        -- destruct (timer_pending h' w1) as [t'|] eqn:Hp; [|unfold tick; by rewrite Hp].
           destruct (trans_at_tick h' t' t w1 Hp Ht1) as [_ ->].
           destruct (decide _) as [<-|_]; [|done]. exfalso.
           apply timer_pending_elem in Hp. destruct (Hok1 _ _ Hp) as (_ & Ho & _). congruence.
        -- unfold trans_at. by rewrite transObjs_call.
Qed.

(** X4. [abort] tells the lock helper that the transaction failed, with
    the message 'InMemoryTransaction Aborted', and cancels the scheduled
    commit: whatever happens afterwards, no pending timer commits the
    transaction, so no event of the event loop ever runs its commit. *)
Theorem abort_cancels_scheduled_commit w t acts :
  reachable w → (t < length (transObjs w))%nat →
  lockHelper (abort t w)
    = lockHelper w ++ [transactionFailed (_transToken (trans_at t w)) "InMemoryTransaction Aborted"] ∧
  unscheduled t (run acts (abort t w)).
Proof.
  intros Hr Ht. pose proof (timers_ok_reachable w Hr) as Hok. split.
  - unfold abort. set (w1 := fold_left _ _ w).
    assert (Htr1 : transObjs w1 = transObjs w) by (unfold w1; by apply transObjs_fold).
    assert (Hl1 : lockHelper w1 = lockHelper w) by (unfold w1; by apply lockHelper_fold).
    set (w2 := update_trans t (with_stores []) w1). set (w3 := clearTimeout _ w2).
    change (lockHelper (notify ?e w3)) with (lockHelper w3 ++ [e]).
    assert (Hl3 : lockHelper w3 = lockHelper w).
    { unfold w3. by destruct (_openTimer _). }
    assert (Htok : _transToken (trans_at t w3) = _transToken (trans_at t w)).
    { unfold trans_at, w3. rewrite transObjs_clearTimeout. unfold w2. simpl.
      rewrite list_lookup_total_insert_eq by (by rewrite Htr1). simpl.
      unfold trans_at. by rewrite Htr1. }
    by rewrite Hl3, Htok.
  - apply unscheduled_pending, unscheduled_run.
    + by destruct (trans_at_abort t t w Ht) as (-> & _).
    + intros h. rewrite timers_abort. intros Hin.
      destruct (_openTimer (trans_at t w)) as [h0|] eqn:Ho.
      * apply elem_of_clearTimeout in Hin as [Hin Hne].
        destruct (Hok h t Hin) as (_ & Ho' & _). congruence.
      * destruct (Hok h t Hin) as (_ & Ho' & _). congruence.
Qed.

(** X5. When the event loop runs the timer of a transaction, the
    transaction was open until then; the lock helper is told that it is
    complete; from then on, whatever happens, the transaction is closed,
    every call on its store handles and every query on its indexes is
    rejected, and its commit does not run a second time. *)
Theorem scheduled_commit_runs_once_and_closes w h t acts :
  reachable w → timer_pending h w = Some t →
  internal_isOpen t w = true ∧
  lockHelper (tick h w) = lockHelper w ++ [transactionComplete (_transToken (trans_at t w))] ∧
  let w' := run acts (tick h w) in
  internal_isOpen t w' = false ∧ unscheduled t w' ∧
  (∀ s key, st_trans (store_at s w') = t →
     get s key w' = Rejected TransactionClosed ∧
     getMultiple s key w' = Rejected TransactionClosed ∧
     (put s key w').1 = Rejected TransactionClosed ∧
     (remove s key w').1 = Rejected TransactionClosed ∧
     (clearAllData s w').1 = Rejected TransactionClosed) ∧
  (∀ ix low high lowEx highEx reverse limit offset, ix_trans ix = t →
     getAll ix reverse limit offset w' = Rejected TransactionClosed ∧
     getOnly ix low reverse limit offset w' = Rejected TransactionClosed ∧
     getRange ix low high lowEx highEx reverse limit offset w' = Rejected TransactionClosed ∧
     countAll ix w' = Rejected TransactionClosed ∧
     countOnly ix low w' = Rejected TransactionClosed ∧
     countRange ix low high lowEx highEx w' = Rejected TransactionClosed).
Proof.
  intros Hr Hp.
  pose proof (timers_ok_reachable w Hr) as Hok. pose proof (wf_reachable w Hr) as Hwf.
  pose proof (timer_pending_elem h t w Hp) as Hin.
  destruct (Hok h t Hin) as (Ht & Ho & _).
  destruct (trans_at_tick h t t w Hp Ht) as [Hl Htx].
  split_and!.
  - unfold internal_isOpen. by rewrite Ho.
  - unfold tick. rewrite Hp. unfold timer_callback. simpl.
    rewrite lockHelper_commit. simpl. do 3 f_equal.
    unfold trans_at. rewrite transObjs_commit. simpl.
    by rewrite list_lookup_total_insert_eq.
  - intros w'.
    assert (Htick : tick h w = timer_callback t (clearTimeout (Some h) w)).
    { unfold tick. by rewrite Hp. }
    destruct (commit_closes (clearTimeout (Some h) w) t acts) as (Hclosed & Hst & Hix).
    { by apply wf_clearTimeout. }
    { done. }
    rewrite <- Htick in Hclosed, Hst, Hix. fold w' in Hclosed, Hst, Hix.
    split_and!; try done.
    apply unscheduled_pending, unscheduled_run; [by rewrite Hl|].
    intros h'. rewrite (timers_tick h t) by done.
    intros [Hin' Hne]%elem_of_clearTimeout.
    destruct (Hok h' t Hin') as (_ & Ho' & _). congruence.
Qed.

(** What the scheduled commit of [t] leaves alone. *)
Lemma timer_callback_frame w t :
  wf w → (t < length (transObjs w))%nat →
  let w' := timer_callback t w in
  (∀ t', t' ≠ t → trans_at t' w' = trans_at t' w) ∧
  tx_stores (trans_at t w') = tx_stores (trans_at t w) ∧
  length (transObjs w') = length (transObjs w) ∧
  length (storeObjs w') = length (storeObjs w) ∧
  (∀ s, (s < length (storeObjs w))%nat → s ∉ dict_values (tx_stores (trans_at t w)) →
     store_at s w' = store_at s w) ∧
  (∀ l, (∀ s, s ∈ dict_values (tx_stores (trans_at t w)) → l ≠ _committedStoreData (store_at s w)) →
     read_dict l w' = read_dict l w).
Proof.
  intros Hwf Ht w'. unfold w', timer_callback.
  set (w0 := update_trans t (with_openTimer None) w).
  assert (Hwf0 : wf w0) by (apply wf_update_trans; auto).
  assert (Htx0 : trans_at t w0 = with_openTimer None (trans_at t w)).
  { unfold w0. by rewrite trans_at_update_eq. }
  assert (Ht0 : (t < length (transObjs w0))%nat).
  { unfold w0. by rewrite length_transObjs_update. }
  destruct (tx_stores_distinct w0 t Hwf0 Ht0) as [Hnd Hvalid].
  destruct (commit_fold _ w0 Hwf0 Hvalid Hnd) as (Hp & Htr & Hl & Hs & _ & Hfr).
  unfold _commitTransaction. set (w1 := fold_left _ _ w0) in *.
  rewrite Htx0 in Hs, Hfr. simpl in Hs, Hfr.
  split_and!.
  - intros t' Hne. unfold trans_at. simpl. rewrite Htr. fold (trans_at t' w0).
    unfold w0. by rewrite trans_at_update_ne.
  - unfold trans_at. simpl. rewrite Htr. fold (trans_at t w0). by rewrite Htx0.
  - simpl. rewrite Htr. unfold w0. by rewrite length_transObjs_update.
  - simpl. by rewrite Hl.
  - intros s Hlt Hnin. change (store_at s (notify ?e w1)) with (store_at s w1).
    rewrite Hs by done. by rewrite decide_False.
  - intros l Hl'. change (read_dict ?l (notify ?e w1)) with (read_dict l w1).
    by apply Hfr.
Qed.

Lemma dict_index_replay (p c : list (string * value)) k :
  NoDup (dict_keys p) →
  dict_index (replay p c) k
    = match dict_get p k with Some v => v | None => dict_index c k end.
Proof.
  intros Hnd. unfold dict_index. rewrite dict_get_replay by done.
  destruct (dict_get p k) as [v|]; [|done].
  destruct (is_undefined v) eqn:Hu; [|done]. by apply is_undefined_eq in Hu as ->.
Qed.

Lemma NoDup_pending w s :
  wf w → (s < length (storeObjs w))%nat →
  NoDup (dict_keys (default [] (_pendingCommitDataChanges (store_at s w)))).
Proof.
  intros Hwf Hs. destruct (wf_stores _ Hwf s Hs) as [_ Hm].
  destruct (_pendingCommitDataChanges (store_at s w)); simpl; [by destruct Hm|constructor].
Qed.

(** X6. The commit of one transaction and the handles of another: a
    handle that has forked goes on reading its own copy, so its reads do not
    change; a handle that has not forked reads the provider's object, so it
    sees the committed changes at once: for a key the committing handle
    wrote or removed it reads the written row or [undefined], for any other
    key what it read before. *)
Theorem commit_seen_by_unforked_handles_only w t1 s2 :
  wf w → (t1 < length (transObjs w))%nat → (s2 < length (storeObjs w))%nat →
  st_trans (store_at s2 w) ≠ t1 →
  let w' := timer_callback t1 w in
  store_at s2 w' = store_at s2 w ∧ store_isOpen s2 w' = store_isOpen s2 w ∧
  (forked s2 w → ∀ key keyOrKeys,
     get s2 key w' = get s2 key w ∧ getMultiple s2 keyOrKeys w' = getMultiple s2 keyOrKeys w) ∧
  (¬ forked s2 w → ∀ name s1 key k,
     (name, s1) ∈ tx_stores (trans_at t1 w) →
     _committedStoreData (store_at s1 w) = _committedStoreData (store_at s2 w) →
     store_isOpen s2 w = true →
     serializeKeyToString key (primaryKeyPath (_storeSchema (store_at s2 w))) = Returned k →
     get s2 key w' =
       Resolved (match dict_get (default [] (_pendingCommitDataChanges (store_at s1 w))) k with
                 | Some v => v
                 | None => dict_index (read_dict (_mergedData (store_at s2 w)) w) k
                 end)).
Proof.
  intros Hwf Ht1 Hs2 Hne w'.
  destruct (timer_callback_frame w t1 Hwf Ht1) as (Htx & _ & _ & _ & Hst & Hfr). fold w' in Htx, Hst, Hfr.
  destruct (wf_transs _ Hwf t1 Ht1) as [_ Hreg].
  assert (Hnin : s2 ∉ dict_values (tx_stores (trans_at t1 w))).
  { intros [[n s] [-> Hin]]%list_elem_of_fmap_1. by destruct (Hreg n s Hin) as (_ & ? & _). }
  assert (Hst2 : store_at s2 w' = store_at s2 w) by (by apply Hst).
  assert (Hopen : store_isOpen s2 w' = store_isOpen s2 w).
  { unfold store_isOpen, internal_isOpen. rewrite Hst2. by rewrite Htx. }
  split_and!; [done|done| |].
  - intros Hf key keyOrKeys.
    assert (Hrd : read_dict (_mergedData (store_at s2 w)) w' = read_dict (_mergedData (store_at s2 w)) w).
    { apply Hfr. intros s [[n s'] [-> Hin]]%list_elem_of_fmap_1 Heq. simpl in Heq.
      destruct (Hreg n s' Hin) as (Hs' & _).
      destruct (wf_stores _ Hwf s' Hs') as [Hc _].
      destruct (wf_stores _ Hwf s2 Hs2) as [_ Hm]. destruct Hf as [p Hp]. rewrite Hp in Hm.
      destruct Hm as (_ & _ & Hncl & _). apply Hncl. by rewrite Heq. }
    unfold get, getMultiple. by rewrite Hopen, Hst2, Hrd.
  - intros Hnf name s1 key k Hin Hsame Hopen2 Hkey.
    destruct (Hreg name s1 Hin) as (Hs1 & _).
    destruct (timer_callback_effect w t1 Hwf Ht1) as (_ & _ & Hcommit).
    destruct (Hcommit name s1 Hin) as [_ Hc]. fold w' in Hc.
    destruct (wf_stores _ Hwf s2 Hs2) as [_ Hm].
    destruct (_pendingCommitDataChanges (store_at s2 w)) as [p|] eqn:Hp;
      [destruct Hnf; by exists p|].
    unfold get. rewrite Hopen, Hopen2, Hst2, Hkey. simpl. f_equal.
    rewrite Hm, <- Hsame, Hc. apply dict_index_replay. by apply NoDup_pending.
Qed.

(** X7. Two transactions that both changed the same store and commit one
    after the other: the committed data ends with, for every key, what the
    second one wrote (or nothing if it removed the key), else what the first
    one wrote, else what was committed before.  The second commit replays
    its own changes only and nothing is checked for conflicts: it keeps the
    first one's writes to other keys and overwrites its writes to the same
    keys. *)
Theorem later_commit_wins_per_key w t1 t2 name s1 s2 :
  wf w → t1 ≠ t2 →
  (name, s1) ∈ tx_stores (trans_at t1 w) → (name, s2) ∈ tx_stores (trans_at t2 w) →
  let c := _committedStoreData (store_at s1 w) in
  let outcome (p : option (list (string * value))) (before : option value) k :=
    match dict_get (default [] p) k with
    | Some v => if is_undefined v then None else Some v
    | None => before
    end in
  _committedStoreData (store_at s2 w) = c ∧
  ∀ k, dict_get (read_dict c (timer_callback t2 (timer_callback t1 w))) k
       = outcome (_pendingCommitDataChanges (store_at s2 w))
           (outcome (_pendingCommitDataChanges (store_at s1 w)) (dict_get (read_dict c w) k) k) k.
Proof.
  intros Hwf Hne Hin1 Hin2 c outcome.
  assert (Hvalid : ∀ t n s, (n, s) ∈ tx_stores (trans_at t w) → (t < length (transObjs w))%nat).
  { intros t n s Hin. destruct (decide (t < length (transObjs w))%nat) as [|Hge]; [done|].
    rewrite trans_at_invalid in Hin by lia. by apply elem_of_nil in Hin. }
  pose proof (Hvalid _ _ _ Hin1) as Ht1. pose proof (Hvalid _ _ _ Hin2) as Ht2.
  destruct (wf_transs _ Hwf t1 Ht1) as [_ Hreg1]. destruct (wf_transs _ Hwf t2 Ht2) as [_ Hreg2].
  destruct (Hreg1 name s1 Hin1) as (Hs1 & Hst1 & sd1 & Hsd1 & Hc1 & _).
  destruct (Hreg2 name s2 Hin2) as (Hs2 & Hst2 & sd2 & Hsd2 & Hc2 & _).
  assert (Hsame : _committedStoreData (store_at s2 w) = c) by (unfold c; congruence).
  split; [done|]. intros k.
  destruct (timer_callback_frame w t1 Hwf Ht1) as (Htx & _ & Hlt & _ & Hst & _).
  destruct (timer_callback_effect w t1 Hwf Ht1) as (_ & _ & Hcommit1).
  destruct (Hcommit1 name s1 Hin1) as [_ Hrd1]. fold c in Hrd1.
  set (w1 := timer_callback t1 w) in *.
  assert (Hwf1 : wf w1) by (by apply wf_timer_callback).
  assert (Hs2' : store_at s2 w1 = store_at s2 w).
  { apply Hst; [done|]. intros [[n s] [-> Hin]]%list_elem_of_fmap_1.
    destruct (Hreg1 n s Hin) as (_ & ? & _). simpl in *. congruence. }
  assert (Hin2' : (name, s2) ∈ tx_stores (trans_at t2 w1)) by (by rewrite Htx).
  destruct (timer_callback_effect w1 t2 Hwf1) as (_ & _ & Hcommit2); [by rewrite Hlt|].
  destruct (Hcommit2 name s2 Hin2') as [_ Hrd2]. rewrite Hs2', Hsame in Hrd2.
  rewrite Hrd2, Hrd1. unfold outcome.
  rewrite !dict_get_replay by (by apply NoDup_pending). done.
Qed.

(** A call that only reads leaves the pending changes of every handle as
    they are, up to the empty pending object an index opening creates. *)
Lemma reads_keep_pending w s' c s :
  wf w → (s' < length (storeObjs w))%nat → (s < length (storeObjs w))%nat →
  reads_only c = true →
  default [] (_pendingCommitDataChanges (store_at s (call s' c w)))
    = default [] (_pendingCommitDataChanges (store_at s w)).
Proof.
  intros Hwf Hs' Hs Hread.
  assert (Hclone : default [] (_pendingCommitDataChanges (store_at s (_checkDataClone s' w)))
                   = default [] (_pendingCommitDataChanges (store_at s w))).
  { destruct (checkDataClone_ok w s' Hwf Hs') as (_ & Hiso & _ & _ & Hp).
    destruct (decide (s = s')) as [->|Hne]; [by rewrite Hp|].
    destruct Hiso as (_ & _ & _ & _ & Hother & _). by destruct (Hother s Hs Hne) as [-> _]. }
  destruct c; try done; simpl.
  unfold openIndex. by destruct (find _ _).
Qed.

Lemma reads_keep_pending_calls cs : ∀ w s,
  wf w → (s < length (storeObjs w))%nat →
  Forall (λ sc : sref * StoreCall,
            (sc.1 < length (storeObjs w))%nat ∧ reads_only sc.2 = true) cs →
  default [] (_pendingCommitDataChanges (store_at s (calls cs w)))
    = default [] (_pendingCommitDataChanges (store_at s w)).
Proof.
  induction cs as [|[s' c] cs IH]; intros w s Hwf Hs Hall; [done|].
  apply Forall_cons in Hall as [[Hs' Hread] Hall]. simpl in Hs', Hread.
  destruct (call_ok w s' c Hwf Hs') as [Hwf' Hiso].
  pose proof (isolated_length _ _ _ Hiso) as Hlen.
  change (calls ((s', c) :: cs) w) with (calls cs (call s' c w)).
  rewrite IH; [by apply reads_keep_pending|done|by rewrite Hlen|].
  eapply Forall_impl; [exact Hall|]. intros [s2 c2] ?. by rewrite Hlen.
Qed.

(** X8. When the handles of a transaction have no pending changes and
    the calls then made on store handles only read ([get], [getMultiple],
    and the opening of indexes, which forks the handle without writing), the
    transaction commits nothing: its scheduled commit leaves the provider's
    stores and all the committed data as they were. *)
Theorem read_only_transaction_commits_nothing w t cs :
  wf w → (t < length (transObjs w))%nat →
  (∀ name s, (name, s) ∈ tx_stores (trans_at t w) →
     _pendingCommitDataChanges (store_at s w) = None) →
  Forall (λ sc : sref * StoreCall,
            (sc.1 < length (storeObjs w))%nat ∧ reads_only sc.2 = true) cs →
  let w' := timer_callback t (calls cs w) in
  prov_stores w' = prov_stores w ∧
  ∀ l, committed_loc w l → read_dict l w' = read_dict l w.
Proof.
  intros Hwf Ht Hnone Hall w'.
  destruct (calls_frame cs w Hwf) as [Hwf1 (Hprov & Htr & Hlen & Hk & _)].
  { eapply Forall_impl; [exact Hall|]. by intros ? [? _]. }
  set (w1 := calls cs w) in *.
  assert (Ht1 : (t < length (transObjs w1))%nat) by (by rewrite Htr).
  assert (Htx : trans_at t w1 = trans_at t w) by (unfold trans_at; by rewrite Htr).
  destruct (timer_callback_effect w1 t Hwf1 Ht1) as (Hprov' & _ & Hcommit).
  destruct (timer_callback_frame w1 t Hwf1 Ht1) as (_ & _ & _ & _ & _ & Hfr).
  fold w' in Hprov', Hcommit, Hfr. split; [by rewrite Hprov'|].
  intros l Hl. rewrite <- (Hk l Hl).
  destruct (decide (l ∈ map (λ s, _committedStoreData (store_at s w1))
                         (dict_values (tx_stores (trans_at t w1))))) as [Hin|Hnin].
  - apply list_elem_of_fmap_1 in Hin as (s & -> & [[n s'] [-> Hin]]%list_elem_of_fmap_1).
    simpl. destruct (Hcommit n s' Hin) as [_ ->].
    rewrite Htx in Hin.
    destruct (wf_transs _ Hwf t Ht) as [_ Hreg]. destruct (Hreg n s' Hin) as (Hs' & _).
    pose proof (reads_keep_pending_calls cs w s' Hwf Hs' Hall) as Hpend. fold w1 in Hpend.
    rewrite Hpend, (Hnone n s' Hin). done.
  - apply Hfr. intros s Hs Heq. apply Hnin. rewrite Heq.
    by apply (list_elem_of_fmap_2 (λ s, _committedStoreData (store_at s w1))).
Qed.

End Timers.

(** ** Writes read back in the same transaction *)

Section Writes.
Context `{Collaborators}.

Lemma dict_keys_zip_subseteq {A} (ks : list string) (items : list A) k :
  k ∈ dict_keys (zip ks items) → k ∈ ks.
Proof.
  unfold dict_keys. revert items. induction ks as [|k0 ks IH]; intros [|i items]; simpl;
    try (by intros ?%elem_of_nil).
  intros [->|Hin]%elem_of_cons; apply elem_of_cons; [by left|right; by apply (IH items)].
Qed.

Lemma assign_cons {A} (d : list (string * A)) k v src :
  assign d ((k, v) :: src) = assign (dict_set d k v) src.
Proof. done. Qed.

(** [_.assign] with a source that does not mention the key. *)
Lemma dict_get_assign_other {A} (src : list (string * A)) k : ∀ d,
  k ∉ dict_keys src → dict_get (assign d src) k = dict_get d k.
Proof.
  induction src as [|[k0 v0] src IH]; intros d Hnin; [done|].
  rewrite assign_cons. change (dict_keys ((k0, v0) :: src)) with (k0 :: dict_keys src) in Hnin.
  apply not_elem_of_cons in Hnin as [Hne Hnin].
  rewrite IH by done. by apply dict_get_set_ne.
Qed.

(** The last entry for a key is the one read after the loop. *)
Lemma dict_get_assign_last {A} (ks : list string) : ∀ (items : list A) d i item k,
  ks !! i = Some k → items !! i = Some item →
  (∀ j, (i < j)%nat → ks !! j ≠ Some k) →
  dict_get (assign d (zip ks items)) k = Some item.
Proof.
  induction ks as [|k0 ks IH]; intros [|i0 items] d i item k Hk Hitem Hlast; try done.
  cbn [zip_with]. rewrite assign_cons. destruct i as [|i]; simpl in Hk, Hitem.
  - injection Hk as ->. injection Hitem as ->.
    rewrite dict_get_assign_other; [apply dict_get_set_eq|].
    intros Hin%dict_keys_zip_subseteq. apply list_elem_of_lookup in Hin as [j Hj].
    apply (Hlast (S j)); [lia|done].
  - apply (IH items _ i); try done.
    intros j Hlt. apply (Hlast (S j)). lia.
Qed.

Lemma amap_cons_Returned {A B} (f : A → attempt B) x l ys :
  amap f (x :: l) = Returned ys →
  ∃ y ys', f x = Returned y ∧ amap f l = Returned ys' ∧ ys = y :: ys'.
Proof.
  simpl. destruct (f x) as [y|e]; simpl; [|done].
  destruct (amap f l) as [ys'|e]; simpl; [|done].
  intros [= <-]. by exists y, ys'.
Qed.

(** The loop of [put] when every item has a key: both objects are
    assigned the rows under their keys, in order. *)
Lemma put_each_effect s items : ∀ w p ks,
  wf w → (s < length (storeObjs w))%nat →
  _pendingCommitDataChanges (store_at s w) = Some p →
  amap (λ item, getSerializedKeyForKeypath item (primaryKeyPath (_storeSchema (store_at s w))))
       items = Returned ks →
  let w' := (put_each s items w).2 in
  (put_each s items w).1 = None ∧ wf w' ∧ isolated s w w' ∧
  store_at s w' = with_pending (Some (assign p (zip ks items))) (store_at s w) ∧
  read_dict (_mergedData (store_at s w)) w'
    = assign (read_dict (_mergedData (store_at s w)) w) (zip ks items).
Proof.
  induction items as [|item rest IH]; intros w p ks Hwf Hs Hp Hks.
  - injection Hks as <-. simpl. split_and!; try done.
    destruct (store_at s w). simpl in Hp. by rewrite Hp.
  - apply amap_cons_Returned in Hks as (k & ks' & Hk & Hks' & ->).
    cbn [put_each]. rewrite Hk.
    destruct (set_row_ok w s p k item Hwf Hs Hp) as (Hwf1 & Hiso1 & Hst1 & Hrd1).
    set (w1 := set_row s k item w) in *.
    assert (Hs1 : (s < length (storeObjs w1))%nat) by (by rewrite (isolated_length _ _ _ Hiso1)).
    destruct (IH w1 (dict_set p k item) ks') as (Hnone & Hwf2 & Hiso2 & Hst2 & Hrd2); try done.
    { by rewrite Hst1. }
    { by rewrite Hst1. }
    split_and!; try done.
    + by eapply isolated_trans.
    + rewrite Hst2, Hst1. done.
    + rewrite Hst1 in Hrd2. simpl in Hrd2. rewrite Hrd2, Hrd1. done.
Qed.

Lemma put_each_app s xs ys : ∀ w,
  put_each s (xs ++ ys) w =
    match put_each s xs w with
    | (None, w') => put_each s ys w'
    | (Some e, w') => (Some e, w')
    end.
Proof.
  induction xs as [|x xs IH]; intros w; simpl; [done|].
  by destruct (getSerializedKeyForKeypath _ _).
Qed.

(** [put] on an open transaction when every item has a key. *)
Lemma put_effect w s itemOrItems ks :
  wf w → (s < length (storeObjs w))%nat → store_isOpen s w = true →
  amap (λ item, getSerializedKeyForKeypath item (primaryKeyPath (_storeSchema (store_at s w))))
       (arrayify itemOrItems) = Returned ks →
  let w' := (put s itemOrItems w).2 in
  let kvs := zip ks (arrayify itemOrItems) in
  (put s itemOrItems w).1 = Resolved () ∧ wf w' ∧ isolated s w w' ∧
  _mergedData (store_at s w') = _mergedData (store_at s (_checkDataClone s w)) ∧
  _pendingCommitDataChanges (store_at s w')
    = Some (assign (default [] (_pendingCommitDataChanges (store_at s w))) kvs) ∧
  read_dict (_mergedData (store_at s w')) w'
    = assign (read_dict (_mergedData (store_at s w)) w) kvs.
Proof.
  intros Hwf Hs Hopen Hks w' kvs. unfold w', put. rewrite Hopen. simpl.
  destruct (checkDataClone_ok w s Hwf Hs) as (Hwf1 & Hiso1 & _ & Hrd1 & Hp1).
  set (w1 := _checkDataClone s w) in *.
  assert (Hs1 : (s < length (storeObjs w1))%nat) by (by rewrite (isolated_length _ _ _ Hiso1)).
  assert (Hsch : _storeSchema (store_at s w1) = _storeSchema (store_at s w)).
  { by destruct Hiso1 as (_ & _ & _ & _ & _ & _ & _ & ?). }
  rewrite <- Hsch in Hks.
  destruct (put_each_effect s (arrayify itemOrItems) w1 _ ks Hwf1 Hs1 Hp1 Hks)
    as (Hnone & Hwf2 & Hiso2 & Hst2 & Hrd2).
  destruct (put_each s (arrayify itemOrItems) w1) as [[e|] w2]; simpl in *; [done|].
  split_and!; try done.
  - by eapply isolated_trans.
  - by rewrite Hst2.
  - by rewrite Hst2.
  - rewrite Hst2. simpl. by rewrite Hrd2, Hrd1.
Qed.

(** X9. [put] on an open transaction with items that all have a key
    resolves, and in the same transaction [get] with a key then returns the
    last of the items put under that key (a later item for the same key
    replaces an earlier one), and what it returned before for a key that
    none of the items has. *)
Theorem put_last_write_wins w s itemOrItems ks key k :
  wf w → (s < length (storeObjs w))%nat → store_isOpen s w = true →
  amap (λ item, getSerializedKeyForKeypath item (primaryKeyPath (_storeSchema (store_at s w))))
       (arrayify itemOrItems) = Returned ks →
  serializeKeyToString key (primaryKeyPath (_storeSchema (store_at s w))) = Returned k →
  let w' := (put s itemOrItems w).2 in
  (put s itemOrItems w).1 = Resolved () ∧
  (∀ i item, ks !! i = Some k → arrayify itemOrItems !! i = Some item →
     (∀ j, (i < j)%nat → ks !! j ≠ Some k) → get s key w' = Resolved item) ∧
  (k ∉ ks → get s key w' = get s key w).
Proof.
  intros Hwf Hs Hopen Hks Hkey w'.
  destruct (put_effect w s itemOrItems ks Hwf Hs Hopen Hks) as (Hres & _ & Hiso & _ & _ & Hrd).
  fold w' in Hiso, Hrd.
  assert (Hopen' : store_isOpen s w' = true) by (by rewrite (store_isOpen_isolated _ _ _ Hiso)).
  assert (Hsch : _storeSchema (store_at s w') = _storeSchema (store_at s w)).
  { by destruct Hiso as (_ & _ & _ & _ & _ & _ & _ & ?). }
  split_and!; [done| |].
  - intros i item Hi Hitem Hlast. unfold get. rewrite Hopen', Hsch, Hkey. simpl.
    rewrite Hrd. unfold dict_index. by rewrite (dict_get_assign_last ks _ _ i item k).
  - intros Hnin. unfold get. rewrite Hopen', Hopen, Hsch, Hkey. simpl.
    rewrite Hrd. unfold dict_index. rewrite dict_get_assign_other; [done|].
    intros Hin%dict_keys_zip_subseteq. done.
Qed.

(** X10. When an item of a [put] has no key (the codec throws), the promise
    is rejected with that error and the call stops there, but the items
    before it stay written: the world is the one a [put] of those items
    alone leaves (which resolves). *)
Theorem put_keeps_items_before_failure w s good bad rest ks e :
  wf w → (s < length (storeObjs w))%nat → store_isOpen s w = true →
  amap (λ item, getSerializedKeyForKeypath item (primaryKeyPath (_storeSchema (store_at s w))))
       good = Returned ks →
  getSerializedKeyForKeypath bad (primaryKeyPath (_storeSchema (store_at s w))) = Threw e →
  put s (VArr (good ++ bad :: rest)) w = (Rejected (RejError e), (put s (VArr good) w).2) ∧
  (put s (VArr good) w).1 = Resolved ().
Proof.
  intros Hwf Hs Hopen Hks Hbad.
  destruct (put_effect w s (VArr good) ks Hwf Hs Hopen Hks) as (Hres & _ & Hiso & _).
  split; [|done]. unfold put in *. rewrite Hopen in *. simpl in *.
  rewrite put_each_app.
  destruct (put_each s good (_checkDataClone s w)) as [[e'|] w2]; simpl in *; [done|].
  assert (Hsch : _storeSchema (store_at s w2) = _storeSchema (store_at s w)).
  { by destruct Hiso as (_ & _ & _ & _ & _ & _ & _ & ?). }
  by rewrite Hsch, Hbad.
Qed.

Lemma dict_get_deletes {A} (keys : list string) k : ∀ d : list (string * A),
  dict_get (fold_left dict_delete keys d) k = if decide (k ∈ keys) then None else dict_get d k.
Proof.
  induction keys as [|k0 keys IH]; intros d; cbn [fold_left].
  - by rewrite decide_False by apply not_elem_of_nil.
  - rewrite IH, dict_get_delete. destruct (decide (k ∈ keys)) as [Hin|Hnin].
    + by rewrite decide_True by (apply elem_of_cons; auto).
    + destruct (String.eqb_spec k0 k) as [->|Hne].
      * by rewrite decide_True by (apply elem_of_cons; auto).
      * rewrite decide_False; [done|]. intros [?|?]%elem_of_cons; done.
Qed.

Lemma dict_index_deletes (keys : list string) k (d : list (string * value)) :
  dict_index (fold_left dict_delete keys d) k
    = if decide (k ∈ keys) then VUndefined else dict_index d k.
Proof. unfold dict_index. rewrite dict_get_deletes. by destruct (decide _). Qed.

(** The loop of [remove]: the keys are deleted from the merged object,
    which stays the same object. *)
Lemma delete_rows_merged s keys : ∀ w p,
  wf w → (s < length (storeObjs w))%nat →
  _pendingCommitDataChanges (store_at s w) = Some p →
  let w' := fold_left (λ w key, delete_row s key w) keys w in
  _mergedData (store_at s w') = _mergedData (store_at s w) ∧
  read_dict (_mergedData (store_at s w)) w'
    = fold_left dict_delete keys (read_dict (_mergedData (store_at s w)) w).
Proof.
  induction keys as [|key rest IH]; intros w p Hwf Hs Hp; simpl; [done|].
  destruct (delete_row_ok w s p key) as (Hwf' & Hiso & Hst & Hrd); try done.
  destruct (IH (delete_row s key w) (dict_set p key VUndefined)) as [Hm Hr]; try done.
  - by rewrite (isolated_length _ _ _ Hiso).
  - by rewrite Hst.
  - rewrite Hst in Hm, Hr. simpl in Hm, Hr. by rewrite Hm, Hr, Hrd.
Qed.

(** [remove] on an open transaction whose keys serialize. *)
Lemma remove_effect w s keyOrKeys keys :
  wf w → (s < length (storeObjs w))%nat → store_isOpen s w = true →
  formListOfSerializedKeys keyOrKeys (primaryKeyPath (_storeSchema (store_at s w))) = Returned keys →
  let w' := (remove s keyOrKeys w).2 in
  (remove s keyOrKeys w).1 = Resolved () ∧ wf w' ∧ isolated s w w' ∧
  _mergedData (store_at s w') = _mergedData (store_at s (_checkDataClone s w)) ∧
  read_dict (_mergedData (store_at s w')) w'
    = fold_left dict_delete keys (read_dict (_mergedData (store_at s w)) w).
Proof.
  intros Hwf Hs Hopen Hkeys w'.
  destruct (remove_ok w s keyOrKeys Hwf Hs) as [Hwf' Hiso]. fold w' in Hwf', Hiso.
  destruct (checkDataClone_ok w s Hwf Hs) as (Hwf1 & Hiso1 & [p Hp] & Hrd1 & _).
  set (w1 := _checkDataClone s w) in *.
  assert (Hs1 : (s < length (storeObjs w1))%nat) by (by rewrite (isolated_length _ _ _ Hiso1)).
  assert (Hsch : _storeSchema (store_at s w1) = _storeSchema (store_at s w)).
  { by destruct Hiso1 as (_ & _ & _ & _ & _ & _ & _ & ?). }
  assert (Hw' : w' = fold_left (λ w key, delete_row s key w) keys w1).
  { unfold w', remove. rewrite Hopen. simpl. fold w1. by rewrite Hsch, Hkeys. }
  destruct (delete_rows_merged s keys w1 p Hwf1 Hs1 Hp) as [Hm Hr]. rewrite <- Hw' in Hm, Hr.
  split_and!; try done.
  - unfold remove. rewrite Hopen. simpl. fold w1. by rewrite Hsch, Hkeys.
  - by rewrite Hm, Hr, Hrd1.
Qed.

(** X11. [remove] on an open transaction resolves whether or not the keys
    are in the store; in the same transaction [get] then returns
    [undefined] for each removed key and what it returned before for any
    other key, and [getMultiple] leaves the removed keys out. *)
Theorem remove_then_reads w s keyOrKeys keys :
  wf w → (s < length (storeObjs w))%nat → store_isOpen s w = true →
  formListOfSerializedKeys keyOrKeys (primaryKeyPath (_storeSchema (store_at s w))) = Returned keys →
  let w' := (remove s keyOrKeys w).2 in
  (remove s keyOrKeys w).1 = Resolved () ∧
  (∀ key k, serializeKeyToString key (primaryKeyPath (_storeSchema (store_at s w))) = Returned k →
     get s key w' = if decide (k ∈ keys) then Resolved VUndefined else get s key w) ∧
  (∀ keyOrKeys2 keys2,
     formListOfSerializedKeys keyOrKeys2 (primaryKeyPath (_storeSchema (store_at s w))) = Returned keys2 →
     getMultiple s keyOrKeys2 w'
       = Resolved (compact (map (dict_index (read_dict (_mergedData (store_at s w)) w))
                                (List.filter (λ k, bool_decide (k ∉ keys)) keys2)))).
Proof.
  intros Hwf Hs Hopen Hkeys w'.
  destruct (remove_effect w s keyOrKeys keys Hwf Hs Hopen Hkeys) as (Hres & _ & Hiso & _ & Hrd).
  fold w' in Hiso, Hrd.
  assert (Hopen' : store_isOpen s w' = true) by (by rewrite (store_isOpen_isolated _ _ _ Hiso)).
  assert (Hsch : _storeSchema (store_at s w') = _storeSchema (store_at s w)).
  { by destruct Hiso as (_ & _ & _ & _ & _ & _ & _ & ?). }
  split_and!; [done| |].
  - intros key k Hkey. unfold get. rewrite Hopen', Hopen, Hsch, Hkey. simpl.
    rewrite Hrd, dict_index_deletes. by destruct (decide (k ∈ keys)).
  - intros keyOrKeys2 keys2 Hkeys2. unfold getMultiple. rewrite Hopen', Hsch, Hkeys2. simpl.
    rewrite Hrd. f_equal. unfold compact. clear Hkeys2.
    induction keys2 as [|k2 keys2 IH]; simpl; [done|].
    rewrite dict_index_deletes, IH.
    destruct (decide (k2 ∈ keys)) as [Hin|Hnin].
    + by rewrite bool_decide_eq_false_2 by (intros Hn; done).
    + by rewrite bool_decide_eq_true_2 by done.
Qed.

Lemma dict_all_None {A} (d : list (string * A)) : (∀ k, dict_get d k = None) → d = [].
Proof.
  destruct d as [|[k v] d]; [done|]. intros Hall. specialize (Hall k). simpl in Hall.
  by rewrite String.eqb_refl in Hall.
Qed.

(** X12. [clearAllData] on an open transaction resolves; in the same
    transaction every [get] then returns [undefined], every [getMultiple]
    the empty sequence and the primary-key view counts no key; and when the
    handle had made no change before, the commit of its transaction leaves
    the store's committed data empty. *)
Theorem clearAllData_empties_store w s :
  wf w → (s < length (storeObjs w))%nat → store_isOpen s w = true →
  let w' := (clearAllData s w).2 in
  (clearAllData s w).1 = Resolved () ∧
  (∀ key k, serializeKeyToString key (primaryKeyPath (_storeSchema (store_at s w))) = Returned k →
     get s key w' = Resolved VUndefined) ∧
  (∀ keyOrKeys keys,
     formListOfSerializedKeys keyOrKeys (primaryKeyPath (_storeSchema (store_at s w))) = Returned keys →
     getMultiple s keyOrKeys w' = Resolved []) ∧
  countAll (openPrimaryKey s w').1 (openPrimaryKey s w').2 = Resolved 0 ∧
  (∀ t name, _pendingCommitDataChanges (store_at s w) = None →
     (name, s) ∈ tx_stores (trans_at t w) →
     read_dict (_committedStoreData (store_at s w)) (timer_callback t w') = []).
Proof.
  intros Hwf Hs Hopen w'.
  destruct (clearAllData_ok w s Hwf Hs) as [Hwf' Hiso]. fold w' in Hwf', Hiso.
  destruct (checkDataClone_ok w s Hwf Hs) as (Hwf1 & Hiso1 & [p Hp] & Hrd1 & Hp1).
  pose proof (clearAllData_eq w s p Hs Hopen Hp) as Heq. simpl in Heq. fold w' in Heq.
  set (w1 := _checkDataClone s w) in *.
  assert (Hs1 : (s < length (storeObjs w1))%nat) by (by rewrite (isolated_length _ _ _ Hiso1)).
  assert (Hst : store_at s w' =
            with_merged (length (heap w1))
              (with_pending (Some (fold_left (λ p key, dict_set p key VUndefined)
                 (dict_keys (read_dict (_mergedData (store_at s w1)) w1)) p)) (store_at s w1))).
  { rewrite Heq. by rewrite store_at_update_eq. }
  assert (Hrd : read_dict (_mergedData (store_at s w')) w' = []).
  { rewrite Hst. simpl. rewrite Heq.
    change (read_dict ?l (update_store s ?f ?x)) with (read_dict l x).
    apply read_dict_alloc_new. }
  assert (Hopen' : store_isOpen s w' = true) by (by rewrite (store_isOpen_isolated _ _ _ Hiso)).
  assert (Hsch : _storeSchema (store_at s w') = _storeSchema (store_at s w)).
  { by destruct Hiso as (_ & _ & _ & _ & _ & _ & _ & ?). }
  split_and!.
  - unfold clearAllData. by rewrite Hopen.
  - intros key k Hkey. unfold get. rewrite Hopen', Hsch, Hkey. simpl. by rewrite Hrd.
  - intros keyOrKeys keys Hkeys. unfold getMultiple. rewrite Hopen', Hsch, Hkeys. simpl.
    rewrite Hrd. f_equal. unfold compact. clear Hkeys.
    induction keys as [|k keys IH]; [done|]. simpl. exact IH.
  - unfold openPrimaryKey. simpl.
    rewrite checkDataClone_forked by (unfold forked; rewrite Hst; simpl; eauto).
    unfold countAll. simpl. fold (store_isOpen s w'). rewrite Hopen'. simpl. by rewrite Hrd.
  - intros t name Hnone Hin.
    assert (Ht : (t < length (transObjs w))%nat).
    { destruct (decide (t < length (transObjs w))%nat) as [|Hge]; [done|].
      rewrite trans_at_invalid in Hin by lia. by apply elem_of_nil in Hin. }
    assert (Htr : transObjs w' = transObjs w) by (by destruct Hiso as (_ & ? & _)).
    assert (Hin' : (name, s) ∈ tx_stores (trans_at t w')) by (unfold trans_at; by rewrite Htr).
    assert (Ht' : (t < length (transObjs w'))%nat) by (by rewrite Htr).
    destruct (timer_callback_effect w' t Hwf' Ht') as (_ & _ & Hcommit).
    destruct (Hcommit name s Hin') as [_ Hc].
    assert (Hcs : _committedStoreData (store_at s w') = _committedStoreData (store_at s w)).
    { by destruct Hiso as (_ & _ & _ & _ & _ & _ & ? & _). }
    rewrite Hcs in Hc. rewrite Hc.
    destruct (wf_stores _ Hwf s Hs) as [Hcl Hm]. rewrite Hnone in Hm.
    assert (Hcrd : read_dict (_committedStoreData (store_at s w)) w'
                   = read_dict (_committedStoreData (store_at s w)) w).
    { destruct Hiso as (_ & _ & _ & Hk & _). by apply Hk. }
    rewrite Hcrd, Hst. simpl. rewrite Hnone in Hp1. simpl in Hp1.
    rewrite Hp in Hp1. injection Hp1 as ->. rewrite Hrd1, Hm.
    apply dict_all_None. intros k.
    rewrite dict_get_replay by (apply NoDup_tombstones; constructor).
    rewrite dict_get_tombstones.
    destruct (decide (k ∈ _)) as [Hin2|Hnin]; [done|]. simpl.
    by apply dict_get_None.
Qed.

End Writes.

(** ** Indexes and the handle they were opened on *)

Section IndexHandles.
Context `{Collaborators}.

Lemma put_each_merged s items : ∀ w,
  wf w → (s < length (storeObjs w))%nat → forked s w →
  _mergedData (store_at s (put_each s items w).2) = _mergedData (store_at s w).
Proof.
  induction items as [|item rest IH]; intros w Hwf Hs [p Hp]; simpl; [done|].
  destruct (getSerializedKeyForKeypath _ _) as [pk|err]; simpl; [|done].
  destruct (set_row_ok w s p pk item) as (Hwf' & Hiso & Hst & _); try done.
  rewrite IH; [by rewrite Hst|done| |].
  - by rewrite (isolated_length _ _ _ Hiso).
  - unfold forked. rewrite Hst. simpl. eauto.
Qed.

(** X13. An index reads the object that was the handle's merged data when
    the index was opened.  [put] and [remove] change that object in place,
    so the index goes on reading what the handle reads; [clearAllData]
    gives the handle a new empty object, so [get] on the handle finds
    nothing while an index opened before still answers its queries with the
    rows from before the clear. *)
Theorem index_sees_writes_but_not_clear w s ix :
  wf w → (s < length (storeObjs w))%nat → store_isOpen s w = true → forked s w →
  ix_mergedData ix = _mergedData (store_at s w) →
  (∀ itemOrItems, ix_mergedData ix = _mergedData (store_at s (put s itemOrItems w).2)) ∧
  (∀ keyOrKeys, ix_mergedData ix = _mergedData (store_at s (remove s keyOrKeys w).2)) ∧
  let w' := (clearAllData s w).2 in
  read_dict (_mergedData (store_at s w')) w' = [] ∧
  read_dict (ix_mergedData ix) w' = read_dict (ix_mergedData ix) w ∧
  ∀ low high lowEx highEx reverse limit offset,
    getAll ix reverse limit offset w' = getAll ix reverse limit offset w ∧
    getOnly ix low reverse limit offset w' = getOnly ix low reverse limit offset w ∧
    getRange ix low high lowEx highEx reverse limit offset w'
      = getRange ix low high lowEx highEx reverse limit offset w ∧
    countAll ix w' = countAll ix w ∧
    countOnly ix low w' = countOnly ix low w ∧
    countRange ix low high lowEx highEx w' = countRange ix low high lowEx highEx w.
Proof.
  intros Hwf Hs Hopen Hf Hix. split_and!.
  - intros itemOrItems. unfold put. rewrite Hopen. simpl.
    rewrite checkDataClone_forked by done.
    pose proof (put_each_merged s (arrayify itemOrItems) w Hwf Hs Hf) as Hm.
    destruct (put_each s (arrayify itemOrItems) w) as [[e|] w2]; simpl in *; congruence.
  - intros keyOrKeys. unfold remove. rewrite Hopen. simpl.
    rewrite checkDataClone_forked by done.
    destruct (formListOfSerializedKeys _ _) as [keys|e]; simpl; [|done].
    destruct Hf as [p Hp].
    destruct (delete_rows_merged s keys w p Hwf Hs Hp) as [Hm _]. congruence.
  - intros w'. destruct Hf as [p Hp].
    assert (Hclone : _checkDataClone s w = w) by (apply checkDataClone_forked; by exists p).
    assert (Hp' : _pendingCommitDataChanges (store_at s (_checkDataClone s w)) = Some p).
    { by rewrite Hclone. }
    pose proof (clearAllData_eq w s p Hs Hopen Hp') as Heq. simpl in Heq. fold w' in Heq.
    rewrite Hclone in Heq.
    assert (Hrd : read_dict (_mergedData (store_at s w')) w' = []).
    { rewrite Heq. rewrite store_at_update_eq by done. simpl.
      change (read_dict ?l (update_store s ?f ?x)) with (read_dict l x).
      apply read_dict_alloc_new. }
    assert (Hold : read_dict (ix_mergedData ix) w' = read_dict (ix_mergedData ix) w).
    { rewrite Heq. change (read_dict ?l (update_store s ?f ?x)) with (read_dict l x).
      apply read_dict_alloc_old. rewrite Hix. by apply wf_merged_bound. }
    assert (Htr : transObjs w' = transObjs w) by (by rewrite Heq).
    assert (Hcalc : _calcChunkedData ix w' = _calcChunkedData ix w).
    { unfold _calcChunkedData. by rewrite Hold. }
    assert (Hio : internal_isOpen (ix_trans ix) w' = internal_isOpen (ix_trans ix) w).
    { unfold internal_isOpen, trans_at. by rewrite Htr. }
    split_and!; [done|done|]. intros.
    unfold getOnly, countOnly, getAll, getRange, countAll, countRange.
    by rewrite Hio, Hcalc.
Qed.

(** X14. [openIndex] with a name the store's schema has no index of
    returns [undefined] and leaves everything as it is; with the name of an
    index it returns an index on the first index definition of that name,
    and [openPrimaryKey] returns the primary-key view.  Both make the
    handle fork its data, although nothing is written (its pending changes
    become the empty object if it had none), and the index shares the
    handle's merged object, which holds the rows the handle read before. *)
Theorem openIndex_and_openPrimaryKey w s :
  wf w → (s < length (storeObjs w))%nat →
  let st := store_at s w in
  (∀ name, (∀ idx, idx ∈ indexes (_storeSchema st) → index_name idx ≠ name) →
     openIndex s name w = (None, w)) ∧
  (∀ l1 idx l2, indexes (_storeSchema st) = l1 ++ idx :: l2 →
     (∀ i, i ∈ l1 → index_name i ≠ index_name idx) →
     ∃ ix w', openIndex s (index_name idx) w = (Some ix, w') ∧
       _indexSchema ix = Some idx ∧ _keyPath ix = keyPath idx ∧ ix_trans ix = st_trans st ∧
       ix_mergedData ix = _mergedData (store_at s w') ∧ forked s w' ∧
       read_dict (ix_mergedData ix) w' = read_dict (_mergedData st) w ∧
       _pendingCommitDataChanges (store_at s w')
         = Some (default [] (_pendingCommitDataChanges st))) ∧
  (∃ ix w', openPrimaryKey s w = (ix, w') ∧
     _indexSchema ix = None ∧ _keyPath ix = primaryKeyPath (_storeSchema st) ∧
     ix_trans ix = st_trans st ∧
     ix_mergedData ix = _mergedData (store_at s w') ∧ forked s w' ∧
     read_dict (ix_mergedData ix) w' = read_dict (_mergedData st) w ∧
     _pendingCommitDataChanges (store_at s w')
       = Some (default [] (_pendingCommitDataChanges st))).
Proof.
  intros Hwf Hs st.
  destruct (checkDataClone_ok w s Hwf Hs) as (_ & Hiso & Hf & Hrd & Hpend).
  assert (Htr : st_trans (store_at s (_checkDataClone s w)) = st_trans st).
  { by destruct Hiso as (_ & _ & _ & _ & _ & ? & _). }
  assert (Hsch : _storeSchema (store_at s (_checkDataClone s w)) = _storeSchema st).
  { by destruct Hiso as (_ & _ & _ & _ & _ & _ & _ & ?). }
  split_and!.
  - intros name Hnone. unfold openIndex. fold st.
    destruct (find _ _) as [idx|] eqn:Hfind; [|done].
    apply find_some in Hfind as [Hin Heq]. apply String.eqb_eq in Heq.
    by destruct (Hnone idx (proj2 (list_elem_of_In _ _) Hin)).
  - intros l1 idx l2 Hidx Hfirst. unfold openIndex. fold st. rewrite Hidx.
    assert (Hfind : find (λ i, String.eqb (index_name i) (index_name idx)) (l1 ++ idx :: l2)
                    = Some idx).
    { clear Hidx. induction l1 as [|i l1 IH]; simpl.
      - by rewrite String.eqb_refl.
      - destruct (String.eqb_spec (index_name i) (index_name idx)) as [Heq|_].
        + destruct (Hfirst i); [apply elem_of_cons; auto|done].
        + apply IH. intros i' Hin. apply Hfirst, elem_of_cons. auto. }
    rewrite Hfind. eexists _, _. split; [done|]. simpl. by rewrite Htr.
  - unfold openPrimaryKey. eexists _, _. split; [done|]. simpl. by rewrite Htr, Hsch.
Qed.

End IndexHandles.

(** ** The derived mapping of an index *)

Section Buckets.
Context `{Collaborators}.

Lemma add_to_bucket_get item (data : list (string * value)) key rows k :
  dict_get data key = bucket_entry rows →
  dict_get (add_to_bucket item data key) k
    = if String.eqb key k then bucket_entry (rows ++ [item]) else dict_get data k.
Proof.
  intros Hkey. unfold add_to_bucket, dict_index. rewrite Hkey.
  destruct rows as [|r rows]; simpl; by rewrite dict_get_set.
Qed.

Lemma fold_add_to_bucket item (keys : list string) : ∀ (data : list (string * value)) f,
  (∀ k, dict_get data k = bucket_entry (f k)) →
  ∀ k, dict_get (fold_left (add_to_bucket item) keys data) k
       = bucket_entry (f k ++ replicate (length (List.filter (String.eqb k) keys)) item).
Proof.
  induction keys as [|key keys IH]; intros data f Hf k; cbn [fold_left].
  - simpl. by rewrite app_nil_r.
  - rewrite (IH _ (λ k, if String.eqb key k then f k ++ [item] else f k)).
    + cbn [List.filter]. rewrite (String.eqb_sym k key).
      destruct (String.eqb key k); [|done]. simpl. by rewrite <- app_assoc.
    + intros k'. rewrite (add_to_bucket_get item data key (f key)) by done.
      destruct (String.eqb_spec key k') as [->|Hne]; [done|apply Hf].
Qed.

Lemma pivot_buckets sch kp items : ∀ (data data' : list (string * value)) f,
  pivot sch kp items data = Returned data' →
  (∀ k, dict_get data k = bucket_entry (f k)) →
  (∀ k, dict_get data' k = bucket_entry (f k ++ rows_under sch kp k items)) ∧
  (∀ item, item ∈ items → ∃ keys, keys_of_item sch kp item = Returned keys).
Proof.
  induction items as [|item rest IH]; intros data data' f Hp Hf.
  - injection Hp as <-. split.
    + intros k. simpl. by rewrite app_nil_r.
    + by intros item ?%elem_of_nil.
  - cbn [pivot] in Hp. destruct (keys_of_item sch kp item) as [keys|e] eqn:Hkeys; [|done].
    simpl in Hp.
    destruct (IH _ _ (λ k, f k ++ replicate (length (List.filter (String.eqb k) keys)) item) Hp)
      as [Hget Hall].
    { by apply fold_add_to_bucket. }
    split.
    + intros k. rewrite Hget. unfold rows_under. cbn [flat_map]. rewrite Hkeys.
      by rewrite <- app_assoc.
    + intros item' [->|Hin]%elem_of_cons; [by exists keys|by apply Hall].
Qed.

Lemma count_key_pos (k : string) (keys : list string) :
  length (List.filter (String.eqb k) keys) ≠ 0%nat ↔ k ∈ keys.
Proof.
  induction keys as [|k0 keys IH]; simpl.
  - split; [done|by intros ?%elem_of_nil].
  - destruct (String.eqb_spec k k0) as [->|Hne]; simpl.
    + split; [intros _; apply elem_of_cons; by left|done].
    + rewrite IH. split; [intros ?; apply elem_of_cons; by right|].
      by intros [?|?]%elem_of_cons.
Qed.

Lemma rows_under_elem sch kp k items item :
  item ∈ rows_under sch kp k items ↔
  item ∈ items ∧ ∃ keys, keys_of_item sch kp item = Returned keys ∧ k ∈ keys.
Proof.
  unfold rows_under. rewrite list_elem_of_In, in_flat_map. split.
  - intros (x & Hx & Hin). apply list_elem_of_In in Hx, Hin.
    destruct (keys_of_item sch kp x) as [keys|e] eqn:Hkeys; [|by apply elem_of_nil in Hin].
    apply elem_of_replicate in Hin as [-> Hn]. split; [done|].
    exists keys. split; [done|]. by apply count_key_pos.
  - intros (Hin & keys & Hkeys & Hk). exists item. split; [by apply list_elem_of_In|].
    rewrite Hkeys. apply list_elem_of_In, elem_of_replicate. split; [done|].
    by apply count_key_pos.
Qed.

(** The buckets of the derived mapping of a secondary index. *)
Lemma calcChunkedData_buckets ix w sch data :
  _indexSchema ix = Some sch →
  _calcChunkedData ix w = Returned data →
  let rows := dict_values (read_dict (ix_mergedData ix) w) in
  (∀ k, dict_get data k = bucket_entry (rows_under sch (_keyPath ix) k rows)) ∧
  (∀ item, item ∈ rows → ∃ keys, keys_of_item sch (_keyPath ix) item = Returned keys).
Proof.
  intros Hsch Hcalc rows. unfold _calcChunkedData in Hcalc. rewrite Hsch in Hcalc.
  by destruct (pivot_buckets sch (_keyPath ix) rows [] data (λ _, []) Hcalc).
Qed.

(** X15. The derived mapping of a secondary index (ordinary, multi-entry or
    full-text) has, for every index key, the array of the rows that
    contribute that key, in the order the store enumerates them, and no
    property for a key no row contributes: every bucket is a non-empty
    array of stored rows. *)
Theorem derived_mapping_buckets ix w sch data :
  _indexSchema ix = Some sch →
  _calcChunkedData ix w = Returned data →
  let rows := dict_values (read_dict (ix_mergedData ix) w) in
  (∀ k, dict_get data k = bucket_entry (rows_under sch (_keyPath ix) k rows)) ∧
  (∀ k item, item ∈ rows_under sch (_keyPath ix) k rows ↔
     item ∈ rows ∧ ∃ keys, keys_of_item sch (_keyPath ix) item = Returned keys ∧ k ∈ keys) ∧
  (∀ k, k ∈ dict_keys data →
     bucket data k = rows_under sch (_keyPath ix) k rows ∧ bucket data k ≠ []) ∧
  (∀ item, item ∈ rows → ∃ keys, keys_of_item sch (_keyPath ix) item = Returned keys).
Proof.
  intros Hsch Hcalc rows. unfold _calcChunkedData in Hcalc. rewrite Hsch in Hcalc.
  destruct (pivot_buckets sch (_keyPath ix) rows [] data (λ _, []) Hcalc) as [Hget Hall]; [done|].
  simpl in Hget. split_and!; [done| |  |done].
  - intros k item. apply rows_under_elem.
  - intros k Hin. unfold bucket, dict_index. rewrite Hget.
    destruct (rows_under sch (_keyPath ix) k rows) as [|r rs] eqn:Hrows; [|done].
    exfalso. apply dict_get_None in Hin; [done|]. by rewrite Hget, Hrows.
Qed.

Lemma pivot_throws sch kp items item e0 :
  item ∈ items → keys_of_item sch kp item = Threw e0 →
  ∀ data, ∃ e, pivot sch kp items data = Threw e.
Proof.
  induction items as [|x rest IH]; intros Hin Hthrow data; [by apply elem_of_nil in Hin|].
  cbn [pivot]. destruct (keys_of_item sch kp x) as [keys|e] eqn:Hkeys; simpl; [|by exists e].
  apply elem_of_cons in Hin as [->|Hin]; [congruence|]. by apply IH.
Qed.

(** X16. When the index keys of one stored row cannot be computed (the
    codec or the tokenizer throws on it), every query of a secondary index
    is rejected with an error, whatever the other rows are: there are no
    partial results. *)
Theorem index_key_failure_rejects_queries ix w sch item e0 :
  internal_isOpen (ix_trans ix) w = true →
  _indexSchema ix = Some sch →
  item ∈ dict_values (read_dict (ix_mergedData ix) w) →
  keys_of_item sch (_keyPath ix) item = Threw e0 →
  ∃ e, _calcChunkedData ix w = Threw e ∧
    ∀ low high lowEx highEx reverse limit offset,
      getAll ix reverse limit offset w = Rejected (RejError e) ∧
      getOnly ix low reverse limit offset w = Rejected (RejError e) ∧
      getRange ix low high lowEx highEx reverse limit offset w = Rejected (RejError e) ∧
      countAll ix w = Rejected (RejError e) ∧
      countOnly ix low w = Rejected (RejError e) ∧
      countRange ix low high lowEx highEx w = Rejected (RejError e).
Proof.
  intros Hopen Hsch Hin Hthrow.
  destruct (pivot_throws sch (_keyPath ix) _ item e0 Hin Hthrow []) as [e He].
  assert (Hcalc : _calcChunkedData ix w = Threw e).
  { unfold _calcChunkedData. by rewrite Hsch. }
  exists e. split; [done|]. intros.
  unfold getOnly, countOnly, getAll, getRange, countAll, countRange.
  rewrite Hopen, Hcalc. done.
Qed.

Lemma filter_only (k : string) (f : string → bool) (l : list string) :
  (∀ x, f x = true ↔ x = k) → NoDup l →
  List.filter f l = if decide (k ∈ l) then [k] else [].
Proof.
  intros Hf. induction l as [|x l IH]; intros Hnd; simpl.
  - done.
  - apply NoDup_cons in Hnd as [Hx Hnd]. rewrite IH by done.
    destruct (f x) eqn:Hfx.
    + apply Hf in Hfx. subst x. rewrite decide_False by done.
      by rewrite decide_True by (apply elem_of_cons; auto).
    + assert (x ≠ k) by (intros ->; by rewrite (proj2 (Hf k)) in Hfx).
      destruct (decide (k ∈ l)) as [Hin|Hnin].
      * by rewrite decide_True by (apply elem_of_cons; auto).
      * rewrite decide_False; [done|]. intros [?|?]%elem_of_cons; done.
Qed.

(** X17. [getOnly(key)] returns the bucket of the serialized key, that is
    all the rows under that index key, and the empty sequence when the
    derived mapping has no such key. *)
Theorem getOnly_returns_bucket ix w data key k reverse :
  wf w → (ix_mergedData ix < length (heap w))%nat →
  internal_isOpen (ix_trans ix) w = true →
  _calcChunkedData ix w = Returned data →
  serializeKeyToString key (_keyPath ix) = Returned k →
  getOnly ix key reverse None None w
    = Resolved (if decide (k ∈ dict_keys data) then bucket data k else []).
Proof.
  intros Hwf Hb Hopen Hcalc Hkey.
  pose proof (calcChunkedData_NoDup ix w data Hwf Hb Hcalc) as Hnd.
  unfold getOnly, getRange, _getKeysForRange. rewrite Hopen, Hcalc. simpl. rewrite Hkey. simpl.
  rewrite (filter_only k) by (done || apply in_range_only).
  unfold _returnResultsFromKeys.
  destruct (decide (k ∈ dict_keys data)).
  - change (sort [k]) with [k]. destruct (flag reverse); simpl; by rewrite app_nil_r.
  - change (sort []) with (@nil string). by destruct (flag reverse).
Qed.

End Buckets.

(** ** Rows and index keys *)

Section IndexRows.
Context `{Collaborators}.

Lemma flat_map_ext_elem {A B} (f g : A → list B) (l : list A) :
  (∀ x, x ∈ l → f x = g x) → flat_map f l = flat_map g l.
Proof.
  induction l as [|x l IH]; intros Hfg; simpl; [done|].
  rewrite (Hfg x) by (apply elem_of_cons; auto). f_equal.
  apply IH. intros y Hin. apply Hfg, elem_of_cons. auto.
Qed.

Lemma flat_map_app_Permutation {A B} (f g : A → list B) (l : list A) :
  flat_map (λ x, f x ++ g x) l ≡ₚ flat_map f l ++ flat_map g l.
Proof.
  induction l as [|x l IH]; simpl; [done|].
  rewrite IH, <- !app_assoc. apply Permutation_app_head.
  rewrite !app_assoc. apply Permutation_app_tail, Permutation_app_comm.
Qed.

Lemma flat_map_single (k0 : string) (item : value) (ks : list string) :
  NoDup ks → k0 ∈ ks →
  flat_map (λ k, if String.eqb k k0 then [item] else []) ks = [item].
Proof.
  induction ks as [|k ks IH]; intros Hnd Hin; [by apply elem_of_nil in Hin|].
  apply NoDup_cons in Hnd as [Hk Hnd]. simpl.
  destruct (String.eqb_spec k k0) as [->|Hne].
  - simpl. f_equal. clear IH Hin Hnd. induction ks as [|k ks IH]; simpl; [done|].
    apply not_elem_of_cons in Hk as [Hne Hk].
    destruct (String.eqb_spec k k0) as [->|_]; [done|]. by apply IH.
  - apply elem_of_cons in Hin as [->|Hin]; [done|]. by apply IH.
Qed.

(** The rows of the buckets of all keys, when every row has one key. *)
Lemma rows_under_all sch kp (ks : list string) (items : list value) :
  NoDup ks →
  (∀ item, item ∈ items → ∃ k0, keys_of_item sch kp item = Returned [k0] ∧ k0 ∈ ks) →
  flat_map (λ k, rows_under sch kp k items) ks ≡ₚ items.
Proof.
  intros Hnd. induction items as [|item rest IH]; intros Hall.
  - clear. induction ks as [|k ks IHk]; simpl; [done|exact IHk].
  - destruct (Hall item) as (k0 & Hk0 & Hin); [apply elem_of_cons; auto|].
    rewrite (flat_map_ext_elem _ (λ k, (if String.eqb k k0 then [item] else [])
                                        ++ rows_under sch kp k rest)).
    + rewrite flat_map_app_Permutation, flat_map_single by done. simpl.
      apply Permutation_cons; [done|]. apply IH. intros i Hi. apply Hall, elem_of_cons. auto.
    + intros k _. unfold rows_under. cbn [flat_map]. rewrite Hk0. simpl.
      by destruct (String.eqb k k0).
Qed.

(** X18. On an index that is neither multi-entry nor full-text, [getAll]
    without paging returns every row of the transaction's view of the store
    exactly once (grouped by index key, the keys ascending, or descending
    with [reverse]). *)
Theorem ordinary_index_getAll_lists_rows ix w sch data reverse :
  wf w → (ix_mergedData ix < length (heap w))%nat →
  internal_isOpen (ix_trans ix) w = true →
  _indexSchema ix = Some sch → fullText sch = false → multiEntry sch = false →
  _calcChunkedData ix w = Returned data →
  ∃ rows, getAll ix reverse None None w = Resolved rows ∧
    rows ≡ₚ dict_values (read_dict (ix_mergedData ix) w).
Proof.
  intros Hwf Hb Hopen Hsch Hft Hme Hcalc.
  pose proof (calcChunkedData_NoDup ix w data Hwf Hb Hcalc) as Hnd.
  unfold getAll. rewrite Hopen, Hcalc. unfold _returnResultsFromKeys.
  eexists. split; [done|]. rewrite flatten_buckets.
  unfold _calcChunkedData in Hcalc. rewrite Hsch in Hcalc.
  set (rows := dict_values (read_dict (ix_mergedData ix) w)) in *.
  destruct (pivot_buckets sch (_keyPath ix) rows [] data (λ _, []) Hcalc) as [Hget Hall]; [done|].
  simpl in Hget.
  set (ks := if flag reverse then rev (sort (dict_keys data)) else sort (dict_keys data)).
  assert (Hperm : ks ≡ₚ dict_keys data).
  { unfold ks, sort. destruct (flag reverse).
    - by rewrite <- Permutation_rev, merge_sort_Permutation.
    - apply merge_sort_Permutation. }
  rewrite (flat_map_ext_elem _ (λ k, rows_under sch (_keyPath ix) k rows)).
  - apply rows_under_all; [by rewrite Hperm|].
    intros item Hin. destruct (Hall item Hin) as [keys Hkeys].
    unfold keys_of_item in Hkeys. rewrite Hft, Hme in Hkeys.
    destruct (getSerializedKeyForKeypath item (_keyPath ix)) as [k0|e] eqn:Hk0; [|done].
    simpl in Hkeys. injection Hkeys as <-. exists k0. split.
    + unfold keys_of_item. by rewrite Hft, Hme, Hk0.
    + rewrite Hperm. destruct (decide (k0 ∈ dict_keys data)) as [|Hn]; [done|].
      apply dict_get_None in Hn. rewrite Hget in Hn.
      assert (Hrow : item ∈ rows_under sch (_keyPath ix) k0 rows).
      { apply rows_under_elem. split; [done|]. exists [k0]. split.
        - unfold keys_of_item. by rewrite Hft, Hme, Hk0.
        - apply list_elem_of_singleton. done. }
      destruct (rows_under sch (_keyPath ix) k0 rows); [by apply elem_of_nil in Hrow|done].
  - intros k Hin. rewrite Hperm in Hin. unfold bucket, dict_index. rewrite Hget.
    destruct (rows_under sch (_keyPath ix) k rows) as [|r rs] eqn:Hrows; [|done].
    exfalso. apply dict_get_None in Hin; [done|]. by rewrite Hget, Hrows.
Qed.

Lemma slice_subseteq {A} (l : list A) start stop x : x ∈ slice l start stop → x ∈ l.
Proof.
  unfold slice. intros Hin. apply list_elem_of_lookup in Hin as [i Hi].
  apply lookup_take_Some in Hi as [Hi _]. rewrite lookup_drop in Hi.
  by apply list_elem_of_lookup_2 in Hi.
Qed.

Lemma returned_rows_from_buckets (data : list (string * value)) keys reverse limit offset rows row :
  _returnResultsFromKeys data keys reverse limit offset = Resolved rows →
  row ∈ rows → ∃ k, k ∈ keys ∧ row ∈ bucket data k.
Proof.
  unfold _returnResultsFromKeys. rewrite flatten_buckets. intros [= <-].
  rewrite list_elem_of_In, in_flat_map. intros (k & Hk & Hrow).
  exists k. split; [|by apply list_elem_of_In].
  apply list_elem_of_In in Hk.
  assert (Hlim : ∀ l, k ∈ match limit with
                          | Some n => if n =? 0 then l else slice l 0 (Some n)
                          | None => l
                          end → k ∈ l).
  { intros l. destruct limit as [n|]; [|done]. destruct (n =? 0); [done|]. apply slice_subseteq. }
  apply Hlim in Hk.
  assert (Hoff : ∀ l, k ∈ match offset with
                          | Some o => if o =? 0 then l else slice l o None
                          | None => l
                          end → k ∈ l).
  { intros l. destruct offset as [o|]; [|done]. destruct (o =? 0); [done|]. apply slice_subseteq. }
  apply Hoff in Hk. destruct (flag reverse); [|done].
  by apply list_elem_of_In, in_rev, list_elem_of_In in Hk.
Qed.

(** X19. In a multi-entry index, a row whose indexed field is falsy
    (missing, [null], empty) contributes no key: it is in no bucket, no
    [getAll], [getOnly] or [getRange] returns it, and it makes no query
    fail. *)
Theorem multiEntry_skips_rows_without_field ix w sch data item v :
  internal_isOpen (ix_trans ix) w = true →
  _indexSchema ix = Some sch → fullText sch = false → multiEntry sch = true →
  _calcChunkedData ix w = Returned data →
  getValueForSingleKeypath item (_keyPath ix) = Returned v → truthy v = false →
  keys_of_item sch (_keyPath ix) item = Returned [] ∧
  (∀ k, k ∈ dict_keys data → item ∉ bucket data k) ∧
  (∀ low high lowEx highEx reverse limit offset rows,
     getAll ix reverse limit offset w = Resolved rows ∨
     getOnly ix low reverse limit offset w = Resolved rows ∨
     getRange ix low high lowEx highEx reverse limit offset w = Resolved rows →
     item ∉ rows).
Proof.
  intros Hopen Hsch Hft Hme Hcalc Hval Hfalsy.
  assert (Hkeys : keys_of_item sch (_keyPath ix) item = Returned []).
  { unfold keys_of_item. rewrite Hft, Hme, Hval. simpl. by rewrite Hfalsy. }
  destruct (calcChunkedData_buckets ix w sch data Hsch Hcalc) as (Hget & _).
  pose proof (rows_under_elem sch (_keyPath ix)) as Helem.
  assert (Hbucket : ∀ k, k ∈ dict_keys data → item ∉ bucket data k).
  { intros k Hin Hrow. unfold bucket, dict_index in Hrow. rewrite Hget in Hrow.
    destruct (rows_under _ _ _ _) as [|r rs] eqn:Hrows.
    - apply dict_get_None in Hin; [done|]. by rewrite Hget, Hrows.
    - simpl in Hrow. rewrite <- Hrows in Hrow. apply Helem in Hrow as (_ & keys & Hk & Hin').
      rewrite Hkeys in Hk. injection Hk as <-. by apply elem_of_nil in Hin'. }
  split_and!; [done|done|].
  intros low high lowEx highEx reverse limit offset rows Hq Hrow.
  assert (Hex : ∃ keys, (∀ k, k ∈ keys → k ∈ dict_keys data) ∧
                        _returnResultsFromKeys data keys reverse limit offset = Resolved rows).
  { unfold getOnly, getRange, getAll, _getKeysForRange in Hq. rewrite Hopen, Hcalc in Hq.
    simpl in Hq. destruct Hq as [Hq|[Hq|Hq]].
    - eexists. split; [|exact Hq]. intros k. unfold sort. by rewrite merge_sort_Permutation.
    - destruct (serializeKeyToString low (_keyPath ix)); simpl in Hq; [|done].
      eexists. split; [|exact Hq]. intros k. unfold sort. rewrite merge_sort_Permutation.
      rewrite list_elem_of_In, List.filter_In, <- list_elem_of_In. tauto.
    - destruct (serializeKeyToString low (_keyPath ix)); simpl in Hq; [|done].
      destruct (serializeKeyToString high (_keyPath ix)); simpl in Hq; [|done].
      eexists. split; [|exact Hq]. intros k. unfold sort. rewrite merge_sort_Permutation.
      rewrite list_elem_of_In, List.filter_In, <- list_elem_of_In. tauto. }
  destruct Hex as (keys & Hsub & Hres).
  destruct (returned_rows_from_buckets data keys reverse limit offset rows item Hres Hrow)
    as (k & Hk & Hin).
  by apply (Hbucket k (Hsub k Hk)).
Qed.

End IndexRows.

(** ** Paging at the ends, and the primary-key view *)

Section Paging.
Context `{Collaborators}.

Lemma slice_nil {A} (start : Z) (stop : option Z) : slice (@nil A) start stop = [].
Proof. unfold slice. by rewrite drop_nil, take_nil. Qed.

Lemma slice_length_le {A} (l : list A) (start : Z) (stop : option Z) :
  (length (slice l start stop) ≤ length l)%nat.
Proof. unfold slice. rewrite length_take, length_drop. lia. Qed.

Lemma slice_from_end {A} (l : list A) (o : Z) :
  o < 0 → slice l o None = drop (length l - Z.to_nat (- o)) l.
Proof.
  intros Ho. unfold slice, slice_index.
  destruct (Z.ltb_spec o 0) as [_|?]; [|lia].
  replace (Z.to_nat (Z.max (Z.of_nat (length l) + o) 0)) with (length l - Z.to_nat (- o))%nat by lia.
  apply take_ge. rewrite length_drop. lia.
Qed.

Lemma slice_to_end {A} (l : list A) (n : Z) :
  n < 0 → slice l 0 (Some n) = take (length l - Z.to_nat (- n)) l.
Proof.
  intros Hn. unfold slice, slice_index.
  destruct (Z.ltb_spec n 0) as [_|?]; [|lia]. simpl.
  change (drop 0 l) with l. rewrite Nat.sub_0_r. f_equal. lia.
Qed.

(** X20. Paging at the ends of the key sequence: an offset of at least the
    number of keys gives the empty sequence; a limit of at least the number
    of keys is no limit; a negative offset keeps only the last keys, as many
    as its magnitude, and a negative limit drops that many last keys
    ([Array.prototype.slice] counts a negative index from the end). *)
Theorem paging_at_the_ends data keys reverse :
  let ks := if flag reverse then rev keys else keys in
  (∀ limit o, Z.of_nat (length keys) ≤ o →
     _returnResultsFromKeys data keys reverse limit (Some o) = Resolved []) ∧
  (∀ n offset, Z.of_nat (length keys) ≤ n →
     _returnResultsFromKeys data keys reverse (Some n) offset
       = _returnResultsFromKeys data keys reverse None offset) ∧
  (∀ o, o < 0 →
     _returnResultsFromKeys data keys reverse None (Some o)
       = Resolved (flat_map (bucket data) (drop (length ks - Z.to_nat (- o)) ks))) ∧
  (∀ n, n < 0 →
     _returnResultsFromKeys data keys reverse (Some n) None
       = Resolved (flat_map (bucket data) (take (length ks - Z.to_nat (- n)) ks))).
Proof.
  intros ks.
  assert (Hlen : length ks = length keys).
  { unfold ks. destruct (flag reverse); [apply length_rev|done]. }
  split_and!.
  - intros limit o Ho. unfold _returnResultsFromKeys. fold ks.
    assert (Hnil : (if o =? 0 then ks else slice ks o None) = []).
    { destruct (Z.eqb_spec o 0) as [->|Hne].
      - apply nil_length_inv. lia.
      - rewrite slice_drop by lia. apply drop_ge. lia. }
    rewrite Hnil. destruct limit as [n|]; [|done].
    destruct (n =? 0); [done|]. by rewrite slice_nil.
  - intros n offset Hn. unfold _returnResultsFromKeys. fold ks.
    destruct (Z.eqb_spec n 0) as [->|Hne]; [done|].
    set (l := match offset with Some o => _ | None => _ end).
    assert (Hl : (length l ≤ length keys)%nat).
    { unfold l. destruct offset as [o|]; [|lia]. destruct (o =? 0); [lia|].
      pose proof (slice_length_le ks o None). lia. }
    rewrite slice_take by lia. rewrite take_ge by lia. done.
  - intros o Ho. unfold _returnResultsFromKeys. fold ks.
    destruct (Z.eqb_spec o 0) as [->|_]; [lia|].
    by rewrite flatten_buckets, slice_from_end.
  - intros n Hn. unfold _returnResultsFromKeys. fold ks.
    destruct (Z.eqb_spec n 0) as [->|_]; [lia|].
    by rewrite flatten_buckets, slice_to_end.
Qed.

Lemma ltb_le (a b : string) : String.ltb a b = true → String.le a b.
Proof. unfold String.ltb, String.le, String.leb. by destruct (String.compare a b). Qed.

Lemma ltb_irrefl (a : string) : String.ltb a a = false.
Proof.
  unfold String.ltb. pose proof (String.compare_antisym a a) as Hc.
  by destruct (String.compare a a).
Qed.

Lemma in_range_le keyLow keyHigh lowEx highEx k :
  in_range keyLow keyHigh lowEx highEx k = true → String.le keyLow k ∧ String.le k keyHigh.
Proof.
  intros [Hlow Hhigh]%in_range_within. split.
  - destruct Hlow as [?%ltb_le|[-> _]]; [done|]. reflexivity.
  - destruct Hhigh as [?%ltb_le|[-> _]]; [done|]. reflexivity.
Qed.

(** X21. A range whose bounds cross (the high bound below the low bound),
    or whose bounds are the same key with one of them exclusive, selects
    nothing: [getRange] returns the empty sequence and [countRange] 0,
    without failing. *)
Theorem crossed_bounds_select_nothing ix w data low high keyLow keyHigh lowEx highEx
    reverse limit offset :
  internal_isOpen (ix_trans ix) w = true →
  _calcChunkedData ix w = Returned data →
  serializeKeyToString low (_keyPath ix) = Returned keyLow →
  serializeKeyToString high (_keyPath ix) = Returned keyHigh →
  String.ltb keyHigh keyLow = true ∨
    (keyLow = keyHigh ∧ (flag lowEx = true ∨ flag highEx = true)) →
  getRange ix low high lowEx highEx reverse limit offset w = Resolved [] ∧
  countRange ix low high lowEx highEx w = Resolved 0.
Proof.
  intros Hopen Hcalc Hlow Hhigh Hcross.
  assert (Hnone : List.filter (in_range keyLow keyHigh lowEx highEx) (dict_keys data) = []).
  { induction (dict_keys data) as [|k ks IH]; simpl; [done|]. rewrite IH.
    destruct (in_range keyLow keyHigh lowEx highEx k) eqn:Hin; [|done]. exfalso.
    destruct (in_range_le _ _ _ _ _ Hin) as [Hl Hh].
    destruct Hcross as [Hlt|[<- Hex]].
    - assert (keyHigh = keyLow) as ->.
      { apply (anti_symm String.le); [by apply ltb_le|]. by etransitivity. }
      by rewrite ltb_irrefl in Hlt.
    - assert (k = keyLow) as -> by (by apply (anti_symm String.le)).
      unfold in_range in Hin. rewrite ltb_irrefl, String.eqb_refl in Hin. simpl in Hin.
      destruct Hex as [Hex|Hex]; rewrite Hex in Hin; simpl in Hin; [done|].
      by rewrite andb_false_r in Hin. }
  unfold getRange, countRange, _getKeysForRange. rewrite Hopen, Hcalc. simpl.
  rewrite Hlow, Hhigh. simpl. rewrite Hnone. split; [|done].
  change (sort []) with (@nil string). unfold _returnResultsFromKeys.
  destruct (flag reverse); simpl;
    destruct offset as [o|], limit as [n|]; repeat (destruct (_ =? 0)); by rewrite ?slice_nil.
Qed.

Lemma map_index_keys (d : list (string * value)) :
  NoDup (dict_keys d) → map (dict_index d) (dict_keys d) = dict_values d.
Proof.
  induction d as [|[k v] d IH]; intros Hnd; [done|].
  change (dict_keys ((k, v) :: d)) with (k :: dict_keys d) in *.
  apply NoDup_cons in Hnd as [Hk Hnd]. cbn [map].
  change (dict_values ((k, v) :: d)) with (v :: dict_values d). f_equal.
  - unfold dict_index. simpl. by rewrite String.eqb_refl.
  - rewrite <- IH by done. apply map_ext_in. intros k' Hin%list_elem_of_In.
    unfold dict_index. simpl. destruct (String.eqb_spec k k') as [->|Hne]; done.
Qed.

Lemma dict_index_elem (d : list (string * value)) k :
  k ∈ dict_keys d → dict_index d k ∈ dict_values d.
Proof.
  intros Hin. unfold dict_index. destruct (dict_get d k) as [v|] eqn:Hget.
  - apply dict_get_Some_elem in Hget. simpl. unfold dict_values.
    by apply (list_elem_of_fmap_2 snd) in Hget.
  - by apply dict_get_None in Hget.
Qed.

Lemma flatten_plain (l : list value) :
  (∀ v, v ∈ l → flatten1 v = [v]) → flatten l = l.
Proof.
  unfold flatten. induction l as [|v l IH]; intros Hall; simpl; [done|].
  rewrite (Hall v) by (apply elem_of_cons; auto). simpl. f_equal.
  apply IH. intros v' Hin. apply Hall, elem_of_cons. auto.
Qed.

(** X22. On the primary-key view of a store none of whose rows is an array,
    [getAll] without paging returns every row of the transaction's view of
    the store exactly once, in ascending order of the primary keys, or
    descending with [reverse]. *)
Theorem primary_key_getAll_lists_rows ix w reverse :
  wf w → (ix_mergedData ix < length (heap w))%nat →
  internal_isOpen (ix_trans ix) w = true →
  _indexSchema ix = None →
  let d := read_dict (ix_mergedData ix) w in
  (∀ row, row ∈ dict_values d → flatten1 row = [row]) →
  ∃ ks, ks ≡ₚ dict_keys d ∧ StronglySorted String.le ks ∧
    getAll ix reverse None None w
      = Resolved (map (dict_index d) (if flag reverse then rev ks else ks)) ∧
    map (dict_index d) (if flag reverse then rev ks else ks) ≡ₚ dict_values d.
Proof.
  intros Hwf Hb Hopen Hpk d Hplain.
  pose proof (wf_heap _ Hwf _ Hb) as Hnd. fold d in Hnd.
  exists (sort (dict_keys d)).
  assert (Hperm : sort (dict_keys d) ≡ₚ dict_keys d) by apply merge_sort_Permutation.
  assert (Hperm' : (if flag reverse then rev (sort (dict_keys d)) else sort (dict_keys d))
                   ≡ₚ dict_keys d).
  { destruct (flag reverse); [|done]. by rewrite <- Permutation_rev. }
  split_and!; [done| | |].
  - apply StronglySorted_merge_sort; apply _.
  - unfold getAll, _calcChunkedData. rewrite Hopen, Hpk. simpl. fold d.
    unfold _returnResultsFromKeys. f_equal. apply flatten_plain.
    intros v [k [-> Hk]]%list_elem_of_fmap_1. apply Hplain, dict_index_elem.
    by rewrite <- Hperm'.
  - rewrite <- (map_index_keys d) by done. by apply Permutation_map.
Qed.

End Paging.

(** ** The properties on the sample database *)

Lemma wf_world1 : wf world1.
Proof. apply wf_new_InMemoryTransaction, wf_open. Qed.

Lemma wf_world2 : wf world2.
Proof. apply wf_getStore, wf_world1. Qed.

Lemma wf_world_abc : wf world_abc.
Proof. apply put_ok; [apply wf_world2|vm_compute; lia]. Qed.

(** C1 (as the code behaves). After [abort], the operations of the store
    handle and the queries of its indexes are not rejected with
    [TransactionClosed]: [abort] cancels the timer and leaves [_openTimer]
    set, so [internal_isOpen] still answers true. *)
Theorem calls_after_abort_not_rejected :
  let w := abort 0%nat world_abc in
  internal_isOpen 0%nat w = true ∧
  get (H := sample_utils) 0%nat (VStr "a") w = Resolved VUndefined ∧
  getMultiple (H := sample_utils) 0%nat (VStr "a") w = Resolved [] ∧
  (put (H := sample_utils) 0%nat (person "d" []) w).1 = Resolved () ∧
  (remove (H := sample_utils) 0%nat (VStr "a") w).1 = Resolved () ∧
  (clearAllData 0%nat w).1 = Resolved () ∧
  getAll (H := sample_utils) index_pk None None None w
    = Resolved [person "a" ["x"; "y"]; person "b" []; person "c" ["y"]] ∧
  getOnly (H := sample_utils) index_pk (VStr "b") None None None w = Resolved [person "b" []] ∧
  getRange (H := sample_utils) index_pk (VStr "a") (VStr "b") None None None None None w
    = Resolved [person "a" ["x"; "y"]; person "b" []] ∧
  countAll (H := sample_utils) index_tags w = Resolved 2 ∧
  countOnly (H := sample_utils) index_tags (VStr "y") w = Resolved 1 ∧
  countRange (H := sample_utils) index_tags (VStr "x") (VStr "y") None None w = Resolved 2.
Proof. vm_compute. repeat split. Qed.

Lemma sample_acts_valid : valid_run (H := sample_utils) sample_acts world1.
Proof. vm_compute. repeat split; lia. Defined.

Lemma sample_acts_no_commit : no_commit sample_acts.
Proof.
  intros h Hin. unfold sample_acts in Hin.
  repeat (apply elem_of_cons in Hin as [Hin|Hin]; [discriminate|]).
  by apply elem_of_nil in Hin.
Defined.

(** C2 on the sample database: events of two transactions, then the abort
    of the first. *)
Lemma abort_discards_witness :
  wf world1 ∧ valid_run (H := sample_utils) sample_acts world1 ∧ no_commit sample_acts ∧
  let w1 := run (H := sample_utils) sample_acts world1 in
  let w' := abort 0%nat w1 in
  (∀ name sd, internal_getStore name world1 = Some sd →
     internal_getStore name w' = Some sd ∧ read_dict (data sd) w' = read_dict (data sd) world1) ∧
  (∀ name s, (name, s) ∈ tx_stores (trans_at 0%nat w1) →
     _pendingCommitDataChanges (store_at s w') = None ∧
     _mergedData (store_at s w') = _committedStoreData (store_at s w') ∧
     _committedStoreData (store_at s w') = _committedStoreData (store_at s w1)).
Proof.
  split_and!; [apply wf_world1|apply sample_acts_valid|apply sample_acts_no_commit|].
  apply (abort_discards (H := sample_utils) world1 0%nat sample_acts
           wf_world1 sample_acts_valid sample_acts_no_commit).
Defined.

(** C3 on the sample database: the row of "a". *)
Lemma put_get_round_trip_witness :
  wf world1 ∧ getStore 0%nat "people" world1 = (Returned 0%nat, world2) ∧
  internal_isOpen 0%nat world1 = true ∧
  arrayify (person "a" ["x"]) = [person "a" ["x"]] ∧
  getSerializedKeyForKeypath (Collaborators := sample_utils) (person "a" ["x"])
    (primaryKeyPath (_storeSchema (store_at 0%nat world2))) = Returned "a" ∧
  serializeKeyToString (Collaborators := sample_utils) (VStr "a")
    (primaryKeyPath (_storeSchema (store_at 0%nat world2))) = Returned "a" ∧
  let w2 := (put (H := sample_utils) 0%nat (person "a" ["x"]) world2).2 in
  (put (H := sample_utils) 0%nat (person "a" ["x"]) world2).1 = Resolved () ∧
  get (H := sample_utils) 0%nat (VStr "a") w2 = Resolved (person "a" ["x"]) ∧
  ∀ acts names writeNeeded t2 w4,
    valid_run (H := sample_utils) acts (timer_callback 0%nat w2) → no_commit acts →
    "people" ∈ names →
    openTransaction names writeNeeded (run (H := sample_utils) acts (timer_callback 0%nat w2))
      = (t2, w4) →
    ∃ s2 w5, getStore t2 "people" w4 = (Returned s2, w5) ∧
             get (H := sample_utils) s2 (VStr "a") w5 = Resolved (person "a" ["x"]).
Proof.
  split_and!; [apply wf_world1|reflexivity..|].
  apply (put_get_round_trip (H := sample_utils) world1 0%nat "people" 0%nat world2
           (person "a" ["x"]) (VStr "a") "a" wf_world1); reflexivity.
Defined.

(** C4 on the sample database: the commit of the rows of "a", "b" and "c",
    and the removal of "a". *)
Lemma commit_replays_pending_witness :
  wf world_abc ∧ ("people", 0%nat) ∈ tx_stores (trans_at 0%nat world_abc) ∧
  getStore 0%nat "people" world_abc = (Returned 0%nat, world_abc) ∧
  internal_isOpen 0%nat world_abc = true ∧
  formListOfSerializedKeys (Collaborators := sample_utils) (VStr "a")
    (primaryKeyPath (_storeSchema (store_at 0%nat world_abc))) = Returned ["a"] ∧
  dict_keys (read_dict 0%nat (timer_callback 0%nat world_abc)) = ["a"; "b"; "c"] ∧
  _pendingCommitDataChanges (store_at 0%nat (timer_callback 0%nat world_abc)) = None ∧
  (remove (H := sample_utils) 0%nat (VStr "a") world_abc).1 = Resolved () ∧
  ∀ acts names writeNeeded t2 w4,
    valid_run (H := sample_utils) acts
      (timer_callback 0%nat (remove (H := sample_utils) 0%nat (VStr "a") world_abc).2) →
    no_commit acts →
    "people" ∈ names →
    openTransaction names writeNeeded
      (run (H := sample_utils) acts
         (timer_callback 0%nat (remove (H := sample_utils) 0%nat (VStr "a") world_abc).2)) = (t2, w4) →
    ∃ s2 w5, getStore t2 "people" w4 = (Returned s2, w5) ∧
      ∀ k, k ∈ ["a"] →
        (k ∉ dict_keys (read_dict (_mergedData (store_at s2 w5)) w5)) ∧
        ∀ key, serializeKeyToString (Collaborators := sample_utils) key
                 (primaryKeyPath (_storeSchema (store_at 0%nat world_abc))) = Returned k →
               get (H := sample_utils) s2 key w5 = Resolved VUndefined.
Proof.
  assert (Hin : ("people", 0%nat) ∈ tx_stores (trans_at 0%nat world_abc)).
  { apply list_elem_of_singleton. reflexivity. }
  destruct (commit_replays_pending (H := sample_utils) world_abc 0%nat wf_world_abc)
    as [Hreplay Hremove].
  destruct (Hreplay "people" 0%nat Hin) as (_ & Hpending & _).
  destruct (Hremove "people" 0%nat world_abc (VStr "a") ["a"]) as [Hres Hfresh];
    [reflexivity..|].
  split_and!; [apply wf_world_abc|exact Hin|reflexivity..|exact Hpending|exact Hres|exact Hfresh].
Defined.

(** C5, the claim at a limit of 0: the range from "a" to "c" (exclusive)
    selects the keys "a" and "b"; with limit 0 the code returns the rows of
    both, where truncating to 0 keys returns none. *)
Lemma getRange_limit_zero_counterexample :
  let data := read_dict 1%nat world_abc in
  sort (List.filter (in_range "a" "c" None (Some true)) (dict_keys data)) = ["a"; "b"] ∧
  getRange (H := sample_utils) index_pk (VStr "a") (VStr "c") None (Some true) None (Some 0) None
    world_abc = Resolved [person "a" ["x"; "y"]; person "b" []] ∧
  getRange (H := sample_utils) index_pk (VStr "a") (VStr "c") None (Some true) None (Some 0) None
    world_abc ≠ Resolved (flat_map (bucket data) (claimed_page ["a"; "b"] false (Some 0) None)).
Proof. split_and!; [reflexivity|reflexivity|discriminate]. Qed.

(** C5 (amended) on the sample database: a reversed page of the range. *)
Lemma getRange_selects_sorts_pages_witness :
  internal_isOpen (ix_trans index_pk) world_abc = true ∧
  _calcChunkedData (H := sample_utils) index_pk world_abc = Returned (read_dict 1%nat world_abc) ∧
  serializeKeyToString (Collaborators := sample_utils) (VStr "a") (_keyPath index_pk) = Returned "a" ∧
  serializeKeyToString (Collaborators := sample_utils) (VStr "c") (_keyPath index_pk) = Returned "c" ∧
  (∀ o, Some 1 = Some o → 0 ≤ o) ∧ (∀ n, Some 1 = Some n → 0 ≤ n) ∧
  ∃ ks,
    (∀ k, k ∈ ks ↔ k ∈ dict_keys (read_dict 1%nat world_abc) ∧
                   within "a" "c" (flag None) (flag None) k) ∧
    StronglySorted String.le ks ∧
    (NoDup (dict_keys (read_dict 1%nat world_abc)) → NoDup ks) ∧
    getRange (H := sample_utils) index_pk (VStr "a") (VStr "c") None None (Some true)
      (Some 1) (Some 1) world_abc
      = Resolved (flat_map (bucket (read_dict 1%nat world_abc)) (page ks (flag (Some true)) (Some 1) (Some 1))).
Proof.
  assert (Hpos : ∀ o : Z, Some 1 = Some o → 0 ≤ o) by (intros o [= <-]; lia).
  split_and!; [reflexivity..|exact Hpos|exact Hpos|].
  apply (getRange_selects_sorts_pages (H := sample_utils) index_pk world_abc
           (read_dict 1%nat world_abc) (VStr "a") (VStr "c") "a" "c" None None (Some true)
           (Some 1) (Some 1)); [reflexivity..|exact Hpos|exact Hpos].
Defined.

(** C6 on the sample database: the multi-entry index on the tags. *)
Lemma counts_count_distinct_keys_witness :
  (wf world_abc ∧ (ix_mergedData index_tags < length (heap world_abc))%nat ∧
   internal_isOpen (ix_trans index_tags) world_abc = true ∧
   _calcChunkedData (H := sample_utils) index_tags world_abc
     = Returned [("x", VArr [person "a" ["x"; "y"]]);
                 ("y", VArr [person "a" ["x"; "y"]; person "c" ["y"]])] ∧
   countAll (H := sample_utils) index_tags world_abc = Resolved 2 ∧
   countOnly (H := sample_utils) index_tags (VStr "y") world_abc = Resolved 1) ∧
  (internal_isOpen (ix_trans index_tags) world_xy = true ∧
   read_dict (ix_mergedData index_tags) world_xy = [("a", person "a" ["x"; "y"])] ∧
   getValueForSingleKeypath (Collaborators := sample_utils) (person "a" ["x"; "y"])
     (_keyPath index_tags) = Returned (VArr [VStr "x"; VStr "y"]) ∧
   "x" ≠ "y" ∧
   _calcChunkedData (H := sample_utils) index_tags world_xy
     = Returned [("x", VArr [person "a" ["x"; "y"]]); ("y", VArr [person "a" ["x"; "y"]])] ∧
   getAll (H := sample_utils) index_tags None None None world_xy
     = Resolved [person "a" ["x"; "y"]; person "a" ["x"; "y"]] ∧
   countAll (H := sample_utils) index_tags world_xy = Resolved 2).
Proof.
  destruct (counts_count_distinct_keys (H := sample_utils)) as [Hgeneral Hexample].
  assert (Hheap : (ix_mergedData index_tags < length (heap world_abc))%nat) by (vm_compute; lia).
  destruct (Hgeneral index_tags world_abc
              [("x", VArr [person "a" ["x"; "y"]]);
               ("y", VArr [person "a" ["x"; "y"]; person "c" ["y"]])]
              wf_world_abc Hheap eq_refl eq_refl) as (_ & Hall & _ & Honly).
  assert (Hxy : "x" ≠ "y") by discriminate.
  destruct (Hexample index_tags world_xy
              {| index_name := "tags"; keyPath := KeyPath "tags";
                 unique := false; multiEntry := true; fullText := false |}
              "a" (person "a" ["x"; "y"]) "x" "y"
              eq_refl eq_refl eq_refl eq_refl eq_refl eq_refl eq_refl eq_refl Hxy)
    as (Hdata & HgetAll & Hcount).
  split; split_and!;
    [apply wf_world_abc|exact Hheap|reflexivity|reflexivity|exact Hall|
     exact (Honly (VStr "y") "y" eq_refl)|
     reflexivity|reflexivity|reflexivity|exact Hxy|exact Hdata|exact HgetAll|exact Hcount].
Defined.

(** C7, the claim across an abort: the transaction gets the handle 0 for
    "people", is aborted, and gets another handle for the same name. *)
Lemma getStore_after_abort_counterexample :
  (getStore 0%nat "people" world1).1 = Returned 0%nat ∧
  (getStore 0%nat "people" (abort 0%nat (getStore 0%nat "people" world1).2)).1 = Returned 1%nat ∧
  (getStore 0%nat "people" (abort 0%nat (getStore 0%nat "people" world1).2)).1
    ≠ (getStore 0%nat "people" world1).1.
Proof. split_and!; [reflexivity|reflexivity|discriminate]. Qed.

(** C7 (amended) on the sample database. *)
Lemma getStore_spec_witness :
  wf world1 ∧
  (∀ e, (getStore 0%nat "people" world1).1 = Threw e → NotFound e) ∧
  ((∃ e, (getStore 0%nat "people" world1).1 = Threw e) ↔
     "people" ∉ storeNames (_transToken (trans_at 0%nat world1)) ∨
     internal_getStore "people" world1 = None) ∧
  (∀ s w1, getStore 0%nat "people" world1 = (Returned s, w1) →
     ∀ acts, ActAbort 0%nat ∉ acts →
       getStore 0%nat "people" (run (H := sample_utils) acts w1)
         = (Returned s, run (H := sample_utils) acts w1)).
Proof.
  split; [apply wf_world1|].
  apply (getStore_spec (H := sample_utils) world1 0%nat "people" wf_world1).
Defined.

Lemma sample_calls_own :
  Forall (λ sc : sref * StoreCall,
            (sc.1 < length (storeObjs world2))%nat ∧ st_trans (store_at sc.1 world2) = 0%nat)
         sample_calls.
Proof.
  repeat first [apply List.Forall_nil
               | apply List.Forall_cons; [split; [vm_compute; lia|reflexivity]|]].
Defined.

(** C8 on the sample database: the calls of the first transaction. *)
Lemma uncommitted_writes_invisible_witness :
  wf world2 ∧
  Forall (λ sc : sref * StoreCall,
            (sc.1 < length (storeObjs world2))%nat ∧ st_trans (store_at sc.1 world2) = 0%nat)
         sample_calls ∧
  let w' := calls (H := sample_utils) sample_calls world2 in
  (∀ name sd, internal_getStore name world2 = Some sd →
     internal_getStore name w' = Some sd ∧ read_dict (data sd) w' = read_dict (data sd) world2) ∧
  (∀ s2 key keyOrKeys,
     (s2 < length (storeObjs world2))%nat → st_trans (store_at s2 world2) ≠ 0%nat →
     get (H := sample_utils) s2 key w' = get (H := sample_utils) s2 key world2 ∧
     getMultiple (H := sample_utils) s2 keyOrKeys w'
       = getMultiple (H := sample_utils) s2 keyOrKeys world2) ∧
  (∀ names writeNeeded name sd t2 w2,
     name ∈ names → internal_getStore name world2 = Some sd →
     openTransaction names writeNeeded w' = (t2, w2) →
     ∃ s2 w3, getStore t2 name w2 = (Returned s2, w3) ∧
       ∀ key, get (H := sample_utils) s2 key w3 =
         match serializeKeyToString (Collaborators := sample_utils) key (primaryKeyPath (schema sd)) with
         | Returned k => Resolved (dict_index (read_dict (data sd) world2) k)
         | Threw e => Rejected (RejError e)
         end) ∧
  (∀ acts name sd,
     valid_run (H := sample_utils) acts world2 → no_commit acts →
     internal_getStore name world2 = Some sd →
     internal_getStore name (run (H := sample_utils) acts world2) = Some sd ∧
     read_dict (data sd) (run (H := sample_utils) acts world2) = read_dict (data sd) world2).
Proof.
  split; [apply wf_world2|]. split; [apply sample_calls_own|].
  apply (uncommitted_writes_invisible (H := sample_utils) world2 0%nat sample_calls
           wf_world2 sample_calls_own).
Defined.

(** C9 on a store that holds the number 0 under the key "zero". *)
Lemma getMultiple_omits_falsy_rows_witness :
  store_isOpen 0%nat world_falsy = true ∧
  serializeKeyToString (Collaborators := sample_utils) (VStr "zero")
    (primaryKeyPath (_storeSchema (store_at 0%nat world_falsy))) = Returned "zero" ∧
  formListOfSerializedKeys (Collaborators := sample_utils) (VArr [VStr "zero"; VStr "one"])
    (primaryKeyPath (_storeSchema (store_at 0%nat world_falsy))) = Returned ["zero"; "one"] ∧
  "zero" ∈ ["zero"; "one"] ∧
  dict_get (read_dict (_mergedData (store_at 0%nat world_falsy)) world_falsy) "zero" = Some (VNum 0) ∧
  truthy (VNum 0) = false ∧
  get (H := sample_utils) 0%nat (VStr "zero") world_falsy = Resolved (VNum 0) ∧
  ∃ rows, getMultiple (H := sample_utils) 0%nat (VArr [VStr "zero"; VStr "one"]) world_falsy
            = Resolved rows ∧
    (VNum 0 ∉ rows) ∧ Forall (λ row, truthy row = true) rows ∧
    rows = compact (map (dict_index (dict_delete
                      (read_dict (_mergedData (store_at 0%nat world_falsy)) world_falsy) "zero"))
                      ["zero"; "one"]).
Proof.
  assert (Hin : "zero" ∈ ["zero"; "one"]) by (apply elem_of_cons; auto).
  split_and!; [reflexivity|reflexivity|reflexivity|exact Hin|reflexivity|reflexivity|..];
    apply (getMultiple_omits_falsy_rows (H := sample_utils) 0%nat world_falsy (VStr "zero")
             (VArr [VStr "zero"; VStr "one"]) ["zero"; "one"] "zero" (VNum 0)
             eq_refl eq_refl eq_refl Hin eq_refl eq_refl).
Defined.

(** C10 on the sample database: the rows of "a", "b" and "c" with limit 0
    and offset 0. *)
Lemma zero_limit_offset_as_omitted_witness :
  internal_isOpen (ix_trans index_pk) world_abc = true ∧
  _calcChunkedData (H := sample_utils) index_pk world_abc = Returned (read_dict 1%nat world_abc) ∧
  (∃ ks, ks ≡ₚ dict_keys (read_dict 1%nat world_abc) ∧
     getAll (H := sample_utils) index_pk None (Some 0) (Some 0) world_abc
       = Resolved (flat_map (bucket (read_dict 1%nat world_abc)) ks)) ∧
  getAll (H := sample_utils) index_pk None (Some 0) (Some 0) world_abc
    = Resolved [person "a" ["x"; "y"]; person "b" []; person "c" ["y"]] ∧
  getAll (H := sample_utils) index_pk None (Some 0) (Some 1) world_abc
    = Resolved [person "b" []; person "c" ["y"]] ∧
  getRange (H := sample_utils) index_pk (VStr "a") (VStr "b") None None None (Some 0) None world_abc
    = Resolved [person "a" ["x"; "y"]; person "b" []] ∧
  getOnly (H := sample_utils) index_pk (VStr "b") None (Some 0) (Some 0) world_abc
    = Resolved [person "b" []].
Proof.
  assert (Hopen : internal_isOpen (ix_trans index_pk) world_abc = true)
    by (vm_compute; reflexivity).
  assert (Hcalc : _calcChunkedData (H := sample_utils) index_pk world_abc
                  = Returned (read_dict 1%nat world_abc)) by (vm_compute; reflexivity).
  destruct (zero_limit_offset_as_omitted (H := sample_utils)) as (_ & _ & Hall & _).
  destruct (Hall index_pk world_abc (read_dict 1%nat world_abc) None Hopen Hcalc)
    as (ks & Hperm & _ & Hzero & _).
  split_and!; [exact Hopen|exact Hcalc| |vm_compute; reflexivity..].
  exists ks. split; [exact Hperm|]. apply Hzero; by right.
Defined.

(** ** Further properties on the sample database *)

(** A fact of the sample database that holds by evaluation. *)
Ltac computed := vm_compute; reflexivity.

Lemma world_abc_run :
  world_abc = run (H := sample_utils)
                [ActOpenTransaction ["people"] true; ActGetStore 0%nat "people";
                 ActStore 0%nat (CallPut (VArr [person "a" ["x"; "y"]; person "b" []; person "c" ["y"]]))]
                world0.
Proof. vm_compute. reflexivity. Qed.

Lemma reachable_world_abc : reachable (H := sample_utils) world_abc.
Proof.
  rewrite world_abc_run. apply reachable_run; [apply reach_open|].
  vm_compute. repeat split; lia.
Qed.

Lemma wf_world_second : wf world_second.
Proof. apply wf_getStore, wf_new_InMemoryTransaction, wf_tick, wf_world_abc. Qed.

Lemma wf_world_two : wf world_two.
Proof. apply wf_getStore, wf_new_InMemoryTransaction, wf_world_abc. Qed.

Lemma wf_world_two_puts : wf world_two_puts.
Proof. apply put_ok; [apply wf_world_two|vm_compute; lia]. Qed.

Lemma wf_world_bad_tag : wf world_bad_tag.
Proof. apply put_ok; [apply wf_world_abc|vm_compute; lia]. Qed.

Lemma wf_world_no_tags : wf world_no_tags.
Proof. apply put_ok; [apply wf_world_abc|vm_compute; lia]. Qed.

Lemma wf_world_names : wf world_names.
Proof.
  apply put_ok; [|vm_compute; lia].
  apply wf_getStore, wf_new_InMemoryTransaction, wf_open.
Qed.

(** X2 on the sample database. *)
Lemma reachable_worlds_invariant_witness :
  reachable (H := sample_utils) world_abc ∧ wf world_abc ∧ timers_ok world_abc.
Proof.
  split; [apply reachable_world_abc|].
  apply (reachable_worlds_invariant (H := sample_utils) world_abc reachable_world_abc).
Defined.

Lemma sample_acts_abort_no_tick : ActTick (nextTimer world0) ∉ sample_acts_abort.
Proof.
  intros Hin. unfold sample_acts_abort in Hin.
  repeat (apply elem_of_cons in Hin as [Hin|Hin]; [discriminate|]).
  by apply elem_of_nil in Hin.
Defined.

(** X3 on the sample database: the
    first transaction, with its abort. *)
Lemma transaction_open_until_its_timer_runs_witness :
  reachable (H := sample_utils) world0 ∧ (ActTick (nextTimer world0) ∉ sample_acts_abort) ∧
  let t := (openTransaction ["people"] true world0).1 in
  let w1 := (openTransaction ["people"] true world0).2 in
  internal_isOpen t w1 = true ∧ tx_stores (trans_at t w1) = [] ∧
  timer_pending (nextTimer world0) w1 = Some t ∧
  internal_isOpen t (run (H := sample_utils) sample_acts_abort w1) = true.
Proof.
  split; [apply reach_open|]. split; [apply sample_acts_abort_no_tick|].
  apply (transaction_open_until_its_timer_runs (H := sample_utils) world0 ["people"] true
           sample_acts_abort (reach_open sample_schema) sample_acts_abort_no_tick).
Defined.

(** X4 on the sample database. *)
Lemma abort_cancels_scheduled_commit_witness :
  reachable (H := sample_utils) world_abc ∧ (0 < length (transObjs world_abc))%nat ∧
  lockHelper (abort 0%nat world_abc)
    = lockHelper world_abc
      ++ [transactionFailed (_transToken (trans_at 0%nat world_abc)) "InMemoryTransaction Aborted"] ∧
  unscheduled 0%nat (run (H := sample_utils) sample_acts_after (abort 0%nat world_abc)).
Proof.
  assert (Hlt : (0 < length (transObjs world_abc))%nat) by (vm_compute; lia).
  split; [apply reachable_world_abc|]. split; [exact Hlt|].
  apply (abort_cancels_scheduled_commit (H := sample_utils) world_abc 0%nat sample_acts_after
           reachable_world_abc Hlt).
Defined.

(** X5 on the sample database: the
    commit of the first transaction. *)
Lemma scheduled_commit_runs_once_and_closes_witness :
  reachable (H := sample_utils) world_abc ∧ timer_pending 1%positive world_abc = Some 0%nat ∧
  internal_isOpen 0%nat world_abc = true ∧
  lockHelper (tick 1%positive world_abc)
    = lockHelper world_abc ++ [transactionComplete (_transToken (trans_at 0%nat world_abc))] ∧
  let w' := run (H := sample_utils) sample_acts_after (tick 1%positive world_abc) in
  internal_isOpen 0%nat w' = false ∧ unscheduled 0%nat w' ∧
  (∀ s key, st_trans (store_at s w') = 0%nat →
     get (H := sample_utils) s key w' = Rejected TransactionClosed) ∧
  (∀ ix, ix_trans ix = 0%nat →
     getAll (H := sample_utils) ix None None None w' = Rejected TransactionClosed).
Proof.
  assert (Hp : timer_pending 1%positive world_abc = Some 0%nat) by (vm_compute; reflexivity).
  split; [apply reachable_world_abc|]. split; [exact Hp|].
  destruct (scheduled_commit_runs_once_and_closes (H := sample_utils) world_abc 1%positive 0%nat
              sample_acts_after reachable_world_abc Hp)
    as (Hopen & Hlock & Hclosed & Hun & Hst & Hix).
  cbv zeta. split_and!; [exact Hopen|exact Hlock|exact Hclosed|exact Hun| |].
  - intros s key Hs. by destruct (Hst s key Hs) as (? & _).
  - intros ix Hi.
    by destruct (Hix ix VUndefined VUndefined None None None None None Hi) as (? & _).
Defined.

(** X6 on the sample database: the
    first transaction commits while the second holds a handle that has made
    no change. *)
Lemma commit_seen_by_unforked_handles_only_witness :
  wf world_two ∧ (0 < length (transObjs world_two))%nat ∧
  (1 < length (storeObjs world_two))%nat ∧ st_trans (store_at 1%nat world_two) ≠ 0%nat ∧
  ¬ forked 1%nat world_two ∧
  get (H := sample_utils) 1%nat (VStr "a") world_two = Resolved VUndefined ∧
  get (H := sample_utils) 1%nat (VStr "a") (timer_callback 0%nat world_two)
    = Resolved (person "a" ["x"; "y"]).
Proof.
  assert (Ht : (0 < length (transObjs world_two))%nat) by (vm_compute; lia).
  assert (Hs : (1 < length (storeObjs world_two))%nat) by (vm_compute; lia).
  assert (Hne : st_trans (store_at 1%nat world_two) ≠ 0%nat) by (vm_compute; lia).
  assert (Hnf : ¬ forked 1%nat world_two) by (intros [p Hp]; vm_compute in Hp; discriminate).
  assert (Hin : ("people", 0%nat) ∈ tx_stores (trans_at 0%nat world_two)).
  { vm_compute. apply list_elem_of_here. }
  assert (Hsame : _committedStoreData (store_at 0%nat world_two)
                  = _committedStoreData (store_at 1%nat world_two)) by computed.
  assert (Hopen : store_isOpen 1%nat world_two = true) by computed.
  assert (Hkey : serializeKeyToString (Collaborators := sample_utils) (VStr "a")
                   (primaryKeyPath (_storeSchema (store_at 1%nat world_two))) = Returned "a")
    by computed.
  destruct (commit_seen_by_unforked_handles_only (H := sample_utils) world_two 0%nat 1%nat
              wf_world_two Ht Hs Hne) as (_ & _ & _ & Hsees).
  split_and!; [apply wf_world_two|exact Ht|exact Hs|exact Hne|exact Hnf|computed|].
  rewrite (Hsees Hnf "people" 0%nat (VStr "a") "a" Hin Hsame Hopen Hkey). computed.
Defined.

(** X7 on the sample database: both transactions
    have put a row "c". *)
Lemma later_commit_wins_per_key_witness :
  wf world_two_puts ∧ 0%nat ≠ 1%nat ∧
  ("people", 0%nat) ∈ tx_stores (trans_at 0%nat world_two_puts) ∧
  ("people", 1%nat) ∈ tx_stores (trans_at 1%nat world_two_puts) ∧
  _committedStoreData (store_at 1%nat world_two_puts)
    = _committedStoreData (store_at 0%nat world_two_puts) ∧
  dict_get (read_dict (_committedStoreData (store_at 0%nat world_two_puts))
              (timer_callback 1%nat (timer_callback 0%nat world_two_puts))) "c"
    = Some (person "c" ["z"]) ∧
  dict_get (read_dict (_committedStoreData (store_at 0%nat world_two_puts))
              (timer_callback 1%nat (timer_callback 0%nat world_two_puts))) "a"
    = Some (person "a" ["x"; "y"]).
Proof.
  assert (Hne : 0%nat ≠ 1%nat) by lia.
  assert (Hin1 : ("people", 0%nat) ∈ tx_stores (trans_at 0%nat world_two_puts)).
  { vm_compute. apply list_elem_of_here. }
  assert (Hin2 : ("people", 1%nat) ∈ tx_stores (trans_at 1%nat world_two_puts)).
  { vm_compute. apply list_elem_of_here. }
  destruct (later_commit_wins_per_key world_two_puts 0%nat 1%nat "people" 0%nat 1%nat
              wf_world_two_puts Hne Hin1 Hin2) as [Hsame Hget].
  split_and!; [apply wf_world_two_puts|exact Hne|exact Hin1|exact Hin2|exact Hsame| |].
  - rewrite (Hget "c"). computed.
  - rewrite (Hget "a"). computed.
Defined.

Lemma sample_reads_only :
  Forall (λ sc : sref * StoreCall,
            (sc.1 < length (storeObjs world_second))%nat ∧ reads_only sc.2 = true) sample_reads.
Proof.
  unfold sample_reads.
  repeat first [apply List.Forall_nil
               |apply List.Forall_cons; [split; [vm_compute; lia|reflexivity]|]].
Defined.

(** X8 on the sample database: the
    second transaction reads and opens indexes, then commits. *)
Lemma read_only_transaction_commits_nothing_witness :
  wf world_second ∧ (1 < length (transObjs world_second))%nat ∧
  (∀ name s, (name, s) ∈ tx_stores (trans_at 1%nat world_second) →
     _pendingCommitDataChanges (store_at s world_second) = None) ∧
  Forall (λ sc : sref * StoreCall,
            (sc.1 < length (storeObjs world_second))%nat ∧ reads_only sc.2 = true) sample_reads ∧
  forked 1%nat (calls (H := sample_utils) sample_reads world_second) ∧
  committed_loc world_second 0%nat ∧
  dict_keys (read_dict 0%nat world_second) = ["a"; "b"; "c"] ∧
  let w' := timer_callback 1%nat (calls (H := sample_utils) sample_reads world_second) in
  prov_stores w' = prov_stores world_second ∧
  read_dict 0%nat w' = read_dict 0%nat world_second.
Proof.
  assert (Ht : (1 < length (transObjs world_second))%nat) by (vm_compute; lia).
  assert (Hnone : ∀ name s, (name, s) ∈ tx_stores (trans_at 1%nat world_second) →
                            _pendingCommitDataChanges (store_at s world_second) = None).
  { intros name s Hin. vm_compute in Hin.
    apply elem_of_cons in Hin as [Heq|Hin]; [|by apply elem_of_nil in Hin].
    injection Heq as -> ->. computed. }
  assert (Hc : committed_loc world_second 0%nat).
  { eexists "people", _. split; computed. }
  destruct (read_only_transaction_commits_nothing (H := sample_utils) world_second 1%nat
              sample_reads wf_world_second Ht Hnone sample_reads_only) as [Hprov Hkeep].
  split_and!; [apply wf_world_second|exact Ht|exact Hnone|apply sample_reads_only| |exact Hc|
               computed|].
  - vm_compute. by eexists.
  - cbv zeta. split; [exact Hprov|exact (Hkeep 0%nat Hc)].
Defined.

(** X9 on the sample database: two rows for "a" in one
    [put]. *)
Lemma put_last_write_wins_witness :
  wf world2 ∧ (0 < length (storeObjs world2))%nat ∧ store_isOpen 0%nat world2 = true ∧
  amap (λ item, getSerializedKeyForKeypath (Collaborators := sample_utils) item
                  (primaryKeyPath (_storeSchema (store_at 0%nat world2))))
       (arrayify (VArr [person "a" ["x"]; person "b" []; person "a" ["y"]]))
    = Returned ["a"; "b"; "a"] ∧
  serializeKeyToString (Collaborators := sample_utils) (VStr "a")
    (primaryKeyPath (_storeSchema (store_at 0%nat world2))) = Returned "a" ∧
  let w' := (put (H := sample_utils) 0%nat
               (VArr [person "a" ["x"]; person "b" []; person "a" ["y"]]) world2).2 in
  (put (H := sample_utils) 0%nat
     (VArr [person "a" ["x"]; person "b" []; person "a" ["y"]]) world2).1 = Resolved () ∧
  get (H := sample_utils) 0%nat (VStr "a") w' = Resolved (person "a" ["y"]) ∧
  get (H := sample_utils) 0%nat (VStr "b") w' = Resolved (person "b" []).
Proof.
  assert (Hs : (0 < length (storeObjs world2))%nat) by (vm_compute; lia).
  assert (Hopen : store_isOpen 0%nat world2 = true) by computed.
  assert (Hks : amap (λ item, getSerializedKeyForKeypath (Collaborators := sample_utils) item
                                (primaryKeyPath (_storeSchema (store_at 0%nat world2))))
                     (arrayify (VArr [person "a" ["x"]; person "b" []; person "a" ["y"]]))
                = Returned ["a"; "b"; "a"]) by computed.
  assert (Hkey : serializeKeyToString (Collaborators := sample_utils) (VStr "a")
                   (primaryKeyPath (_storeSchema (store_at 0%nat world2))) = Returned "a")
    by computed.
  destruct (put_last_write_wins (H := sample_utils) world2 0%nat
              (VArr [person "a" ["x"]; person "b" []; person "a" ["y"]]) ["a"; "b"; "a"]
              (VStr "a") "a" wf_world2 Hs Hopen Hks Hkey) as (Hres & Hlast & _).
  split_and!; [apply wf_world2|exact Hs|exact Hopen|exact Hks|exact Hkey|].
  cbv zeta. split_and!; [exact Hres| |computed].
  apply (Hlast 2%nat (person "a" ["y"])); [reflexivity|reflexivity|].
  intros j Hj. destruct j as [|[|[|j]]]; try lia; discriminate.
Defined.

(** X10 on the sample database: a number among
    the rows. *)
Lemma put_keeps_items_before_failure_witness :
  wf world2 ∧ (0 < length (storeObjs world2))%nat ∧ store_isOpen 0%nat world2 = true ∧
  amap (λ item, getSerializedKeyForKeypath (Collaborators := sample_utils) item
                  (primaryKeyPath (_storeSchema (store_at 0%nat world2))))
       [person "a" []] = Returned ["a"] ∧
  getSerializedKeyForKeypath (Collaborators := sample_utils) (VNum 1)
    (primaryKeyPath (_storeSchema (store_at 0%nat world2))) = Threw (Error "unsupported key") ∧
  put (H := sample_utils) 0%nat (VArr ([person "a" []] ++ VNum 1 :: [person "b" []])) world2
    = (Rejected (RejError (Error "unsupported key")),
       (put (H := sample_utils) 0%nat (VArr [person "a" []]) world2).2) ∧
  (put (H := sample_utils) 0%nat (VArr [person "a" []]) world2).1 = Resolved () ∧
  get (H := sample_utils) 0%nat (VStr "a")
    (put (H := sample_utils) 0%nat (VArr ([person "a" []] ++ VNum 1 :: [person "b" []])) world2).2
    = Resolved (person "a" []) ∧
  get (H := sample_utils) 0%nat (VStr "b")
    (put (H := sample_utils) 0%nat (VArr ([person "a" []] ++ VNum 1 :: [person "b" []])) world2).2
    = Resolved VUndefined.
Proof.
  assert (Hs : (0 < length (storeObjs world2))%nat) by (vm_compute; lia).
  assert (Hopen : store_isOpen 0%nat world2 = true) by computed.
  assert (Hks : amap (λ item, getSerializedKeyForKeypath (Collaborators := sample_utils) item
                                (primaryKeyPath (_storeSchema (store_at 0%nat world2))))
                     [person "a" []] = Returned ["a"]) by computed.
  assert (Hbad : getSerializedKeyForKeypath (Collaborators := sample_utils) (VNum 1)
                   (primaryKeyPath (_storeSchema (store_at 0%nat world2)))
                 = Threw (Error "unsupported key")) by computed.
  destruct (put_keeps_items_before_failure (H := sample_utils) world2 0%nat
              [person "a" []] (VNum 1) [person "b" []] ["a"] (Error "unsupported key")
              wf_world2 Hs Hopen Hks Hbad) as [Hput Hgood].
  split_and!; [apply wf_world2|exact Hs|exact Hopen|exact Hks|exact Hbad|exact Hput|
               exact Hgood|computed|computed].
Defined.

(** X11 on the sample database: a stored key and a key that
    is not stored. *)
Lemma remove_then_reads_witness :
  wf world_abc ∧ (0 < length (storeObjs world_abc))%nat ∧ store_isOpen 0%nat world_abc = true ∧
  formListOfSerializedKeys (Collaborators := sample_utils) (VArr [VStr "a"; VStr "zz"])
    (primaryKeyPath (_storeSchema (store_at 0%nat world_abc))) = Returned ["a"; "zz"] ∧
  let w' := (remove (H := sample_utils) 0%nat (VArr [VStr "a"; VStr "zz"]) world_abc).2 in
  (remove (H := sample_utils) 0%nat (VArr [VStr "a"; VStr "zz"]) world_abc).1 = Resolved () ∧
  get (H := sample_utils) 0%nat (VStr "a") w' = Resolved VUndefined ∧
  get (H := sample_utils) 0%nat (VStr "b") w' = Resolved (person "b" []) ∧
  getMultiple (H := sample_utils) 0%nat (VArr [VStr "a"; VStr "b"; VStr "c"]) w'
    = Resolved [person "b" []; person "c" ["y"]].
Proof.
  assert (Hs : (0 < length (storeObjs world_abc))%nat) by (vm_compute; lia).
  assert (Hopen : store_isOpen 0%nat world_abc = true) by computed.
  assert (Hkeys : formListOfSerializedKeys (Collaborators := sample_utils)
                    (VArr [VStr "a"; VStr "zz"])
                    (primaryKeyPath (_storeSchema (store_at 0%nat world_abc)))
                  = Returned ["a"; "zz"]) by computed.
  assert (Ha : serializeKeyToString (Collaborators := sample_utils) (VStr "a")
                 (primaryKeyPath (_storeSchema (store_at 0%nat world_abc))) = Returned "a")
    by computed.
  destruct (remove_then_reads (H := sample_utils) world_abc 0%nat (VArr [VStr "a"; VStr "zz"])
              ["a"; "zz"] wf_world_abc Hs Hopen Hkeys) as (Hres & Hget & _).
  split_and!; [apply wf_world_abc|exact Hs|exact Hopen|exact Hkeys|].
  cbv zeta. split_and!; [exact Hres| |computed|computed].
  rewrite (Hget (VStr "a") "a" Ha). computed.
Defined.

(** X12 on the sample database: the second
    transaction clears the store the first one has committed three rows
    to. *)
Lemma clearAllData_empties_store_witness :
  wf world_second ∧ (1 < length (storeObjs world_second))%nat ∧
  store_isOpen 1%nat world_second = true ∧
  dict_keys (read_dict (_committedStoreData (store_at 1%nat world_second)) world_second)
    = ["a"; "b"; "c"] ∧
  let w' := (clearAllData 1%nat world_second).2 in
  (clearAllData 1%nat world_second).1 = Resolved () ∧
  (∀ key k, serializeKeyToString (Collaborators := sample_utils) key
              (primaryKeyPath (_storeSchema (store_at 1%nat world_second))) = Returned k →
     get (H := sample_utils) 1%nat key w' = Resolved VUndefined) ∧
  countAll (H := sample_utils) (openPrimaryKey 1%nat w').1 (openPrimaryKey 1%nat w').2 = Resolved 0 ∧
  read_dict (_committedStoreData (store_at 1%nat world_second)) (timer_callback 1%nat w') = [].
Proof.
  assert (Hs : (1 < length (storeObjs world_second))%nat) by (vm_compute; lia).
  assert (Hopen : store_isOpen 1%nat world_second = true) by computed.
  assert (Hnone : _pendingCommitDataChanges (store_at 1%nat world_second) = None) by computed.
  assert (Hin : ("people", 1%nat) ∈ tx_stores (trans_at 1%nat world_second)).
  { vm_compute. apply list_elem_of_here. }
  destruct (clearAllData_empties_store (H := sample_utils) world_second 1%nat
              wf_world_second Hs Hopen) as (Hres & Hget & _ & Hcount & Hcommit).
  split_and!; [apply wf_world_second|exact Hs|exact Hopen|computed|].
  cbv zeta. split_and!; [exact Hres|exact Hget|exact Hcount|].
  exact (Hcommit 1%nat "people" Hnone Hin).
Defined.

Lemma forked_world_abc : forked 0%nat world_abc.
Proof. vm_compute. by eexists. Defined.

(** X13 on the sample database: the
    primary-key view opened before a [put], a [remove] and a
    [clearAllData]. *)
Lemma index_sees_writes_but_not_clear_witness :
  wf world_abc ∧ (0 < length (storeObjs world_abc))%nat ∧ store_isOpen 0%nat world_abc = true ∧
  forked 0%nat world_abc ∧ ix_mergedData index_pk = _mergedData (store_at 0%nat world_abc) ∧
  ix_mergedData index_pk
    = _mergedData (store_at 0%nat (put (H := sample_utils) 0%nat (person "d" []) world_abc).2) ∧
  ix_mergedData index_pk
    = _mergedData (store_at 0%nat (remove (H := sample_utils) 0%nat (VStr "a") world_abc).2) ∧
  let w' := (clearAllData 0%nat world_abc).2 in
  read_dict (_mergedData (store_at 0%nat w')) w' = [] ∧
  read_dict (ix_mergedData index_pk) w' = read_dict (ix_mergedData index_pk) world_abc ∧
  get (H := sample_utils) 0%nat (VStr "a") w' = Resolved VUndefined ∧
  getAll (H := sample_utils) index_pk None None None w'
    = getAll (H := sample_utils) index_pk None None None world_abc ∧
  getAll (H := sample_utils) index_pk None None None world_abc
    = Resolved [person "a" ["x"; "y"]; person "b" []; person "c" ["y"]].
Proof.
  assert (Hs : (0 < length (storeObjs world_abc))%nat) by (vm_compute; lia).
  assert (Hopen : store_isOpen 0%nat world_abc = true) by computed.
  assert (Hix : ix_mergedData index_pk = _mergedData (store_at 0%nat world_abc)) by computed.
  destruct (index_sees_writes_but_not_clear (H := sample_utils) world_abc 0%nat index_pk
              wf_world_abc Hs Hopen forked_world_abc Hix)
    as (Hput & Hremove & Hempty & Hold & Hsame).
  split_and!; [apply wf_world_abc|exact Hs|exact Hopen|apply forked_world_abc|exact Hix|
               exact (Hput (person "d" []))|exact (Hremove (VStr "a"))|].
  cbv zeta. split_and!; [exact Hempty|exact Hold|computed| |computed].
  by destruct (Hsame VUndefined VUndefined None None None None None) as (? & _).
Defined.

(** X14 on the sample database: the handle
    before its first write. *)
Lemma openIndex_and_openPrimaryKey_witness :
  wf world2 ∧ (0 < length (storeObjs world2))%nat ∧
  ¬ forked 0%nat world2 ∧
  openIndex 0%nat "nope" world2 = (None, world2) ∧
  (∃ ix w', openIndex 0%nat "tags" world2 = (Some ix, w') ∧
     _keyPath ix = KeyPath "tags" ∧ forked 0%nat w' ∧
     ix_mergedData ix = _mergedData (store_at 0%nat w')) ∧
  (∃ ix w', openPrimaryKey 0%nat world2 = (ix, w') ∧
     _indexSchema ix = None ∧ forked 0%nat w' ∧
     _pendingCommitDataChanges (store_at 0%nat w') = Some []).
Proof.
  assert (Hs : (0 < length (storeObjs world2))%nat) by (vm_compute; lia).
  assert (Hnf : ¬ forked 0%nat world2) by (intros [p Hp]; vm_compute in Hp; discriminate).
  assert (Hidx : indexes (_storeSchema (store_at 0%nat world2))
                 = [] ++ {| index_name := "tags"; keyPath := KeyPath "tags";
                            unique := false; multiEntry := true; fullText := false |} :: [])
    by computed.
  assert (Hnone : _pendingCommitDataChanges (store_at 0%nat world2) = None) by computed.
  destruct (openIndex_and_openPrimaryKey world2 0%nat wf_world2 Hs) as (Habsent & Hsome & Hpk).
  split_and!; [apply wf_world2|exact Hs|exact Hnf| | |].
  - apply Habsent. intros idx Hin. rewrite Hidx in Hin.
    apply elem_of_cons in Hin as [->|Hin]; [discriminate|by apply elem_of_nil in Hin].
  - destruct (Hsome [] _ [] Hidx) as (ix & w' & Hopen & _ & Hkp & _ & Hm & Hf & _ & _).
    + by intros i ?%elem_of_nil.
    + exists ix, w'. split_and!; [exact Hopen|exact Hkp|exact Hf|exact Hm].
  - destruct Hpk as (ix & w' & Hopen & Hsch & _ & _ & _ & Hf & _ & Hp).
    rewrite Hnone in Hp. exists ix, w'. split_and!; [exact Hopen|exact Hsch|exact Hf|exact Hp].
Defined.

(** X15 on the sample database: the buckets of the
    tags "x" and "y". *)
Lemma derived_mapping_buckets_witness :
  _indexSchema index_tags
    = Some {| index_name := "tags"; keyPath := KeyPath "tags";
              unique := false; multiEntry := true; fullText := false |} ∧
  _calcChunkedData (H := sample_utils) index_tags world_abc
    = Returned [("x", VArr [person "a" ["x"; "y"]]);
                ("y", VArr [person "a" ["x"; "y"]; person "c" ["y"]])] ∧
  "y" ∈ dict_keys [("x", VArr [person "a" ["x"; "y"]]);
                   ("y", VArr [person "a" ["x"; "y"]; person "c" ["y"]])] ∧
  bucket [("x", VArr [person "a" ["x"; "y"]]);
          ("y", VArr [person "a" ["x"; "y"]; person "c" ["y"]])] "y"
    = rows_under (H := sample_utils)
        {| index_name := "tags"; keyPath := KeyPath "tags";
           unique := false; multiEntry := true; fullText := false |}
        (_keyPath index_tags) "y" (dict_values (read_dict (ix_mergedData index_tags) world_abc)) ∧
  bucket [("x", VArr [person "a" ["x"; "y"]]);
          ("y", VArr [person "a" ["x"; "y"]; person "c" ["y"]])] "y"
    = [person "a" ["x"; "y"]; person "c" ["y"]].
Proof.
  assert (Hsch : _indexSchema index_tags
                 = Some {| index_name := "tags"; keyPath := KeyPath "tags";
                           unique := false; multiEntry := true; fullText := false |}) by computed.
  assert (Hcalc : _calcChunkedData (H := sample_utils) index_tags world_abc
                  = Returned [("x", VArr [person "a" ["x"; "y"]]);
                              ("y", VArr [person "a" ["x"; "y"]; person "c" ["y"]])]) by computed.
  assert (Hy : "y" ∈ dict_keys [("x", VArr [person "a" ["x"; "y"]]);
                                ("y", VArr [person "a" ["x"; "y"]; person "c" ["y"]])]).
  { vm_compute. apply list_elem_of_further, list_elem_of_here. }
  destruct (derived_mapping_buckets (H := sample_utils) index_tags world_abc _ _ Hsch Hcalc)
    as (_ & _ & Hbucket & _).
  split_and!; [exact Hsch|exact Hcalc|exact Hy| |computed].
  exact (proj1 (Hbucket "y" Hy)).
Defined.

(** X16 on the sample database: a row with
    a tag that is a number. *)
Lemma index_key_failure_rejects_queries_witness :
  internal_isOpen (ix_trans index_tags) world_bad_tag = true ∧
  _indexSchema index_tags
    = Some {| index_name := "tags"; keyPath := KeyPath "tags";
              unique := false; multiEntry := true; fullText := false |} ∧
  row_bad_tag ∈ dict_values (read_dict (ix_mergedData index_tags) world_bad_tag) ∧
  keys_of_item (H := sample_utils)
    {| index_name := "tags"; keyPath := KeyPath "tags";
       unique := false; multiEntry := true; fullText := false |}
    (_keyPath index_tags) row_bad_tag = Threw (Error "unsupported key") ∧
  ∃ e, _calcChunkedData (H := sample_utils) index_tags world_bad_tag = Threw e ∧
       getAll (H := sample_utils) index_tags None None None world_bad_tag = Rejected (RejError e) ∧
       countAll (H := sample_utils) index_tags world_bad_tag = Rejected (RejError e).
Proof.
  assert (Hopen : internal_isOpen (ix_trans index_tags) world_bad_tag = true) by computed.
  assert (Hsch : _indexSchema index_tags
                 = Some {| index_name := "tags"; keyPath := KeyPath "tags";
                           unique := false; multiEntry := true; fullText := false |}) by computed.
  assert (Hin : row_bad_tag ∈ dict_values (read_dict (ix_mergedData index_tags) world_bad_tag)).
  { vm_compute. do 3 apply list_elem_of_further. apply list_elem_of_here. }
  assert (Hthrow : keys_of_item (H := sample_utils)
                     {| index_name := "tags"; keyPath := KeyPath "tags";
                        unique := false; multiEntry := true; fullText := false |}
                     (_keyPath index_tags) row_bad_tag = Threw (Error "unsupported key"))
    by computed.
  destruct (index_key_failure_rejects_queries (H := sample_utils) index_tags world_bad_tag
              _ row_bad_tag (Error "unsupported key") Hopen Hsch Hin Hthrow)
    as (e & Hcalc & Hq).
  split_and!; [exact Hopen|exact Hsch|exact Hin|exact Hthrow|].
  exists e. destruct (Hq VUndefined VUndefined None None None None None) as (Ha & _ & _ & Hc & _).
  split_and!; [exact Hcalc|exact Ha|exact Hc].
Defined.

(** X17 on the sample database: the rows with the tag
    "y", and a tag no row has. *)
Lemma getOnly_returns_bucket_witness :
  wf world_abc ∧ (ix_mergedData index_tags < length (heap world_abc))%nat ∧
  internal_isOpen (ix_trans index_tags) world_abc = true ∧
  _calcChunkedData (H := sample_utils) index_tags world_abc
    = Returned [("x", VArr [person "a" ["x"; "y"]]);
                ("y", VArr [person "a" ["x"; "y"]; person "c" ["y"]])] ∧
  getOnly (H := sample_utils) index_tags (VStr "y") None None None world_abc
    = Resolved [person "a" ["x"; "y"]; person "c" ["y"]] ∧
  getOnly (H := sample_utils) index_tags (VStr "q") (Some true) None None world_abc = Resolved [].
Proof.
  assert (Hb : (ix_mergedData index_tags < length (heap world_abc))%nat) by (vm_compute; lia).
  assert (Hopen : internal_isOpen (ix_trans index_tags) world_abc = true) by computed.
  assert (Hcalc : _calcChunkedData (H := sample_utils) index_tags world_abc
                  = Returned [("x", VArr [person "a" ["x"; "y"]]);
                              ("y", VArr [person "a" ["x"; "y"]; person "c" ["y"]])]) by computed.
  assert (Hy : serializeKeyToString (Collaborators := sample_utils) (VStr "y")
                 (_keyPath index_tags) = Returned "y") by computed.
  assert (Hq : serializeKeyToString (Collaborators := sample_utils) (VStr "q")
                 (_keyPath index_tags) = Returned "q") by computed.
  split_and!; [apply wf_world_abc|exact Hb|exact Hopen|exact Hcalc| |].
  - rewrite (getOnly_returns_bucket (H := sample_utils) index_tags world_abc _ (VStr "y") "y"
               None wf_world_abc Hb Hopen Hcalc Hy). computed.
  - rewrite (getOnly_returns_bucket (H := sample_utils) index_tags world_abc _ (VStr "q") "q"
               (Some true) wf_world_abc Hb Hopen Hcalc Hq). computed.
Defined.

(** X18 on the sample database: the index on
    the field "name". *)
Lemma ordinary_index_getAll_lists_rows_witness :
  wf world_names ∧ (ix_mergedData index_by_name < length (heap world_names))%nat ∧
  internal_isOpen (ix_trans index_by_name) world_names = true ∧
  _indexSchema index_by_name = Some index_schema_name ∧
  fullText index_schema_name = false ∧ multiEntry index_schema_name = false ∧
  _calcChunkedData (H := sample_utils) index_by_name world_names
    = Returned [("bob", VArr [named "1" "bob"; named "3" "bob"]); ("al", VArr [named "2" "al"])] ∧
  getAll (H := sample_utils) index_by_name None None None world_names
    = Resolved [named "2" "al"; named "1" "bob"; named "3" "bob"] ∧
  ∃ rows, getAll (H := sample_utils) index_by_name (Some true) None None world_names
            = Resolved rows ∧
          rows ≡ₚ dict_values (read_dict (ix_mergedData index_by_name) world_names).
Proof.
  assert (Hb : (ix_mergedData index_by_name < length (heap world_names))%nat) by (vm_compute; lia).
  assert (Hopen : internal_isOpen (ix_trans index_by_name) world_names = true) by computed.
  assert (Hsch : _indexSchema index_by_name = Some index_schema_name) by computed.
  assert (Hcalc : _calcChunkedData (H := sample_utils) index_by_name world_names
                  = Returned [("bob", VArr [named "1" "bob"; named "3" "bob"]);
                              ("al", VArr [named "2" "al"])]) by computed.
  split_and!; [apply wf_world_names|exact Hb|exact Hopen|exact Hsch|reflexivity|reflexivity|
               exact Hcalc|computed|].
  apply (ordinary_index_getAll_lists_rows (H := sample_utils) index_by_name world_names
           index_schema_name _ (Some true) wf_world_names Hb Hopen Hsch eq_refl eq_refl Hcalc).
Defined.

(** X19 on the sample database: a row
    without tags. *)
Lemma multiEntry_skips_rows_without_field_witness :
  internal_isOpen (ix_trans index_tags) world_no_tags = true ∧
  _calcChunkedData (H := sample_utils) index_tags world_no_tags
    = Returned [("x", VArr [person "a" ["x"; "y"]]);
                ("y", VArr [person "a" ["x"; "y"]; person "c" ["y"]])] ∧
  getValueForSingleKeypath (Collaborators := sample_utils) row_no_tags (_keyPath index_tags)
    = Returned VNull ∧
  truthy VNull = false ∧
  row_no_tags ∈ dict_values (read_dict (ix_mergedData index_tags) world_no_tags) ∧
  getAll (H := sample_utils) index_tags None None None world_no_tags
    = Resolved [person "a" ["x"; "y"]; person "a" ["x"; "y"]; person "c" ["y"]] ∧
  ∀ rows, getAll (H := sample_utils) index_tags None None None world_no_tags = Resolved rows →
          row_no_tags ∉ rows.
Proof.
  assert (Hopen : internal_isOpen (ix_trans index_tags) world_no_tags = true) by computed.
  assert (Hsch : _indexSchema index_tags
                 = Some {| index_name := "tags"; keyPath := KeyPath "tags";
                           unique := false; multiEntry := true; fullText := false |}) by computed.
  assert (Hcalc : _calcChunkedData (H := sample_utils) index_tags world_no_tags
                  = Returned [("x", VArr [person "a" ["x"; "y"]]);
                              ("y", VArr [person "a" ["x"; "y"]; person "c" ["y"]])]) by computed.
  assert (Hval : getValueForSingleKeypath (Collaborators := sample_utils) row_no_tags
                   (_keyPath index_tags) = Returned VNull) by computed.
  destruct (multiEntry_skips_rows_without_field (H := sample_utils) index_tags world_no_tags
              _ _ row_no_tags VNull Hopen Hsch eq_refl eq_refl Hcalc Hval eq_refl)
    as (_ & _ & Hq).
  split_and!; [exact Hopen|exact Hcalc|exact Hval|reflexivity| |computed|].
  - vm_compute. do 3 apply list_elem_of_further. apply list_elem_of_here.
  - intros rows Hrows. apply (Hq VUndefined VUndefined None None None None None rows). by left.
Defined.

(** X21 on the sample database: from "c" down
    to "a", and from "b" to "b" without "b". *)
Lemma crossed_bounds_select_nothing_witness :
  internal_isOpen (ix_trans index_pk) world_abc = true ∧
  _calcChunkedData (H := sample_utils) index_pk world_abc = Returned (read_dict 1%nat world_abc) ∧
  String.ltb "a" "c" = true ∧
  getRange (H := sample_utils) index_pk (VStr "c") (VStr "a") None None None None None world_abc
    = Resolved [] ∧
  countRange (H := sample_utils) index_pk (VStr "c") (VStr "a") None None world_abc = Resolved 0 ∧
  getRange (H := sample_utils) index_pk (VStr "b") (VStr "b") (Some true) None None None None
    world_abc = Resolved [] ∧
  getRange (H := sample_utils) index_pk (VStr "b") (VStr "b") None None None None None world_abc
    = Resolved [person "b" []].
Proof.
  assert (Hopen : internal_isOpen (ix_trans index_pk) world_abc = true) by computed.
  assert (Hcalc : _calcChunkedData (H := sample_utils) index_pk world_abc
                  = Returned (read_dict 1%nat world_abc)) by computed.
  assert (Ha : serializeKeyToString (Collaborators := sample_utils) (VStr "a") (_keyPath index_pk)
               = Returned "a") by computed.
  assert (Hb : serializeKeyToString (Collaborators := sample_utils) (VStr "b") (_keyPath index_pk)
               = Returned "b") by computed.
  assert (Hc : serializeKeyToString (Collaborators := sample_utils) (VStr "c") (_keyPath index_pk)
               = Returned "c") by computed.
  assert (Hlt : String.ltb "a" "c" = true) by computed.
  destruct (crossed_bounds_select_nothing (H := sample_utils) index_pk world_abc
              (read_dict 1%nat world_abc) (VStr "c") (VStr "a") "c" "a" None None None None None
              Hopen Hcalc Hc Ha (or_introl Hlt)) as [Hget Hcount].
  destruct (crossed_bounds_select_nothing (H := sample_utils) index_pk world_abc
              (read_dict 1%nat world_abc) (VStr "b") (VStr "b") "b" "b" (Some true) None None
              None None Hopen Hcalc Hb Hb
              (or_intror (conj eq_refl (or_introl eq_refl)))) as [Hget' _].
  split_and!; [exact Hopen|exact Hcalc|exact Hlt|exact Hget|exact Hcount|exact Hget'|computed].
Defined.

(** X22 on the sample database. *)
Lemma primary_key_getAll_lists_rows_witness :
  wf world_abc ∧ (ix_mergedData index_pk < length (heap world_abc))%nat ∧
  internal_isOpen (ix_trans index_pk) world_abc = true ∧ _indexSchema index_pk = None ∧
  (∀ row, row ∈ dict_values (read_dict (ix_mergedData index_pk) world_abc) → flatten1 row = [row]) ∧
  getAll (H := sample_utils) index_pk (Some true) None None world_abc
    = Resolved [person "c" ["y"]; person "b" []; person "a" ["x"; "y"]] ∧
  ∃ ks, ks ≡ₚ dict_keys (read_dict (ix_mergedData index_pk) world_abc) ∧
    StronglySorted String.le ks ∧
    getAll (H := sample_utils) index_pk (Some true) None None world_abc
      = Resolved (map (dict_index (read_dict (ix_mergedData index_pk) world_abc))
                      (if flag (Some true) then rev ks else ks)) ∧
    map (dict_index (read_dict (ix_mergedData index_pk) world_abc))
        (if flag (Some true) then rev ks else ks)
      ≡ₚ dict_values (read_dict (ix_mergedData index_pk) world_abc).
Proof.
  assert (Hb : (ix_mergedData index_pk < length (heap world_abc))%nat) by (vm_compute; lia).
  assert (Hopen : internal_isOpen (ix_trans index_pk) world_abc = true) by computed.
  assert (Hpk : _indexSchema index_pk = None) by computed.
  assert (Hplain : ∀ row, row ∈ dict_values (read_dict (ix_mergedData index_pk) world_abc) →
                          flatten1 row = [row]).
  { intros row Hin. vm_compute in Hin.
    repeat (apply elem_of_cons in Hin as [->|Hin]; [reflexivity|]).
    by apply elem_of_nil in Hin. }
  split_and!; [apply wf_world_abc|exact Hb|exact Hopen|exact Hpk|exact Hplain|computed|].
  apply (primary_key_getAll_lists_rows (H := sample_utils) index_pk world_abc (Some true)
           wf_world_abc Hb Hopen Hpk Hplain).
Defined.
